(** * Kopia: vault block codec, vault protocol, ignore engine and uploader

    A shallow embedding of
      - [vault/vault.go]        (the vault and its encrypted block codec),
      - [fs/ignorefs/ignorefs.go] (the hierarchical ignore filter),
      - the [dir] package uploader ([UploadFile], [UploadDir]),
      - [cli/command_object_verify.go] (the object verifier),
    together with the properties stated about them.

    Conventions.
      - A Go [[]byte] is a [list byte]; where the code tests a slice against
        [nil] the value is an [option (list byte)].
      - Go [int] values (lengths, offsets) are [Z]; lengths of in-memory slices
        are far below 2^63, so no wrap-around is written out for them.
      - A Go function returning [(T, error)] returns [outcome T]; a run-time
        panic is the third alternative [Panic].  In the package [dir] no
        statement panics: what it calls returns a [dir.returned T], value or
        error, and a result whose id is passed on together with its error
        is the pair [dir.result].
      - Interfaces ([storage.Storage]) are type classes. *)

From Stdlib Require Import ZArith List Lia Bool.
From Stdlib Require Import Strings.String Strings.Ascii Strings.Byte.
From stdpp Require Import gmap strings list.

Set Warnings "-register-all".
#[local] Set Warnings "-deprecated".

Local Open Scope Z_scope.

(** ** Results of Go calls *)

Inductive error : Type :=
| ErrItemNotFound                       (* vault.ErrItemNotFound *)
| ErrBlockNotFound                      (* storage.ErrBlockNotFound *)
| ErrInvalidItemName (itemID : string)  (* "invalid vault item name: '%v'" *)
| ErrIncorrectChecksum                  (* "cannot read encrypted block: incorrect checksum" *)
| ErrUnsupportedEncryption (name : string)
| ErrUnsupportedChecksum (name : string)
| ErrFormatBlockNotFound                (* "vault format block not found" *)
| ErrUnexpectedRead (itemID : string) (cause : error)
| ErrUploadCancelled                    (* dir.ErrUploadCancelled *)
| ErrWrapped (context : string) (cause : error)
| ErrExternal (message : string).       (* an error value made by a library *)

Inductive outcome (A : Type) : Type :=
| Ok (a : A)
| Err (e : error)
| Panic (message : string).
Arguments Ok {A} a.
Arguments Err {A} e.
Arguments Panic {A} message.

Definition obind {A B} (m : outcome A) (k : A -> outcome B) : outcome B :=
  match m with
  | Ok a => k a
  | Err e => Err e
  | Panic s => Panic s
  end.

Definition omap_outcome {A B} (f : A -> B) (o : outcome A) : outcome B :=
  match o with
  | Ok a => Ok (f a)
  | Err e => Err e
  | Panic m => Panic m
  end.

Declare Scope outcome_scope.
Delimit Scope outcome_scope with outcome.
Notation "'let!' x ':=' m 'in' k" := (obind m (fun x => k))
  (at level 10, x pattern, m at level 100, k at level 200) : outcome_scope.
Local Open Scope outcome_scope.

Abbreviation bytes := (list byte).

#[global] Instance byte_eq_decision : EqDecision byte := Byte.byte_eq_dec.

Definition byteZ (b : byte) : Z := Z.of_N (Byte.to_N b).

Definition zbyte (z : Z) : byte :=
  match Byte.of_N (Z.to_N (z mod 256)) with
  | Some b => b
  | None => x00
  end.

Definition byte_xor (a b : byte) : byte := zbyte (Z.lxor (byteZ a) (byteZ b)).

Definition bytes_of_string (s : string) : bytes := String.list_byte_of_string s.

(** Bytes in hexadecimal. *)
Definition hex_digit (n : Z) : ascii :=
  ascii_of_nat (Z.to_nat (if n <? 10 then 48 + n else 87 + n)).

Fixpoint hex (bs : bytes) : string :=
  match bs with
  | [] => ""
  | b :: rest => String (hex_digit (byteZ b / 16)) (String (hex_digit (byteZ b mod 16)) (hex rest))
  end.

Definition unhex_digit (a : ascii) : Z :=
  let n := Z.of_nat (nat_of_ascii a) in
  if n <? 58 then n - 48 else n - 87.

Fixpoint unhex (s : string) : bytes :=
  match s with
  | String a (String b rest) => zbyte (16 * unhex_digit a + unhex_digit b) :: unhex rest
  | _ => []
  end.

(** A byte string read as a big-endian number. *)
Definition be_uint (bs : bytes) : Z :=
  fold_left (fun acc b => Z.lor (Z.shiftl acc 8) (byteZ b)) bs 0.

(** ** Go slices

    A slice expression [s[lo:hi]] panics unless [0 <= lo <= hi <= cap(s)].
    The capacity of a slice is taken to be its length: wherever the code
    below reaches a slice expression, its upper bound is at most the length,
    so that the room between length and capacity plays no part. *)

Definition len {A} (s : list A) : Z := Z.of_nat (length s).

Definition slice {A} (s : list A) (lo hi : Z) : outcome (list A) :=
  if (0 <=? lo) && (lo <=? hi) && (hi <=? len s)
  then Ok (take (Z.to_nat (hi - lo)) (drop (Z.to_nat lo) s))
  else Panic "slice bounds out of range".

Definition slice_from {A} (s : list A) (lo : Z) : outcome (list A) :=
  slice s lo (len s).

(** [make([]byte, n)]. *)
Definition make (n : Z) : outcome bytes :=
  if 0 <=? n then Ok (replicate (Z.to_nat n) x00)
  else Panic "makeslice: len out of range".

(** [copy(dst[off:], src)] seen from the whole buffer [dst]: the bytes of
    [src] that fit replace those of [dst] from [off] on. *)
Definition copy_at (dst : bytes) (off : nat) (src : bytes) : bytes :=
  take off dst ++ take (length dst - off) src
    ++ drop (off + length src) dst.

(** ** The primitives of Go's standard library used by the vault *)

(** [crypto/sha256]: SHA-256 of FIPS 180-4, on 32-bit words held in [Z]. *)
Module SHA256.

Definition mask32 : Z := 0xffffffff.
Definition add32 (x y : Z) : Z := Z.land (x + y) mask32.
Definition rotr (n x : Z) : Z :=
  Z.lor (Z.shiftr x n) (Z.land (Z.shiftl x (32 - n)) mask32).
Definition Ch (x y z : Z) : Z :=
  Z.lxor (Z.land x y) (Z.land (Z.lxor x mask32) z).
Definition Maj (x y z : Z) : Z :=
  Z.lxor (Z.lxor (Z.land x y) (Z.land x z)) (Z.land y z).
Definition bsig0 x := Z.lxor (Z.lxor (rotr 2 x) (rotr 13 x)) (rotr 22 x).
Definition bsig1 x := Z.lxor (Z.lxor (rotr 6 x) (rotr 11 x)) (rotr 25 x).
Definition ssig0 x := Z.lxor (Z.lxor (rotr 7 x) (rotr 18 x)) (Z.shiftr x 3).
Definition ssig1 x := Z.lxor (Z.lxor (rotr 17 x) (rotr 19 x)) (Z.shiftr x 10).

(** The first 64 primes. *)
Definition is_prime (p : nat) : bool :=
  forallb (fun d => negb (p mod d =? 0)%nat) (seq 2 (p - 2)).
Definition primes : list Z :=
  Eval vm_compute in map Z.of_nat (filter (fun p => is_prime p = true) (seq 2 310)).

(** The integer part of the cube root, by bisection between [lo] and [hi]. *)
Fixpoint cube_root (fuel : nat) (lo hi n : Z) : Z :=
  match fuel with
  | O => lo
  | S fuel' =>
      let mid := (lo + hi + 1) / 2 in
      if mid * mid * mid <=? n then cube_root fuel' mid hi n
      else cube_root fuel' lo (mid - 1) n
  end.

(** The round constants: the first 32 bits of the fractional parts of the
    cube roots of the first 64 primes. *)
Definition K : list Z :=
  Eval vm_compute in
    map (fun p => Z.land (cube_root 40 0 (2 ^ 36) (p * 2 ^ 96)) mask32) primes.

(** The eight working variables. *)
Record regs : Type := Regs { ra : Z; rb : Z; rc : Z; rd : Z; re : Z; rf : Z; rg : Z; rh : Z }.

(** The initial hash value: the first 32 bits of the fractional parts of
    the square roots of the first 8 primes. *)
Definition H0 : regs :=
  Eval vm_compute in
    match map (fun p => Z.land (Z.sqrt (p * 2 ^ 64)) mask32) (take 8 primes) with
    | [a; b; c; d; e; f; g; h] => Regs a b c d e f g h
    | _ => Regs 0 0 0 0 0 0 0 0
    end.

Definition unbe32 (x : Z) : bytes :=
  [zbyte (Z.shiftr x 24); zbyte (Z.shiftr x 16); zbyte (Z.shiftr x 8); zbyte x].

Fixpoint words (n : nat) (bs : bytes) : list Z :=
  match n with
  | O => []
  | S n' => be_uint (take 4 bs) :: words n' (drop 4 bs)
  end.

Definition wnth (i : nat) (w : list Z) : Z := nth i w 0.

(** One round; [w] is the window W_t .. W_{t+15} of the message schedule. *)
Definition round (st : regs * list Z) (k : Z) : regs * list Z :=
  let '(Regs a b c d e f g h, w) := st in
  let wt := wnth 0 w in
  let t1 := add32 (add32 (add32 (add32 h (bsig1 e)) (Ch e f g)) k) wt in
  let t2 := add32 (bsig0 a) (Maj a b c) in
  let wnew := add32 (add32 (add32 (ssig1 (wnth 14 w)) (wnth 9 w)) (ssig0 (wnth 1 w))) wt in
  (Regs (add32 t1 t2) a b c (add32 d t1) e f g, tl w ++ [wnew]).

Definition compress (h : regs) (block : bytes) : regs :=
  let '(Regs a b c d e f g h') := fst (fold_left round K (h, words 16 block)) in
  Regs (add32 (ra h) a) (add32 (rb h) b) (add32 (rc h) c) (add32 (rd h) d)
       (add32 (re h) e) (add32 (rf h) f) (add32 (rg h) g) (add32 (rh h) h').

Definition be64 (x : Z) : bytes :=
  map (fun i => zbyte (Z.shiftr x (8 * Z.of_nat (7 - i)))) (seq 0 8).

Definition pad (msg : bytes) : bytes :=
  let n := length msg in
  let zeros := ((64 - (n + 9) mod 64) mod 64)%nat in
  msg ++ [zbyte 0x80] ++ repeat x00 zeros ++ be64 (8 * Z.of_nat n).

Fixpoint blocks (n : nat) (h : regs) (bs : bytes) : regs :=
  match n with
  | O => h
  | S n' => blocks n' (compress h (take 64 bs)) (drop 64 bs)
  end.

Definition digest (h : regs) : bytes :=
  unbe32 (ra h) ++ unbe32 (rb h) ++ unbe32 (rc h) ++ unbe32 (rd h)
    ++ unbe32 (re h) ++ unbe32 (rf h) ++ unbe32 (rg h) ++ unbe32 (rh h).

Definition sum (msg : bytes) : bytes :=
  let p := pad msg in digest (blocks (length p / 64) H0 p).

Definition Size : Z := 32.
Definition BlockSize : nat := 64%nat.

End SHA256.

(** [crypto/hmac] with [sha256.New]. *)
Module HMAC.

Definition pad_key (key : bytes) : bytes :=
  let k := if (SHA256.BlockSize <? length key)%nat then SHA256.sum key else key in
  k ++ repeat x00 (SHA256.BlockSize - length k).

Definition sum (key msg : bytes) : bytes :=
  let k := pad_key key in
  SHA256.sum (map (byte_xor (zbyte 0x5c)) k
                ++ SHA256.sum (map (byte_xor (zbyte 0x36)) k ++ msg)).

(** [hmac.Equal]: true exactly on equal byte strings (the comparison takes
    constant time; unequal lengths compare unequal). *)
Definition Equal (a b : bytes) : bool := bool_decide (a = b).

End HMAC.

(** [golang.org/x/crypto/hkdf]: [hkdf.New(sha256.New, secret, salt, info)]
    followed by [io.ReadFull] of [n] bytes.  A nil salt stands for 32 zero
    bytes, which HMAC's key padding maps to the same key as the empty salt. *)
Module HKDF.

Definition extract (secret salt : bytes) : bytes := HMAC.sum salt secret.

Fixpoint expand (prk info : bytes) (count : nat) (i : Z) (prev : bytes) : bytes :=
  match count with
  | O => []
  | S count' =>
      let t := HMAC.sum prk (prev ++ info ++ [zbyte i]) in
      t ++ expand prk info count' (i + 1) t
  end.

(** The reader fails once more than 255 blocks are asked for. *)
Definition read (secret salt info : bytes) (n : nat) : outcome bytes :=
  if (255 * 32 <? n)%nat then Err (ErrExternal "hkdf: entropy limit reached")
  else Ok (take n (expand (extract secret salt) info ((n + 31) / 32) 1 [])).

End HKDF.

(** [crypto/aes]: the block cipher of FIPS 197 on 16-byte blocks, with
    128-, 192- and 256-bit keys.  Inside the module a byte is a [Z]. *)
Module AES.

Definition xtime (b : Z) : Z :=
  let s := Z.land (Z.shiftl b 1) 0xff in
  if Z.testbit b 7 then Z.lxor s 0x1b else s.

Fixpoint gmul_loop (n : nat) (a b acc : Z) : Z :=
  match n with
  | O => acc
  | S n' => gmul_loop n' (xtime a) (Z.shiftr b 1)
              (if Z.odd b then Z.lxor acc a else acc)
  end.
Definition gmul (a b : Z) : Z := gmul_loop 8 a b 0.

(** The inverse in GF(2^8) is the 254th power. *)
Definition ginv (b : Z) : Z :=
  let b2 := gmul b b in let b4 := gmul b2 b2 in let b8 := gmul b4 b4 in
  let b16 := gmul b8 b8 in let b32 := gmul b16 b16 in
  let b64 := gmul b32 b32 in let b128 := gmul b64 b64 in
  gmul b2 (gmul b4 (gmul b8 (gmul b16 (gmul b32 (gmul b64 b128))))).

Definition rotl8 (x n : Z) : Z :=
  Z.land (Z.lor (Z.shiftl x n) (Z.shiftr x (8 - n))) 0xff.

Definition sbox_of (b : Z) : Z :=
  let i := ginv b in
  Z.lxor (Z.lxor (Z.lxor (Z.lxor (Z.lxor i (rotl8 i 1)) (rotl8 i 2)) (rotl8 i 3)) (rotl8 i 4)) 0x63.

Definition sbox_table : list Z :=
  Eval vm_compute in map (fun i => sbox_of (Z.of_nat i)) (seq 0 256).

Definition sbox (b : Z) : Z := nth (Z.to_nat b) sbox_table 0.

Definition at_ (st : list Z) (i : nat) : Z := nth i st 0.

Definition sub_bytes (st : list Z) : list Z := map sbox st.

(** The state is held column by column: byte [r + 4c] is row [r] of
    column [c]; row [r] is rotated left by [r] columns. *)
Definition shift_rows (st : list Z) : list Z :=
  map (fun i => at_ st (i mod 4 + 4 * ((i / 4 + i mod 4) mod 4)))%nat (seq 0 16).

Definition mix_column (a0 a1 a2 a3 : Z) : list Z :=
  [ Z.lxor (Z.lxor (Z.lxor (gmul 2 a0) (gmul 3 a1)) a2) a3;
    Z.lxor (Z.lxor (Z.lxor a0 (gmul 2 a1)) (gmul 3 a2)) a3;
    Z.lxor (Z.lxor (Z.lxor a0 a1) (gmul 2 a2)) (gmul 3 a3);
    Z.lxor (Z.lxor (Z.lxor (gmul 3 a0) a1) a2) (gmul 2 a3) ].

Definition mix_columns (st : list Z) : list Z :=
  flat_map (fun c => mix_column (at_ st (4 * c)) (at_ st (4 * c + 1))
                       (at_ st (4 * c + 2)) (at_ st (4 * c + 3)))%nat (seq 0 4).

Definition add_round_key (st rk : list Z) : list Z := zip_with Z.lxor st rk.

Definition xor_word (a b : list Z) : list Z := zip_with Z.lxor a b.
Definition rot_word (w : list Z) : list Z := tl w ++ firstn 1 w.

(** Key schedule: [w] holds the words made so far, word [i] is next. *)
Fixpoint schedule (fuel Nk i : nat) (rcon : Z) (w : list (list Z)) : list (list Z) :=
  match fuel with
  | O => w
  | S fuel' =>
      let prev := nth (i - 1) w [] in
      let '(temp, rcon') :=
        if (i mod Nk =? 0)%nat
        then (xor_word (map sbox (rot_word prev)) [rcon; 0; 0; 0], xtime rcon)
        else if (6 <? Nk)%nat && (i mod Nk =? 4)%nat
             then (map sbox prev, rcon)
             else (prev, rcon) in
      schedule fuel' Nk (S i) rcon' (w ++ [xor_word (nth (i - Nk) w []) temp])
  end.

Definition key_words (key : list Z) : list (list Z) :=
  map (fun i => firstn 4 (skipn (4 * i) key)) (seq 0 (length key / 4)).

Definition expand_key (key : list Z) : list Z :=
  let Nk := (length key / 4)%nat in
  concat (schedule (4 * (Nk + 7) - Nk) Nk Nk 1 (key_words key)).

Definition round_key (rks : list Z) (r : nat) : list Z :=
  firstn 16 (skipn (16 * r) rks).

Fixpoint rounds (n r : nat) (rks st : list Z) : list Z :=
  match n with
  | O => st
  | S n' => rounds n' (S r) rks
              (add_round_key (mix_columns (shift_rows (sub_bytes st))) (round_key rks r))
  end.

Definition encrypt_block (key block : list Z) : list Z :=
  let Nr := (length key / 4 + 6)%nat in
  let rks := expand_key key in
  let st := rounds (Nr - 1) 1 rks (add_round_key block (round_key rks 0)) in
  add_round_key (shift_rows (sub_bytes st)) (round_key rks Nr).

(** A [cipher.Block] made by [aes.NewCipher]. *)
Record Block : Type := { block_key : bytes }.

Definition BlockSize : Z := 16.

Definition NewCipher (k : bytes) : outcome Block :=
  if bool_decide (length k = 16%nat \/ length k = 24%nat \/ length k = 32%nat)
  then Ok {| block_key := k |}
  else Err (ErrExternal "crypto/aes: invalid key size").

Definition Encrypt (b : Block) (src : bytes) : bytes :=
  map zbyte (encrypt_block (map byteZ (block_key b)) (map byteZ src)).

End AES.

(** [cipher.NewCTR] and the stream's [XORKeyStream], used once from the
    start of the stream.  The counter block is the IV read as a big-endian
    128-bit number, incremented by one per block. *)
Module CTR.

Record Stream : Type := { stream_block : AES.Block; stream_iv : bytes }.

Definition NewCTR (b : AES.Block) (iv : bytes) : outcome Stream :=
  if bool_decide (len iv = AES.BlockSize)
  then Ok {| stream_block := b; stream_iv := iv |}
  else Panic "cipher.NewCTR: IV length must equal block size".

Definition be128 (x : Z) : bytes :=
  map (fun i => zbyte (Z.shiftr x (8 * Z.of_nat (15 - i)))) (seq 0 16).

Definition counter_block (iv : bytes) (n : nat) : bytes :=
  be128 ((be_uint iv + Z.of_nat n) mod 2 ^ 128).

Definition keystream_byte (s : Stream) (j : nat) : byte :=
  nth (j mod 16) (AES.Encrypt (stream_block s) (counter_block (stream_iv s) (j / 16))) x00.

Definition xor_stream (s : Stream) (src : bytes) : bytes :=
  imap (fun j b => byte_xor b (keystream_byte s j)) src.

(** [XORKeyStream(dst, src)]; the result is the new content of [dst]. *)
Definition XORKeyStream (s : Stream) (dst src : bytes) : outcome bytes :=
  if (length dst <? length src)%nat
  then Panic "crypto/cipher: output smaller than input"
  else Ok (copy_at dst 0 (xor_stream s src)).

End CTR.

(** ** [storage.Storage]: the opaque block store *)

Module storage.

Record BlockMetadata : Type := { BlockID : string; Error : option error }.

(** Reading does not change the store; [PutBlock] is called with
    [PutOptionsOverwrite] throughout.  [ListBlocks] is the content of the
    channel the store returns. *)
Class Storage (S : Type) : Type := {
  GetBlock : S -> string -> option bytes * option error;
  PutBlock : S -> string -> bytes -> S * option error;
  DeleteBlock : S -> string -> S * option error;
  ListBlocks : S -> string -> list BlockMetadata;
}.

(** A store held in memory: a finite map from block ids to contents. *)
#[global] Instance mem_storage : Storage (gmap string bytes) := {|
  GetBlock m id :=
    match m !! id with
    | Some b => (Some b, None)
    | None => (None, Some ErrBlockNotFound)
    end;
  PutBlock m id b := (<[id := b]> m, None);
  DeleteBlock m id :=
    match m !! id with
    | Some _ => (delete id m, None)
    | None => (m, Some ErrBlockNotFound)
    end;
  ListBlocks m prefix :=
    map (fun kv => {| BlockID := fst kv; Error := None |})
        (filter (fun kv => String.prefix prefix (fst kv) = true) (map_to_list m));
|}.

End storage.

(** ** [vault/vault.go] *)

Module vault.
Import storage.

Definition formatBlockID : string := "format".
Definition repositoryConfigBlockID : string := "repo".
Definition colocatedVaultItemPrefix : string := "VLT".

Definition purposeAESKey : bytes := bytes_of_string "AES".
Definition purposeChecksumSecret : bytes := bytes_of_string "CHECKSUM".

(** The vault's [Format] (declared in another file of the package): the
    fields [vault.go] reads. *)
Record VaultFormat : Type := {
  Version : string;
  UniqueID : bytes;
  Encryption : string;
  Checksum : string;
}.

(** What [vault.go] needs from outside the file: the repository's
    connection info and format, [encoding/json] on the two persisted
    structures (a decoding failure carries the library's message), and the
    credentials' master key for a unique id. *)
Class Env : Type := {
  ConnectionInfo : Type;
  RepoFormat : Type;
  unmarshalFormat : bytes -> string + VaultFormat;
  unmarshalRepositoryConfig :
    bytes -> string + (option ConnectionInfo * option RepoFormat);
}.

Record Credentials : Type := { getMasterKey : bytes -> bytes }.

Record RepositoryConfig `{Env} : Type := {
  Connection : option ConnectionInfo;
  RepoFormat_ : option RepoFormat;
}.

Record Vault `{Env} (S : Type) : Type := {
  Storage : S;
  Format : VaultFormat;
  RepoConfig : option RepositoryConfig;
  masterKey : bytes;
  itemPrefix : string;
}.
Arguments Storage {_ S} v.
Arguments Format {_ S} v.
Arguments RepoConfig {_ S} v.
Arguments masterKey {_ S} v.
Arguments itemPrefix {_ S} v.

Definition json {A} (r : string + A) : outcome A :=
  match r with
  | inl msg => Err (ErrExternal msg)
  | inr a => Ok a
  end.

(** [io.EOF] and [io.ErrUnexpectedEOF]. *)
Definition EOF : error := ErrExternal "EOF".
Definition ErrUnexpectedEOF : error := ErrExternal "unexpected EOF".

(** [io.ReadFull(rand.Reader, buf)] for a buffer of [n] bytes; [entropy]
    is what the system's generator can still deliver.  When that is less
    than the buffer, the error is [io.EOF] if no byte was read and
    [io.ErrUnexpectedEOF] after some bytes. *)
Definition ReadFull (entropy : bytes) (n : nat) : outcome bytes :=
  if (length entropy <? n)%nat then
    match entropy with
    | [] => Err EOF
    | _ :: _ => Err ErrUnexpectedEOF
    end
  else Ok (take n entropy).

(** A keyed [hash.Hash]: [Write] of the data followed by [Sum(nil)]. *)
Record Hash : Type := { hash_key : bytes }.
Definition Hash_Size (h : Hash) : Z := SHA256.Size.
Definition Hash_Sum (h : Hash) (data : bytes) : bytes := HMAC.sum (hash_key h) data.

Section WithVault.
Context `{Env} {S : Type} `{storage.Storage S}.

(** [deriveKey] fills the [n]-byte buffer [key]; its callers drop the
    error, and are left with the zeroed buffer when the reader fails. *)
Definition deriveKey (v : Vault S) (purpose : bytes) (n : nat) : bytes * option error :=
  match HKDF.read (masterKey v) (UniqueID (Format v)) purpose n with
  | Ok k => (k, None)
  | Err e => (repeat x00 n, Some e)
  | Panic _ => (repeat x00 n, None)
  end.

Definition newChecksum (v : Vault S) : outcome Hash :=
  if decide (Checksum (Format v) = "hmac-sha-256")
  then Ok {| hash_key := fst (deriveKey v purposeChecksumSecret 32) |}
  else Err (ErrUnsupportedChecksum (Checksum (Format v))).

(** [nil, nil] for "none". *)
Definition newCipher (v : Vault S) : outcome (option AES.Block) :=
  let enc := Encryption (Format v) in
  if decide (enc = "none") then Ok None
  else if decide (enc = "aes-128")
    then obind (AES.NewCipher (fst (deriveKey v purposeAESKey 16))) (fun b => Ok (Some b))
  else if decide (enc = "aes-192")
    then obind (AES.NewCipher (fst (deriveKey v purposeAESKey 24))) (fun b => Ok (Some b))
  else if decide (enc = "aes-256")
    then obind (AES.NewCipher (fst (deriveKey v purposeAESKey 32))) (fun b => Ok (Some b))
  else Err (ErrUnsupportedEncryption enc).

Definition isReservedName (itemID : string) : bool :=
  bool_decide (itemID = formatBlockID) || bool_decide (itemID = repositoryConfigBlockID).

Definition checkReservedName (itemID : string) : option error :=
  if isReservedName itemID then Some (ErrInvalidItemName itemID) else None.

(** The body of [writeEncryptedBlock] up to its final [PutBlock]: the
    content handed to the store. *)
Definition sealBlock (v : Vault S) (entropy : bytes) (content : bytes) : outcome bytes :=
  let! blk := newCipher v in
  match blk with
  | None => Ok content
  | Some blk =>
      let! hash := newChecksum v in
      let ivLength := AES.BlockSize in
      let ivPlusContentLength := ivLength + len content in
      let! cipherText := make (ivPlusContentLength + Hash_Size hash) in
      (* Store IV at the beginning of ciphertext. *)
      let! iv := slice cipherText 0 ivLength in
      let! iv := ReadFull entropy (length iv) in
      let cipherText := copy_at cipherText 0 iv in
      let! ctr := CTR.NewCTR blk iv in
      let! dst := slice_from cipherText ivLength in
      let! dst := CTR.XORKeyStream ctr dst content in
      let cipherText := copy_at cipherText (Z.to_nat ivLength) dst in
      let! covered := slice cipherText 0 ivPlusContentLength in
      let cipherText :=
        copy_at cipherText (Z.to_nat ivPlusContentLength) (Hash_Sum hash covered) in
      Ok cipherText
  end.

Definition of_error (e : option error) : outcome unit :=
  match e with
  | Some e => Err e
  | None => Ok tt
  end.

Definition writeEncryptedBlock (v : Vault S) (entropy : bytes)
    (itemID : string) (content : bytes) : outcome unit * S :=
  match sealBlock v entropy content with
  | Ok content =>
      let '(s, e) := PutBlock (Storage v) (itemPrefix v +:+ itemID) content in
      (of_error e, s)
  | Err e => (Err e, Storage v)
  | Panic m => (Panic m, Storage v)
  end.

Definition decryptBlock (v : Vault S) (content : bytes) : outcome bytes :=
  let! blk := newCipher v in
  match blk with
  | None => Ok content
  | Some blk =>
      let! hash := newChecksum v in
      let p := len content - Hash_Size hash in
      let! covered := slice content 0 p in
      let expectedChecksum := Hash_Sum hash covered in
      let! actualChecksum := slice_from content p in
      if negb (HMAC.Equal expectedChecksum actualChecksum)
      then Err ErrIncorrectChecksum
      else
        let ivLength := AES.BlockSize in
        let! plainText := make (len content - ivLength - Hash_Size hash) in
        let! iv := slice content 0 AES.BlockSize in
        let! ctr := CTR.NewCTR blk iv in
        let! body := slice content ivLength (len content - Hash_Size hash) in
        CTR.XORKeyStream ctr plainText body
  end.

Definition readEncryptedBlock (v : Vault S) (itemID : string) : outcome bytes :=
  match GetBlock (Storage v) (itemPrefix v +:+ itemID) with
  | (content, Some ErrBlockNotFound) => Err ErrItemNotFound
  | (content, Some err) => Err (ErrUnexpectedRead itemID err)
  | (content, None) => decryptBlock v (default [] content)
  end.

(** [Put] saves the specified content in a vault under a specified name. *)
Definition Put (v : Vault S) (entropy : bytes) (itemID : string) (content : bytes)
    : outcome unit * S :=
  match checkReservedName itemID with
  | Some err => (Err err, Storage v)
  | None => writeEncryptedBlock v entropy itemID content
  end.

(** [Get] returns the contents of a specified vault item. *)
Definition Get (v : Vault S) (itemID : string) : outcome bytes :=
  match checkReservedName itemID with
  | Some err => Err err
  | None => readEncryptedBlock v itemID
  end.

(** Go's [strings.TrimPrefix]. *)
Definition TrimPrefix (s prefix : string) : string :=
  if String.prefix prefix s
  then String.substring (String.length prefix) (String.length s - String.length prefix) s
  else s.

(** The loop of [List] over the blocks received from the channel. *)
Fixpoint List_loop (v : Vault S) (stream : list BlockMetadata) (result : list string)
    : list string * option error :=
  match stream with
  | [] => (result, None)
  | b :: rest =>
      match Error b with
      | Some e => (result, Some e)
      | None =>
          let itemID := TrimPrefix (BlockID b) (itemPrefix v) in
          List_loop v rest
            (if negb (isReservedName itemID) then result ++ [itemID] else result)
      end
  end.

(** [List] returns the list of vault items matching the specified prefix. *)
Definition List (v : Vault S) (prefix : string) : list string * option error :=
  List_loop v (ListBlocks (Storage v) (itemPrefix v +:+ prefix)) [].

(** [Remove] deletes the specified vault item. *)
Definition Remove (v : Vault S) (itemID : string) : option error * S :=
  match checkReservedName itemID with
  | Some err => (Some err, Storage v)
  | None =>
      let '(s, e) := DeleteBlock (Storage v) (itemPrefix v +:+ itemID) in (e, s)
  end.

(** [Open] opens a vault.  The four reads run concurrently in the
    source and are joined before anything else happens; reads leave the
    store as it is, so their order is immaterial. *)
Definition Open (vaultStorage : S) (vaultCreds : Credentials) : outcome (Vault S) :=
  let f (name : string) := fst (GetBlock vaultStorage name) in
  let blocks : list (option bytes) :=
    [ f formatBlockID;
      f repositoryConfigBlockID;
      f (colocatedVaultItemPrefix +:+ formatBlockID);
      f (colocatedVaultItemPrefix +:+ repositoryConfigBlockID) ] in
  let block (i : nat) : option bytes := nth i blocks None in
  if bool_decide (block 0%nat = None) && bool_decide (block 2%nat = None)
  then Err ErrFormatBlockNotFound
  else
    let '(prefix, offset) :=
      if bool_decide (block 0%nat = None)
      then (colocatedVaultItemPrefix, 2%nat) else (""%string, 0%nat) in
    let! format := json (unmarshalFormat (default [] (block offset))) in
    let v := {| Storage := vaultStorage;
                Format := format;
                RepoConfig := None;
                masterKey := getMasterKey vaultCreds (UniqueID format);
                itemPrefix := prefix |} in
    let! cfgData := decryptBlock v (default [] (block (offset + 1)%nat)) in
    let! rc := json (unmarshalRepositoryConfig cfgData) in
    Ok {| Storage := vaultStorage;
          Format := format;
          RepoConfig := Some {| Connection := fst rc; RepoFormat_ := snd rc |};
          masterKey := masterKey v;
          itemPrefix := prefix |}.

End WithVault.

End vault.

(** ** [fs/ignorefs/ignorefs.go] *)

Module ignorefs.

(** An [fs.Entry] as the filter sees it.  An [fs.File] can be opened; the
    lines are those [bufio.Scanner] delivers.  An [fs.Directory] can be
    listed, and is the only kind of entry whose [IsDir()] holds. *)
Inductive Entry : Type :=
| File (name : string) (size : Z) (lines : outcome (list string))
| Directory (name : string) (size : Z) (listing : outcome (list Entry))
| Other (name : string) (size : Z).

Definition Name (e : Entry) : string :=
  match e with File n _ _ | Directory n _ _ | Other n _ => n end.
Definition Size (e : Entry) : Z :=
  match e with File _ s _ | Directory _ s _ | Other _ s => s end.
Definition IsDir (e : Entry) : bool :=
  match e with Directory _ _ _ => true | _ => false end.

(** Modelled from the spec: [fs.Entries.FindByName], of the package [fs],
    is not among the sources; it locates the entry of the listing with the
    given name, here the first one. *)
Definition FindByName (entries : list Entry) (n : string) : option Entry :=
  List.find (fun e => bool_decide (Name e = n)) entries.

(** [ignore.Matcher]. *)
Definition Matcher : Type := string -> bool -> bool.

(** What the file calls in other packages:
    [ignore.ParseGitIgnore(baseDir, pattern)] of [internal/ignore], which
    gives a matcher or the message of a parse error, and [strconv.Quote],
    which writes the operand of the verb [%q]. *)
Class GitIgnore : Type := {
  ParseGitIgnore : string -> string -> string + Matcher;
  Quote : string -> string;
}.

(** [FilesPolicy], declared in another file of the package: the fields
    [ignorefs.go] reads. *)
Record FilesPolicy : Type := {
  IgnoreRules : list string;
  DotIgnoreFiles : list string;
  MaxFileSize : Z;
  NoParentIgnoreRules : bool;
  NoParentDotIgnoreFiles : bool;
}.

(** [FilesPolicyGetter.GetPolicyForPath]; [None] is the nil policy. *)
Definition FilesPolicyGetter : Type := string -> outcome (option FilesPolicy).

(** [FilesPolicyMap]. *)
Definition FilesPolicyMap (m : gmap string FilesPolicy) : FilesPolicyGetter :=
  fun relativePath => Ok (m !! relativePath).

(** An [IgnoreCallback] is known by a number; calling it is recorded. *)
Definition IgnoreCallback : Type := nat.
Record Call : Type := { callee : IgnoreCallback; call_path : string; call_entry : Entry }.

Inductive ignoreContext : Type := IgnoreContext {
  parent : option ignoreContext;
  policyGetter : FilesPolicyGetter;
  onIgnore : list IgnoreCallback;
  dotIgnoreFiles : list string;   (* which files to look for more ignore rules *)
  matchers : list Matcher;        (* current set of rules to ignore files *)
  maxFileSize : Z;                (* maximum size of file allowed *)
}.

(** The first matcher that matches ends the loop; all callbacks are then
    called in order. *)
Fixpoint shouldIncludeByName (c : ignoreContext) (path : string) (e : Entry)
    : bool * list Call :=
  if existsb (fun m : Matcher => m path (IsDir e)) (matchers c)
  then (false, map (fun oi => {| callee := oi; call_path := path; call_entry := e |})
                   (onIgnore c))
  else match parent c with
       | None => (true, [])
       | Some p => shouldIncludeByName p path e
       end.

Record ignoreDirectory : Type := {
  relativePath : string;
  parentContext : ignoreContext;
  dir_name : string;
  dir_size : Z;
  dir_listing : outcome (list Entry);   (* the embedded [fs.Directory] *)
}.

Definition combineAndDedupe (slices : list (list string)) : list string :=
  fold_left
    (fun result slice =>
       fold_left (fun result it =>
                    if bool_decide (it ∈ result) then result else result ++ [it])
                 slice result)
    slices [].

(** [utf8.DecodeRuneInString]: the first rune of a string of bytes and
    its width.  The first byte gives the width and the range its
    successor must lie in (the tables [first] and [acceptRanges]); bytes
    that are no encoding of a rune decode as [RuneError], of width 1. *)
Definition RuneError : Z := 0xFFFD.

Definition first (s0 : Z) : option (nat * (Z * Z)) :=
  if s0 <? 0xC2 then None
  else if s0 <=? 0xDF then Some (2%nat, (0x80, 0xBF))
  else if s0 =? 0xE0 then Some (3%nat, (0xA0, 0xBF))
  else if s0 <=? 0xEC then Some (3%nat, (0x80, 0xBF))
  else if s0 =? 0xED then Some (3%nat, (0x80, 0x9F))
  else if s0 <=? 0xEF then Some (3%nat, (0x80, 0xBF))
  else if s0 =? 0xF0 then Some (4%nat, (0x90, 0xBF))
  else if s0 <=? 0xF3 then Some (4%nat, (0x80, 0xBF))
  else if s0 =? 0xF4 then Some (4%nat, (0x80, 0x8F))
  else None.

Definition outside (lo hi b : Z) : bool := (b <? lo) || (hi <? b).

Definition DecodeRune (s : list Z) : Z * nat :=
  match s with
  | [] => (RuneError, 0%nat)
  | s0 :: rest =>
      if s0 <? 0x80 then (s0, 1%nat)
      else
        match first s0 with
        | None => (RuneError, 1%nat)
        | Some (sz, (lo, hi)) =>
            if (length s <? sz)%nat then (RuneError, 1%nat)
            else
              match rest with
              | [] => (RuneError, 1%nat)
              | s1 :: rest =>
                  if outside lo hi s1 then (RuneError, 1%nat)
                  else if (sz <=? 2)%nat then
                    (Z.lor (Z.shiftl (Z.land s0 0x1F) 6) (Z.land s1 0x3F), 2%nat)
                  else
                    match rest with
                    | [] => (RuneError, 1%nat)
                    | s2 :: rest =>
                        if outside 0x80 0xBF s2 then (RuneError, 1%nat)
                        else if (sz <=? 3)%nat then
                          (Z.lor (Z.shiftl (Z.land s0 0x0F) 12)
                             (Z.lor (Z.shiftl (Z.land s1 0x3F) 6) (Z.land s2 0x3F)),
                           3%nat)
                        else
                          match rest with
                          | [] => (RuneError, 1%nat)
                          | s3 :: _ =>
                              if outside 0x80 0xBF s3 then (RuneError, 1%nat)
                              else
                                (Z.lor (Z.shiftl (Z.land s0 0x07) 18)
                                   (Z.lor (Z.shiftl (Z.land s1 0x3F) 12)
                                      (Z.lor (Z.shiftl (Z.land s2 0x3F) 6)
                                         (Z.land s3 0x3F))),
                                 4%nat)
                          end
                    end
              end
        end
  end.

(** [unicode.IsSpace]: the white space of Latin-1, and above it the
    runes of the property White_Space. *)
Definition IsSpace (r : Z) : bool :=
  if r <=? 0xFF then
    (0x09 <=? r) && (r <=? 0x0D) || (r =? 0x20) || (r =? 0x85) || (r =? 0xA0)
  else
    (r =? 0x1680) || (0x2000 <=? r) && (r <=? 0x200A) || (r =? 0x2028) || (r =? 0x2029)
    || (r =? 0x202F) || (r =? 0x205F) || (r =? 0x3000).

(** [strings.TrimLeftFunc(s, unicode.IsSpace)]: the string from its
    first rune that is no white space on.  Every round drops a rune, so
    that the length of the string is fuel enough. *)
Fixpoint trimLeft (fuel : nat) (s : list Z) : list Z :=
  match fuel, s with
  | S fuel, _ :: _ =>
      let '(r, width) := DecodeRune s in
      if IsSpace r then trimLeft fuel (drop width s) else s
  | _, _ => s
  end.

Definition string_bytes (s : string) : list Z :=
  map (fun a => Z.of_nat (nat_of_ascii a)) (list_ascii_of_string s).

(** [strings.TrimSpace(line) == ""].  [TrimSpace] drops the white-space
    runes at both ends; what it drops at the right end are again whole
    encoded white-space runes, so that nothing is left exactly when
    nothing is left after trimming at the left end. *)
Definition blank (line : string) : bool :=
  let s := string_bytes line in
  match trimLeft (length s) s with
  | [] => true
  | _ :: _ => false
  end.

Section WithParser.
Context `{GitIgnore}.

Definition wrap (context : string) (r : string + Matcher) : outcome Matcher :=
  match r with
  | inl msg => Err (ErrWrapped context (ErrExternal msg))
  | inr m => Ok m
  end.

(** The loop of [parseIgnoreFile] over the scanned lines. *)
Fixpoint parseLines (baseDir : string) (lines : list string) (matchers : list Matcher)
    : outcome (list Matcher) :=
  match lines with
  | [] => Ok matchers
  | line :: rest =>
      if String.prefix "#" line then parseLines baseDir rest matchers
      else if blank line then parseLines baseDir rest matchers
      else
        let! m := wrap ("unable to parse ignore entry " +:+ line)
                       (ParseGitIgnore baseDir line) in
        parseLines baseDir rest (matchers ++ [m])
  end.

Definition parseIgnoreFile (baseDir : string) (lines : outcome (list string))
    : outcome (list Matcher) :=
  match lines with
  | Err err => Err (ErrWrapped "unable to open ignore file" err)
  | Panic msg => Panic msg
  | Ok ls => parseLines baseDir ls []
  end.

Fixpoint loadDotIgnoreFiles (c : ignoreContext) (dirPath : string)
    (entries : list Entry) (dotIgnoreFiles : list string) : outcome ignoreContext :=
  match dotIgnoreFiles with
  | [] => Ok c
  | dotIgnoreFile :: rest =>
      match FindByName entries dotIgnoreFile with
      | Some (File name _ lines) =>
          match parseIgnoreFile dirPath lines with
          | Ok ms =>
              loadDotIgnoreFiles
                (IgnoreContext (parent c) (policyGetter c) (onIgnore c)
                   (ignorefs.dotIgnoreFiles c) (matchers c ++ ms) (maxFileSize c))
                dirPath entries rest
          | Err err => Err (ErrWrapped ("unable to parse ignore file " +:+ name) err)
          | Panic msg => Panic msg
          end
      | _ => loadDotIgnoreFiles c dirPath entries rest   (* no dotfile, or not a file *)
      end
  end.

(** The loop of [overrideFromPolicy] that appends the policy-level rules. *)
Fixpoint appendRules (dirPath : string) (rules : list string) (ms : list Matcher)
    : outcome (list Matcher) :=
  match rules with
  | [] => Ok ms
  | rule :: rest =>
      let! m := wrap ("unable to parse ignore entry " +:+ dirPath)
                     (ParseGitIgnore dirPath rule) in
      appendRules dirPath rest (ms ++ [m])
  end.

Definition overrideFromPolicy (c : ignoreContext) (policy : FilesPolicy)
    (dirPath : string) : outcome ignoreContext :=
  let dotIgnoreFiles1 :=
    if NoParentDotIgnoreFiles policy then [] else dotIgnoreFiles c in
  let matchers1 := if NoParentIgnoreRules policy then [] else matchers c in
  let dotIgnoreFiles2 := combineAndDedupe [dotIgnoreFiles1; DotIgnoreFiles policy] in
  let maxFileSize1 :=
    if negb (MaxFileSize policy =? 0) then MaxFileSize policy else maxFileSize c in
  let! matchers2 := appendRules dirPath (IgnoreRules policy) matchers1 in
  Ok (IgnoreContext (parent c) (policyGetter c) (onIgnore c)
        dotIgnoreFiles2 matchers2 maxFileSize1).

(** The part of [buildContext] from [newic := &ignoreContext{...}] on:
    a new context below the parent's. *)
Definition childContext (d : ignoreDirectory) (entries : list Entry)
    (policy : option FilesPolicy) (effectiveDotIgnoreFiles : list string)
    : outcome ignoreContext :=
  let newic := {| parent := Some (parentContext d);
                  policyGetter := policyGetter (parentContext d);
                  onIgnore := onIgnore (parentContext d);
                  dotIgnoreFiles := effectiveDotIgnoreFiles;
                  matchers := [];
                  maxFileSize := maxFileSize (parentContext d) |} in
  let! newic :=
    match policy with
    | Some policy => overrideFromPolicy newic policy (relativePath d)
    | None => Ok newic
    end in
  loadDotIgnoreFiles newic (relativePath d) entries effectiveDotIgnoreFiles.

Definition buildContext (d : ignoreDirectory) (entries : list Entry)
    : outcome ignoreContext :=
  let effectiveDotIgnoreFiles := dotIgnoreFiles (parentContext d) in
  match policyGetter (parentContext d) (relativePath d) with
  | Err err =>
      Err (ErrWrapped ("unable to get policy for " +:+ Quote (relativePath d)) err)
  | Panic msg => Panic msg
  | Ok policy =>
      let effectiveDotIgnoreFiles :=
        match policy with
        | Some policy => DotIgnoreFiles policy
        | None => effectiveDotIgnoreFiles
        end in
      let foundDotIgnoreFiles :=
        existsb (fun dotfile => bool_decide (is_Some (FindByName entries dotfile)))
                effectiveDotIgnoreFiles in
      if negb foundDotIgnoreFiles && bool_decide (policy = None)
      then (* no dotfiles and no policy at this level, reuse parent ignore rules *)
        Ok (parentContext d)
      else childContext d entries policy effectiveDotIgnoreFiles
  end.

(** What [Readdir] returns for an entry it keeps: the entry itself, or
    for a directory its wrapper. *)
Inductive Kept : Type :=
| Plain (e : Entry)
| Wrapped (d : ignoreDirectory).

(** The loop of [Readdir] over the entries, under the context built for
    this directory. *)
Fixpoint filterEntries (d : ignoreDirectory) (thisContext : ignoreContext)
    (entries : list Entry) : list Kept * list Call :=
  match entries with
  | [] => ([], [])
  | e :: rest =>
      let path := relativePath d +:+ "/" +:+ Name e in
      let '(include, calls) := shouldIncludeByName thisContext path e in
      let '(result, calls') := filterEntries d thisContext rest in
      if negb include then (result, calls ++ calls')
      else if (0 <? maxFileSize thisContext) && (maxFileSize thisContext <? Size e)
      then (result, calls ++ calls')
      else
        let kept :=
          match e with
          | Directory name size listing =>
              Wrapped {| relativePath := path; parentContext := thisContext;
                         dir_name := name; dir_size := size; dir_listing := listing |}
          | _ => Plain e
          end in
        (kept :: result, calls ++ calls')
  end.

Definition Readdir (d : ignoreDirectory) : outcome (list Kept) * list Call :=
  match dir_listing d with
  | Err err => (Err err, [])
  | Panic msg => (Panic msg, [])
  | Ok entries =>
      match buildContext d entries with
      | Err err => (Err err, [])
      | Panic msg => (Panic msg, [])
      | Ok thisContext =>
          let '(result, calls) := filterEntries d thisContext entries in
          (Ok result, calls)
      end
  end.

(** [New], with the callbacks registered through [ReportIgnoredFiles]
    (a nil callback is not registered) and the empty [FilesPolicyMap]
    in place of a nil policy getter. *)
Definition New (name : string) (size : Z) (listing : outcome (list Entry))
    (policyGetter : option FilesPolicyGetter) (options : list (option IgnoreCallback))
    : ignoreDirectory :=
  let rootContext :=
    {| parent := None;
       policyGetter := default (FilesPolicyMap ∅) policyGetter;
       onIgnore := omap id options;
       dotIgnoreFiles := [];
       matchers := [];
       maxFileSize := 0 |} in
  {| relativePath := "."; parentContext := rootContext;
     dir_name := name; dir_size := size; dir_listing := listing |}.

End WithParser.

End ignorefs.

(** ** The uploader of the package [dir] *)

Module content.
(** [content.ObjectID], a string; [content.NullObjectID] is the empty one. *)
Definition ObjectID : Type := string.
Definition NullObjectID : ObjectID := "".
End content.

Module dir.

(** What a call into another package returns where the caller reads the
    value only when the error is nil: a Go result [(T, error)]. *)
Inductive returned (A : Type) : Type :=
| Ok (a : A)
| Err (err : error).
Arguments Ok {A} a.
Arguments Err {A} err.

(** A Go result [(content.ObjectID, error)], id and error both. *)
Definition result : Type := content.ObjectID * option error.

Inductive EntryType : Type :=
| EntryTypeFile | EntryTypeDirectory | EntryTypeSymlink | EntryTypeOther.

#[global] Instance EntryType_eq_dec : EqDecision EntryType.
Proof. solve_decision. Defined.

(** Modelled from the spec: [Entry], [Listing], [FindEntryName],
    [metadataEquals], [ReadDir] and [WriteDir] belong to files of the
    package that are not among the sources.  An entry carries its name,
    type, size, mode bits, modification time, owner and, once known, its
    object id; a listing holds its entries by reference, so that the ids
    the uploader assigns in its loop are those it writes afterwards. *)
Record Entry : Type := {
  Name : string;
  Type_ : EntryType;
  Size : Z;
  Mode : Z;
  ModTime : Z;
  Owner : Z * Z;
  ObjectID : content.ObjectID;
}.

Record Listing : Type := { Entries : list Entry }.

Definition with_ObjectID (e : Entry) (oid : content.ObjectID) : Entry :=
  {| Name := Name e; Type_ := Type_ e; Size := Size e; Mode := Mode e;
     ModTime := ModTime e; Owner := Owner e; ObjectID := oid |}.

(** Modelled from the spec: the cached entry with the same name, if any. *)
Definition FindEntryName (l : Listing) (name : string) : option Entry :=
  List.find (fun e => bool_decide (Name e = name)) (Entries l).

(** Modelled from the spec: the cached entry exists and agrees on type,
    size, mode, modification time and owner. *)
Definition metadataEquals (e : Entry) (other : option Entry) : bool :=
  match other with
  | None => false
  | Some o =>
      bool_decide (Type_ e = Type_ o) && bool_decide (Size e = Size o)
      && bool_decide (Mode e = Mode o) && bool_decide (ModTime e = ModTime o)
      && bool_decide (Owner e = Owner o)
  end.

(** Modelled from the spec: the on-disk format of a directory is not
    modelled; the object written for a directory by [WriteDir] is its
    listing, [ReadDir] gives that listing back, and fails on a file's
    object. *)
Inductive Object : Type :=
| FileObject (data : bytes)
| DirObject (l : Listing).

Definition WriteDir (l : Listing) : Object := DirObject l.

Definition ReadDir (o : Object) : returned Listing :=
  match o with
  | DirObject l => Ok l
  | FileObject _ => Err (ErrExternal "invalid directory object")
  end.

(** [cas.ObjectManager].  [WriteObject] is [NewWriter] with a description
    and a block name prefix, the object written to the writer, and
    [Result] with its argument, whose id and error it gives; [Open] gives
    the object behind an id. *)
Class ObjectManager (M : Type) : Type := {
  WriteObject : M -> string -> string -> Object -> bool -> result * M;
  Open : M -> content.ObjectID -> returned Object;
}.

(** What the source tree holds at a path: the metadata the lister reports
    for it, what [os.Open] and reading give, and what [lister.List] gives
    for it (the nodes of its entries in the lister's order, or an error, as
    for a path that is no directory).  Opening a file can fail; reading it
    can fail too, after some of its bytes have been read. *)
Record Source : Type := {
  open_error : option error;
  file_bytes : bytes;
  failure : option (nat * error);   (* reading fails after so many bytes *)
}.

(** [io.Copy(writer, file)]: what reached the writer, and the error. *)
Definition Copy (src : Source) : bytes * option error :=
  match failure src with
  | Some (n, err) => (take n (file_bytes src), Some err)
  | None => (file_bytes src, None)
  end.

Record Metadata : Type := {
  md_name : string; md_size : Z; md_mode : Z; md_mtime : Z; md_owner : Z * Z;
}.

Inductive Node : Type :=
| MkNode (kind : EntryType) (md : Metadata) (src : Source)
         (listing : returned (list Node)).

Definition node_source (n : Node) : Source :=
  match n with MkNode _ _ src _ => src end.
Definition node_listing (n : Node) : returned (list Node) :=
  match n with MkNode _ _ _ listing => listing end.

(** The entry the lister reports for a node; it has no object id yet. *)
Definition entry_of (n : Node) : Entry :=
  match n with
  | MkNode kind md _ _ =>
      {| Name := md_name md; Type_ := kind; Size := md_size md; Mode := md_mode md;
         ModTime := md_mtime md; Owner := md_owner md;
         ObjectID := content.NullObjectID |}
  end.

(** [uploader]: the flag read by [isCancelled]. *)
Record uploader : Type := { cancelled : Z }.

Definition isCancelled (u : uploader) : bool := negb (cancelled u =? 0).

(** The elements of a path, that is, what its separators enclose;
    [element] holds the characters read since the last separator. *)
Fixpoint elements (path element : string) : list string :=
  match path with
  | EmptyString => [element]
  | String c rest =>
      if Ascii.eqb c "/" then element :: elements rest ""
      else elements rest (element +:+ String c "")
  end.

(** One element in the loop of [filepath.Clean]; [out] holds the elements
    written so far, the last one first.  An empty element and "." are
    dropped; ".." takes the last element back, unless there is none or it
    is ".." itself, in which case ".." is written if the path is not
    rooted. *)
Definition cleanElement (rooted : bool) (out : list string) (element : string)
    : list string :=
  if bool_decide (element = ""%string) || bool_decide (element = "."%string) then out
  else if bool_decide (element = ".."%string) then
    match out with
    | last :: before =>
        if bool_decide (last = ".."%string)
        then (if rooted then out else element :: out)
        else before
    | [] => if rooted then out else [element]
    end
  else element :: out.

Definition join_elements (l : list string) : string :=
  match l with
  | [] => ""
  | e :: rest => fold_left (fun s e' => s +:+ "/" +:+ e') rest e
  end.

(** [filepath.Clean], where the separator is "/". *)
Definition Clean (path : string) : string :=
  if bool_decide (path = ""%string) then "."
  else
    let rooted := String.prefix "/" path in
    let out := fold_left (cleanElement rooted) (elements path "") [] in
    let cleaned := (if rooted then "/" else "") +:+ join_elements (rev out) in
    if bool_decide (cleaned = ""%string) then "." else cleaned.

(** [filepath.Join(path, name)]: the elements that are not empty,
    separated and cleaned. *)
Definition Join (path name : string) : string :=
  if negb (bool_decide (path = ""%string)) then Clean (path +:+ "/" +:+ name)
  else if negb (bool_decide (name = ""%string)) then Clean name
  else "".

Section WithManager.
Context {M : Type} `{ObjectManager M}.

Definition UploadFile (u : uploader) (path : string) (src : Source) (mgr : M)
    : result * M :=
  match open_error src with
  | Some err =>
      ((content.NullObjectID, Some (ErrWrapped ("unable to open file " +:+ path) err)), mgr)
  | None =>
      let '(copied, _) := Copy src in
      match WriteObject mgr ("FILE:" +:+ path) "F" (FileObject copied) false with
      | ((_, Some err), mgr') => ((content.NullObjectID, Some err), mgr')
      | ((result, None), mgr') => ((result, None), mgr')
      end
  end.

(** The previous listing, read back when [previous] is not empty. *)
Definition readCached (mgr : M) (previous : content.ObjectID) : Listing :=
  if bool_decide (previous <> ""%string)
  then match Open mgr previous with
       | Ok r => match ReadDir r with
                 | Ok cached => cached
                 | Err _ => {| Entries := [] |}   (* a warning is logged *)
                 end
       | Err _ => {| Entries := [] |}
       end
  else {| Entries := [] |}.

(** The state of the loop over [listing.Entries]. *)
Record loopState : Type := {
  directoryMatchesCache : bool;
  uploaded : list Entry;      (* the entries so far, with their ids *)
  manager : M;
}.

(** The loop of [UploadDir]; [UploadDir'] is [UploadDir] on a
    subdirectory. *)
Fixpoint uploadEntries (UploadDir' : Node -> string -> content.ObjectID -> M -> result * M)
    (u : uploader) (path : string) (cached : Listing)
    (nodes : list Node) (st : loopState) : option error * loopState :=
  match nodes with
  | [] => (None, st)
  | n :: rest =>
      let e := entry_of n in
      let fullPath := Join path (Name e) in
      (* See if we had this name during previous pass. *)
      let cachedEntry := FindEntryName cached (Name e) in
      (* ... and whether file metadata is identical to the previous one. *)
      let cachedMetadataMatches := metadataEquals e cachedEntry in
      (* If not, directoryMatchesCache becomes false. *)
      let matches := directoryMatchesCache st && cachedMetadataMatches in
      if bool_decide (Type_ e = EntryTypeDirectory) then
        let previousSubdirObjectID :=
          match cachedEntry with
          | Some c => ObjectID c
          | None => ""%string
          end in
        match UploadDir' n fullPath previousSubdirObjectID (manager st) with
        | ((_, Some err), mgr') =>
            (Some err, {| directoryMatchesCache := matches;
                          uploaded := uploaded st; manager := mgr' |})
        | ((oid, None), mgr') =>
            let matches :=
              match cachedEntry with
              | Some c => if bool_decide (oid <> ObjectID c) then false else matches
              | None => matches
              end in
            uploadEntries UploadDir' u path cached rest
              {| directoryMatchesCache := matches;
                 uploaded := uploaded st ++ [with_ObjectID e oid];
                 manager := mgr' |}
        end
      else if cachedMetadataMatches then
        (* Avoid hashing by reusing previous object ID. *)
        uploadEntries UploadDir' u path cached rest
          {| directoryMatchesCache := matches;
             uploaded := uploaded st
               ++ [with_ObjectID e (match cachedEntry with
                                    | Some c => ObjectID c
                                    | None => ""%string
                                    end)];
             manager := manager st |}
      else
        match UploadFile u fullPath (node_source n) (manager st) with
        | ((_, Some err), mgr') =>
            (Some (ErrWrapped "unable to hash file" err),
             {| directoryMatchesCache := matches;
                uploaded := uploaded st; manager := mgr' |})
        | ((oid, None), mgr') =>
            uploadEntries UploadDir' u path cached rest
              {| directoryMatchesCache := matches;
                 uploaded := uploaded st ++ [with_ObjectID e oid];
                 manager := mgr' |}
        end
  end.

(** [UploadDir] on the node found at [path]. *)
Fixpoint UploadDir (u : uploader) (n : Node) (path : string)
    (previous : content.ObjectID) (mgr : M) {struct n} : result * M :=
  if isCancelled u then ((previous, Some ErrUploadCancelled), mgr)
  else
    match n with
    | MkNode _ _ _ (Err err) => ((content.NullObjectID, Some err), mgr)
    | MkNode _ _ _ (Ok nodes) =>
        let cached := readCached mgr previous in
        let start :=
          {| directoryMatchesCache :=
               bool_decide (length (Entries cached) = length nodes);
             uploaded := [];
             manager := mgr |} in
        match uploadEntries (UploadDir u) u path cached nodes start with
        | (Some err, st) => ((content.NullObjectID, Some err), manager st)
        | (None, st) =>
            if directoryMatchesCache st && bool_decide (previous <> ""%string)
            then ((previous, None), manager st)
            else
              (* return writer.Result(true) *)
              WriteObject (manager st) ("DIR:" +:+ path) "D"
                (WriteDir {| Entries := uploaded st |}) true
        end
    end.

End WithManager.

End dir.

(** ** Vocabulary for the vault's properties *)

Module vault_spec.
Import storage vault.

Definition is_aes (enc : string) : Prop :=
  enc = "aes-128"%string \/ enc = "aes-192"%string \/ enc = "aes-256"%string.

Definition key_size (enc : string) : nat :=
  if decide (enc = "aes-128"%string) then 16
  else if decide (enc = "aes-192"%string) then 24 else 32.

Section WithVault.
Context `{Env} {S : Type} `{storage.Storage S}.

(** The two subkeys derived from the master key and the unique id. *)
Definition cipher_key (v : Vault S) : bytes :=
  fst (deriveKey v purposeAESKey (key_size (Encryption (Format v)))).

Definition mac_key (v : Vault S) : bytes :=
  fst (deriveKey v purposeChecksumSecret 32).

(** AES in counter mode under [key] from the counter block [iv]. *)
Definition ctr_crypt (key iv data : bytes) : bytes :=
  CTR.xor_stream {| CTR.stream_block := {| AES.block_key := key |};
                    CTR.stream_iv := iv |} data.

(** IV || CTR(key, IV, plaintext) || HMAC(mac_key, IV || ciphertext). *)
Definition block_layout (v : Vault S) (iv plaintext : bytes) : bytes :=
  let body := ctr_crypt (cipher_key v) iv plaintext in
  iv ++ body ++ HMAC.sum (mac_key v) (iv ++ body).

(** What [decryptBlock] does with a block under an AES format, by cases
    on the block's length and on the tag comparison. *)
Definition decrypt_cases (v : Vault S) (content : bytes) : outcome bytes :=
  let n := length content in
  if (n <? 32)%nat then Panic "slice bounds out of range"
  else if negb (bool_decide (HMAC.sum (mac_key v) (take (n - 32) content)
                             = drop (n - 32) content))
    then Err ErrIncorrectChecksum
  else if (n <? 48)%nat then Panic "makeslice: len out of range"
  else Ok (ctr_crypt (cipher_key v) (take 16 content)
             (take (n - 48) (drop 16 content))).

(** [Open] once the variant has been chosen: what it does with the
    format block [prefix ++ "format"] and the configuration block
    [prefix ++ "repo"]. *)
Definition open_variant (vaultStorage : S) (vaultCreds : Credentials)
    (prefix : string) : outcome (Vault S) :=
  let f (name : string) := fst (GetBlock vaultStorage name) in
  obind (json (unmarshalFormat (default [] (f (prefix +:+ formatBlockID)))))
    (fun format =>
       let v := {| Storage := vaultStorage; Format := format; RepoConfig := None;
                   masterKey := getMasterKey vaultCreds (UniqueID format);
                   itemPrefix := prefix |} in
       obind (decryptBlock v (default [] (f (prefix +:+ repositoryConfigBlockID))))
         (fun cfgData =>
            obind (json (unmarshalRepositoryConfig cfgData))
              (fun rc =>
                 Ok {| Storage := vaultStorage; Format := format;
                       RepoConfig := Some {| Connection := fst rc;
                                             RepoFormat_ := snd rc |};
                       masterKey := masterKey v; itemPrefix := prefix |}))).

(** The same vault over another state of its store. *)
Definition with_storage (v : Vault S) (s : S) : Vault S :=
  {| Storage := s; Format := Format v; RepoConfig := RepoConfig v;
     masterKey := masterKey v; itemPrefix := itemPrefix v |}.
End WithVault.

(** Bit [n mod 8] of byte [n / 8] inverted. *)
Definition flip_bit (blk : bytes) (n : nat) : bytes :=
  alter (fun b => byte_xor b (zbyte (2 ^ Z.of_nat (n mod 8)))) (n / 8)%nat blk.

(** A decoder standing in for [encoding/json] in the examples: the format
    block holds the encryption name, the rest of the format is fixed. *)
Definition example_format (enc : string) : VaultFormat :=
  {| Version := "1"; UniqueID := repeat (zbyte 0x11) 32;
     Encryption := enc; Checksum := "hmac-sha-256" |}.

#[global] Instance example_env : Env := {|
  ConnectionInfo := string;
  RepoFormat := string;
  unmarshalFormat raw :=
    if decide (raw = []) then inl "unexpected end of JSON input"%string
    else inr (example_format (string_of_list_byte raw));
  unmarshalRepositoryConfig raw :=
    if decide (raw = []) then inl "unexpected end of JSON input"%string
    else inr (None, Some (string_of_list_byte raw));
|}.

Definition example_vault (enc : string) (store : gmap string bytes)
    : Vault (gmap string bytes) :=
  {| Storage := store; Format := example_format enc; RepoConfig := None;
     masterKey := repeat x00 32; itemPrefix := "" |}.

Definition example_entropy : bytes := map (fun i => zbyte (Z.of_nat (7 * i + 1))) (seq 0 16).

Definition hello : bytes := bytes_of_string "hello".

Definition aes256 : Vault (gmap string bytes) := example_vault "aes-256" ∅.

(** A colocated vault without encryption, with one item. *)
Definition colocated_store : gmap string bytes :=
  {[ "VLTformat"%string := bytes_of_string "none";
     "VLTrepo"%string := bytes_of_string "config";
     "VLTalpha"%string := bytes_of_string "data" ]}.

(** The same store with the blocks of a dedicated vault besides. *)
Definition both_store : gmap string bytes :=
  <[ "format"%string := bytes_of_string "none" ]>
    (<[ "repo"%string := bytes_of_string "other" ]> colocated_store).

Definition example_credentials : Credentials :=
  {| getMasterKey := fun _ => replicate 32 x00 |}.

(** A store whose item "alpha" and whose configuration block are too
    short to hold a tag. *)
Definition short_store : gmap string bytes :=
  {[ "format"%string := bytes_of_string "aes-256";
     "repo"%string := replicate 20 x00;
     "alpha"%string := replicate 31 x00 ]}.

End vault_spec.

(** ** Vocabulary for the ignore engine's properties *)

Module ignore_spec.
Import ignorefs.

(** The same context below another parent. *)
Definition with_parent (c : ignoreContext) (p : option ignoreContext) : ignoreContext :=
  IgnoreContext p (policyGetter c) (onIgnore c) (dotIgnoreFiles c) (matchers c)
    (maxFileSize c).

(** The same directory listed under another context. *)
Definition under (d : ignoreDirectory) (c : ignoreContext) : ignoreDirectory :=
  {| relativePath := relativePath d; parentContext := c;
     dir_name := dir_name d; dir_size := dir_size d; dir_listing := dir_listing d |}.

(** The same policy with the flag [NoParentIgnoreRules] set to [b]. *)
Definition with_NoParentIgnoreRules (p : FilesPolicy) (b : bool) : FilesPolicy :=
  {| IgnoreRules := IgnoreRules p; DotIgnoreFiles := DotIgnoreFiles p;
     MaxFileSize := MaxFileSize p; NoParentIgnoreRules := b;
     NoParentDotIgnoreFiles := NoParentDotIgnoreFiles p |}.

(** The entry behind what [Readdir] kept. *)
Definition underlying (k : Kept) : Entry :=
  match k with
  | Plain e => e
  | Wrapped d => Directory (dir_name d) (dir_size d) (dir_listing d)
  end.

(** What a client sees that lists a directory and then, to the depth
    [depth], every directory it was given: the entries admitted with their
    paths, the listings that failed, and the callbacks called, in the order
    of the traversal. *)
Inductive Seen : Type :=
| Passed (path : string) (e : Entry)
| Failed (path : string) (result : outcome unit)
| Reported (c : Call).

Definition visit (below : ignoreDirectory -> list Seen) (d : ignoreDirectory)
    (k : Kept) : list Seen :=
  match k with
  | Plain e => [Passed (relativePath d +:+ "/" +:+ Name e) e]
  | Wrapped d' => Passed (relativePath d') (underlying k) :: below d'
  end.

Definition seen (below : ignoreDirectory -> list Seen) (d : ignoreDirectory)
    (r : list Kept * list Call) : list Seen :=
  map Reported (snd r) ++ flat_map (visit below d) (fst r).

Fixpoint walk `{GitIgnore} (depth : nat) (d : ignoreDirectory) : list Seen :=
  let below :=
    match depth with
    | O => fun _ => []
    | Datatypes.S depth' => walk depth'
    end in
  match Readdir d with
  | (Ok kept, calls) => seen below d (kept, calls)
  | (Err err, calls) => map Reported calls ++ [Failed (relativePath d) (Err err)]
  | (Panic msg, calls) => map Reported calls ++ [Failed (relativePath d) (Panic msg)]
  end.

Definition below `{GitIgnore} (depth : nat) : ignoreDirectory -> list Seen :=
  match depth with
  | O => fun _ => []
  | Datatypes.S depth' => walk depth'
  end.

(** What the client sees of [d] and below when the entries of [d] are
    filtered under the context [c]. *)
Definition seen_under `{GitIgnore} (depth : nat) (d : ignoreDirectory)
    (c : ignoreContext) (entries : list Entry) : list Seen :=
  seen (below depth) d (filterEntries d c entries).

(** Two contexts that filter alike and hand the same settings down. *)
Record same_filter (c1 c2 : ignoreContext) : Prop := {
  sf_include : forall path e, shouldIncludeByName c1 path e = shouldIncludeByName c2 path e;
  sf_getter : policyGetter c1 = policyGetter c2;
  sf_onIgnore : onIgnore c1 = onIgnore c2;
  sf_dotIgnoreFiles : dotIgnoreFiles c1 = dotIgnoreFiles c2;
  sf_maxFileSize : maxFileSize c1 = maxFileSize c2;
}.

(** A stand-in for [internal/ignore], which is not among the sources, used
    by the examples only: it knows the rules ["*" ++ suffix], matching below
    the base directory every path whose last component ends with the
    suffix, and the rules without wild card, matching every path below the
    base directory whose last component is the rule. *)
Fixpoint last_component (path : list ascii) (acc : list ascii) : list ascii :=
  match path with
  | [] => acc
  | a :: rest => if Ascii.eqb a "/" then last_component rest [] else last_component rest (acc ++ [a])
  end.

Definition ends_with (suffix s : list ascii) : bool :=
  bool_decide (drop (length s - length suffix) s = suffix).

Definition example_gitignore : GitIgnore := {|
  ParseGitIgnore baseDir pattern :=
    inr (fun (path : string) (_ : bool) =>
           String.prefix (baseDir +:+ "/") path
           && match pattern with
              | String "*" suffix =>
                  ends_with (list_ascii_of_string suffix)
                    (last_component (list_ascii_of_string path) [])
              | _ => bool_decide (last_component (list_ascii_of_string path) []
                                  = list_ascii_of_string pattern)
              end);
  (* the paths of the examples are printable and hold neither a quote
     nor a backslash *)
  Quote s := String (ascii_of_nat 34) s +:+ String (ascii_of_nat 34) ""
|}.

(** A tree whose root policy ignores "*.log" and whose directory "sub"
    has a policy that sets [NoParentIgnoreRules]. *)
Definition keep_txt : Entry := File "keep.txt" 10 (Ok []).
Definition drop_log : Entry := File "drop.log" 10 (Ok []).
Definition sub_listing : outcome (list Entry) := Ok [keep_txt; drop_log].

Definition example_policies : gmap string FilesPolicy :=
  {[ "."%string := {| IgnoreRules := ["*.log"%string];
                      DotIgnoreFiles := [".kopiaignore"%string];
                      MaxFileSize := 0; NoParentIgnoreRules := false;
                      NoParentDotIgnoreFiles := false |};
     "./sub"%string := {| IgnoreRules := []; DotIgnoreFiles := [];
                          MaxFileSize := 0; NoParentIgnoreRules := true;
                          NoParentDotIgnoreFiles := false |} ]}.

Definition example_root : ignoreDirectory :=
  New "root" 0 (Ok [Directory "plain" 0 sub_listing; Directory "sub" 0 sub_listing])
    (Some (FilesPolicyMap example_policies)) [Some 1%nat].

(** The context [Readdir] builds for the root, and the wrapper it returns
    for "sub". *)
Definition example_root_context : ignoreContext :=
  {| parent := Some (parentContext example_root);
     policyGetter := FilesPolicyMap example_policies;
     onIgnore := [1%nat];
     dotIgnoreFiles := [".kopiaignore"%string];
     matchers := match ParseGitIgnore (GitIgnore := example_gitignore) "." "*.log" with
                 | inr m => [m]
                 | inl _ => []
                 end;
     maxFileSize := 0 |}.

Definition example_sub : ignoreDirectory :=
  {| relativePath := "./sub"; parentContext := example_root_context;
     dir_name := "sub"; dir_size := 0; dir_listing := sub_listing |}.

(** A directory "plain" with neither policy nor dotfile below the root's
    context. *)
Definition example_plain : ignoreDirectory :=
  {| relativePath := "./plain"; parentContext := example_root_context;
     dir_name := "plain"; dir_size := 0; dir_listing := sub_listing |}.

(** A directory "a" holding an ignore file and a directory "b"; the root
    policy names the ignore file. *)
Definition example_a : ignoreDirectory :=
  New "a" 0
    (Ok [ File ".kopiaignore" 16 (Ok ["*.log"; "# comment"; "  "]%string);
          Directory "b" 0 sub_listing ])
    (Some (FilesPolicyMap
             {[ "."%string := {| IgnoreRules := [];
                                 DotIgnoreFiles := [".kopiaignore"%string];
                                 MaxFileSize := 0; NoParentIgnoreRules := false;
                                 NoParentDotIgnoreFiles := false |} ]}))
    [Some 7%nat].

End ignore_spec.

(** ** Vocabulary for the uploader's properties *)

Module upload_spec.
Import dir.

(** What the uploader relies on from a content-addressed object manager:
    a written object has a non-empty id, can be opened again under it, and
    writing leaves every object that could be opened as it was. *)
Class ObjectManagerLaws (M : Type) `{ObjectManager M} : Prop := {
  written_not_null : forall (m m' : M) desc prefix o finalize oid,
    WriteObject m desc prefix o finalize = ((oid, None), m') -> oid <> ""%string;
  written_opens : forall (m m' : M) desc prefix o finalize oid,
    WriteObject m desc prefix o finalize = ((oid, None), m') -> Open m' oid = Ok o;
  write_preserves : forall (m : M) desc prefix o finalize oid' o',
    Open m oid' = Ok o' ->
    Open (snd (WriteObject m desc prefix o finalize)) oid' = Ok o';
}.

(** Every object that can be opened in [m] can be opened in [m']. *)
Definition extends {M} `{ObjectManager M} (m m' : M) : Prop :=
  forall oid o, Open m oid = Ok o -> Open m' oid = Ok o.

(** The relation between a node and its entry in a stored listing. *)
Definition entry_for
    (stored_at : Node -> content.ObjectID -> Prop) (n' : Node) (e' : Entry) : Prop :=
  e' = with_ObjectID (entry_of n') (ObjectID e')
  /\ (Type_ (entry_of n') = EntryTypeDirectory -> stored_at n' (ObjectID e')).

Fixpoint all1 {A} (P : A -> Prop) (l : list A) : Prop :=
  match l with
  | [] => True
  | a :: l' => P a /\ all1 P l'
  end.

Fixpoint all2 {A B} (R : A -> B -> Prop) (l1 : list A) (l2 : list B) : Prop :=
  match l1, l2 with
  | [], [] => True
  | a :: l1', b :: l2' => R a b /\ all2 R l1' l2'
  | _, _ => False
  end.

(** No two entries of a directory have the same name, in the tree below
    [n]. *)
Fixpoint well_named (n : Node) : Prop :=
  match n with
  | MkNode _ _ _ (Ok nodes) =>
      NoDup (map (fun n' => Name (entry_of n')) nodes) /\ all1 well_named nodes
  | MkNode _ _ _ _ => True
  end.

(** The directory [n] is stored under [oid]: the object behind [oid] is a
    listing with one entry per node of [n], each being the lister's entry
    with an object id, and the directories among them are stored under
    theirs. *)
Fixpoint stored {M} `{ObjectManager M} (m : M) (n : Node) (oid : content.ObjectID)
    {struct n} : Prop :=
  match n with
  | MkNode _ _ _ (Ok nodes) =>
      oid <> ""%string
      /\ exists es,
          Open m oid = Ok (DirObject {| Entries := es |})
          /\ all2 (entry_for (fun n' oid' => stored m n' oid')) nodes es
  | MkNode _ _ _ _ => False
  end.

(** The start of the loop of [UploadDir]. *)
Definition loop_start {M} `{ObjectManager M} (mgr : M) (previous : content.ObjectID)
    (nodes : list Node) : loopState :=
  {| directoryMatchesCache :=
       bool_decide (length (Entries (readCached mgr previous)) = length nodes);
     uploaded := [];
     manager := mgr |}.

(** *** An object manager in memory

    Objects are kept under the block name prefix followed by the SHA-256
    of their bytes in hexadecimal; a write whose id is taken by another
    object is refused.  Every call of [WriteObject] is logged with its
    description. *)
#[global] Instance Entry_eq_dec : EqDecision Entry.
Proof. solve_decision. Defined.
#[global] Instance Listing_eq_dec : EqDecision Listing.
Proof. solve_decision. Defined.
#[global] Instance Object_eq_dec : EqDecision Object.
Proof. solve_decision. Defined.

Definition tag_of (t : EntryType) : string :=
  match t with
  | EntryTypeFile => "f" | EntryTypeDirectory => "d"
  | EntryTypeSymlink => "s" | EntryTypeOther => "o"
  end.

Definition entry_bytes (e : Entry) : bytes :=
  bytes_of_string (tag_of (Type_ e)) ++ bytes_of_string (Name e) ++ [x00]
    ++ SHA256.be64 (Size e) ++ SHA256.be64 (Mode e) ++ SHA256.be64 (ModTime e)
    ++ SHA256.be64 (fst (Owner e)) ++ SHA256.be64 (snd (Owner e))
    ++ bytes_of_string (ObjectID e) ++ [x00].

Definition object_bytes (o : Object) : bytes :=
  match o with
  | FileObject data => data
  | DirObject l => flat_map entry_bytes (Entries l)
  end.

Record MemManager : Type := {
  objects : gmap string Object;
  written : list string;
}.

Definition object_id (prefix : string) (o : Object) : content.ObjectID :=
  prefix +:+ hex (SHA256.sum (object_bytes o)).

#[global] Instance mem_manager : ObjectManager MemManager := {|
  WriteObject m desc prefix o finalize :=
    let oid := object_id prefix o in
    let m' := {| objects := <[oid := o]> (objects m); written := written m ++ [desc] |} in
    match objects m !! oid with
    | Some o' =>
        if decide (o' = o) then ((oid, None), m')
        else ((content.NullObjectID, Some (ErrExternal "object id taken")),
              {| objects := objects m; written := written m ++ [desc] |})
    | None => ((oid, None), m')
    end;
  Open m oid :=
    match objects m !! oid with
    | Some o => Ok o
    | None => Err (ErrExternal "object not found")
    end;
|}.

Definition empty_manager : MemManager := {| objects := ∅; written := [] |}.

(** *** A small tree: two files and a directory holding a third *)
Definition no_listing : returned (list Node) := Err (ErrExternal "not a directory").

Definition file_node (name : string) (size mtime : Z) (text : string) : Node :=
  MkNode EntryTypeFile
    {| md_name := name; md_size := size; md_mode := 420; md_mtime := mtime;
       md_owner := (1000, 1000) |}
    {| open_error := None; file_bytes := bytes_of_string text; failure := None |}
    no_listing.

Definition dir_node (name : string) (mtime : Z) (nodes : list Node) : Node :=
  MkNode EntryTypeDirectory
    {| md_name := name; md_size := 0; md_mode := 493; md_mtime := mtime;
       md_owner := (1000, 1000) |}
    {| open_error := None; file_bytes := [];
       failure := Some (0%nat, ErrExternal "is a directory") |}
    (Ok nodes).

Definition example_tree : Node :=
  dir_node "root" 5
    [ file_node "file1" 5 1 "hello";
      dir_node "sub" 4 [ file_node "inner" 3 2 "abc" ];
      file_node "file2" 6 3 "kopia!" ].

(** The same tree after the modification time of "file2" has changed. *)
Definition touched_tree : Node :=
  dir_node "root" 5
    [ file_node "file1" 5 1 "hello";
      dir_node "sub" 4 [ file_node "inner" 3 2 "abc" ];
      file_node "file2" 6 9 "kopia!" ].

Definition example_uploader : uploader := {| cancelled := 0 |}.

(** A file of eleven bytes whose reading fails after five. *)
Definition failing_source : Source :=
  {| open_error := None; file_bytes := bytes_of_string "hello world";
     failure := Some (5%nat, ErrExternal "input/output error") |}.

End upload_spec.

(** ** [vault/vault.go]: JSON items, configuration and creation *)

Module vault_create.
Import storage vault.

(** [encoding/json] in the writing direction, on the two persisted
    structures. *)
Class Marshal `{Env} : Type := {
  marshalFormat : VaultFormat -> string + bytes;
  marshalRepositoryConfig : RepositoryConfig -> string + bytes;
}.

(** The type assertion [s.(storage.ConnectionInfoProvider)] on a store of
    type [S]: [None] when the store's type does not implement the
    interface, otherwise its [ConnectionInfo] method. *)
Class ConnectionInfoProvider `{Env} (S : Type) : Type := {
  provider : option (S -> ConnectionInfo);
}.

(** The [repoStorage] argument of [Create]: [nil], the very store given as
    [vaultStorage], or another store; [Create] asks the latter for its
    connection info only ([None]: it is no [ConnectionInfoProvider]). *)
Inductive RepoStorage `{Env} : Type :=
| RepoNil
| RepoVaultStorage
| RepoOther (cip : option ConnectionInfo).

Record Config `{Env} : Type := {
  Config_ConnectionInfo : ConnectionInfo;
  Key : bytes;
}.

Definition errNoConfiguration : error :=
  ErrExternal "repository does not support persisting configuration".

Section WithVault.
Context `{Marshal} {S : Type} `{storage.Storage S} `{!ConnectionInfoProvider S}.

Definition getJSON {A} (unmarshal : bytes -> string + A) (v : Vault S)
    (itemID : string) : outcome A :=
  let! j := readEncryptedBlock v itemID in
  json (unmarshal j).

Definition putJSON {A} (marshal : A -> string + bytes) (v : Vault S)
    (entropy : bytes) (id : string) (content : A) : outcome unit * S :=
  match json (marshal content) with
  | Ok j => writeEncryptedBlock v entropy id j
  | Err e => (Err e, Storage v)
  | Panic m => (Panic m, Storage v)
  end.

(** [Config] returns a configuration of vault storage and its
    credentials. *)
Definition Config_of (v : Vault S) : outcome Config :=
  match provider with
  | None => Err errNoConfiguration
  | Some cip =>
      let ci := cip (Storage v) in
      Ok {| Config_ConnectionInfo := ci; Key := masterKey v |}
  end.

(** [Create] initializes a vault attached to the specified repository.
    Besides the result it returns the vault store as the call leaves
    it.  [entropy] is what [rand.Reader] can deliver: the unique id is
    read first, the IV of the configuration block after it. *)
Definition Create (vaultStorage : S) (vaultFormat : option VaultFormat)
    (vaultCreds : Credentials) (repoStorage : RepoStorage)
    (repoFormat : option RepoFormat) (entropy : bytes)
    : outcome (Vault S) * S :=
  match vaultFormat with
  | None => (Panic "invalid memory address or nil pointer dereference", vaultStorage)
  | Some format =>
      let prefix : string :=
        match repoStorage with
        | RepoNil => colocatedVaultItemPrefix
        | _ => ""
        end in
      let cip : option ConnectionInfo :=
        match repoStorage with
        | RepoOther cip => cip
        | _ => option_map (fun f => f vaultStorage) provider
        end in
      match cip with
      | None => (Err errNoConfiguration, vaultStorage)
      | Some ci =>
          match ReadFull entropy 32 with
          | Err e => (Err e, vaultStorage)
          | Panic m => (Panic m, vaultStorage)
          | Ok uniqueID =>
              let format := {| Version := "1"; UniqueID := uniqueID;
                               Encryption := Encryption format;
                               Checksum := Checksum format |} in
              let key := getMasterKey vaultCreds uniqueID in
              match json (marshalFormat format) with
              | Err e => (Err e, vaultStorage)
              | Panic m => (Panic m, vaultStorage)
              | Ok formatBytes =>
                  let '(s, e) :=
                    PutBlock vaultStorage (prefix +:+ formatBlockID) formatBytes in
                  match e with
                  | Some err => (Err err, s)
                  | None =>
                      (* Write encrypted repository configuration block. *)
                      let rc := {| Connection :=
                                     match repoStorage with
                                     | RepoOther _ => Some ci
                                     | _ => None
                                     end;
                                   RepoFormat_ := repoFormat |} in
                      let v := {| Storage := s; Format := format; RepoConfig := None;
                                  masterKey := key; itemPrefix := prefix |} in
                      match putJSON marshalRepositoryConfig v (drop 32 entropy)
                              repositoryConfigBlockID rc with
                      | (Ok _, s') =>
                          (Ok {| Storage := s'; Format := format;
                                 RepoConfig := Some rc;
                                 masterKey := key; itemPrefix := prefix |}, s')
                      | (Err e, s') => (Err e, s')
                      | (Panic m, s') => (Panic m, s')
                      end
                  end
              end
          end
      end
  end.

(** [CreateColocated] initializes a vault attached to a repository
    sharing the same storage. *)
Definition CreateColocated (sharedStorage : S) (vaultFormat : option VaultFormat)
    (vaultCreds : Credentials) (repoFormat : option RepoFormat) (entropy : bytes)
    : outcome (Vault S) * S :=
  Create sharedStorage vaultFormat vaultCreds RepoNil repoFormat entropy.

End WithVault.

End vault_create.

(** ** Vocabulary for the properties of vault items and of creation *)

Module vault_items_spec.
Import storage vault vault_spec vault_create.

(** A store whose writes succeed and are read back, and that loses a block
    only by deleting it. *)
Class ReliableStorage (S : Type) `{storage.Storage S} : Prop := {
  put_succeeds : forall (s : S) k b, snd (PutBlock s k b) = None;
  get_put : forall (s : S) k b, GetBlock (fst (PutBlock s k b)) k = (Some b, None);
  get_put_other : forall (s : S) k k' b,
    k <> k' -> GetBlock (fst (PutBlock s k b)) k' = GetBlock s k';
  get_delete : forall (s : S) k,
    snd (DeleteBlock s k) = None ->
    GetBlock (fst (DeleteBlock s k)) k = (None, Some ErrBlockNotFound);
  get_delete_other : forall (s : S) k k',
    k <> k' -> GetBlock (fst (DeleteBlock s k)) k' = GetBlock s k';
}.

(** The encryption names [newCipher] knows. *)
Definition supported (enc : string) : Prop := enc = "none"%string \/ is_aes enc.

(** The format [Create] persists: the caller's algorithms, version "1" and
    a fresh unique id. *)
Definition created_format (format : VaultFormat) (uniqueID : bytes) : VaultFormat :=
  {| Version := "1"; UniqueID := uniqueID;
     Encryption := Encryption format; Checksum := Checksum format |}.

Section Created.
Context `{Env} {S : Type} `{!ConnectionInfoProvider S}.

(** What [Create] decides from its [repoStorage] argument: the item
    prefix, whether the type assertion succeeds, and the configuration
    it persists. *)
Definition created_prefix (repo : RepoStorage) : string :=
  match repo with
  | RepoNil => "VLT"
  | _ => ""
  end.

Definition has_provider (st : S) (repo : RepoStorage) : Prop :=
  is_Some (match repo with
           | RepoOther cip => cip
           | _ => option_map (fun f => f st) provider
           end).

Definition created_config (repo : RepoStorage) (repoFormat : option RepoFormat)
    : RepositoryConfig :=
  {| Connection := match repo with RepoOther cip => cip | _ => None end;
     RepoFormat_ := repoFormat |}.

(** The vault [Create] builds over the store [s]. *)
Definition created_vault (s : S) (format : VaultFormat) (creds : Credentials)
    (repo : RepoStorage) (entropy : bytes) (rc : option RepositoryConfig) : Vault S :=
  {| Storage := s;
     Format := created_format format (take 32 entropy);
     RepoConfig := rc;
     masterKey := getMasterKey creds (take 32 entropy);
     itemPrefix := created_prefix repo |}.
End Created.

(** An encoding standing in for [encoding/json] in the examples of
    creation: the fields one after the other, each text field closed by a
    zero byte, the unique id last. *)
Definition field (s : string) : bytes := bytes_of_string s ++ [x00].

Fixpoint read_field (raw : bytes) : bytes * bytes :=
  match raw with
  | [] => ([], [])
  | b :: rest =>
      if bool_decide (b = x00) then ([], rest)
      else let '(f, r) := read_field rest in (b :: f, r)
  end.

Definition optional_field (o : option string) : bytes :=
  match o with
  | None => [x00]
  | Some s => x01 :: field s
  end.

Definition read_optional_field (raw : bytes) : option string * bytes :=
  match raw with
  | [] => (None, [])
  | b :: rest =>
      if bool_decide (b = x00) then (None, rest)
      else let '(f, r) := read_field rest in (Some (string_of_list_byte f), r)
  end.

Definition codec_env : Env := {|
  ConnectionInfo := string;
  RepoFormat := string;
  unmarshalFormat raw :=
    if decide (raw = []) then inl "unexpected end of JSON input"%string
    else
      let '(version, raw) := read_field raw in
      let '(encryption, raw) := read_field raw in
      let '(checksum, raw) := read_field raw in
      inr {| Version := string_of_list_byte version; UniqueID := raw;
             Encryption := string_of_list_byte encryption;
             Checksum := string_of_list_byte checksum |};
  unmarshalRepositoryConfig raw :=
    if decide (raw = []) then inl "unexpected end of JSON input"%string
    else
      let '(connection, raw) := read_optional_field raw in
      let '(format, _) := read_optional_field raw in
      inr (connection, format);
|}.

Definition codec_marshal : @Marshal codec_env := {|
  marshalFormat f :=
    inr (field (Version f) ++ field (Encryption f) ++ field (Checksum f) ++ UniqueID f);
  marshalRepositoryConfig rc :=
    inr (optional_field (@Connection codec_env rc)
         ++ optional_field (@RepoFormat_ codec_env rc));
|}.

(** A store type that gives its connection info. *)
Definition mem_provider : @ConnectionInfoProvider codec_env (gmap string bytes) :=
  {| provider := Some (fun _ : gmap string bytes => "memory"%string : @ConnectionInfo codec_env) |}.

(** A store type that does not. *)
Definition no_provider : @ConnectionInfoProvider codec_env (gmap string bytes) :=
  {| provider := None |}.

Definition aes256_format : VaultFormat :=
  {| Version := ""; UniqueID := []; Encryption := "aes-256"; Checksum := "hmac-sha-256" |}.

Definition plain_format : VaultFormat :=
  {| Version := ""; UniqueID := []; Encryption := "none"; Checksum := "" |}.

Definition long_entropy : bytes := map (fun i => zbyte (Z.of_nat (5 * i + 3))) (seq 0 48).

(** A store that only lists: the channel of [ListBlocks] delivers the
    given blocks, some of which may carry an error. *)
Definition listing_storage : storage.Storage (list BlockMetadata) := {|
  GetBlock _ _ := (None, Some ErrBlockNotFound);
  PutBlock s _ _ := (s, None);
  DeleteBlock s _ := (s, None);
  ListBlocks s _ := s;
|}.

Definition broken_listing : list BlockMetadata :=
  [ {| BlockID := "VLTalpha"; Error := None |};
    {| BlockID := "VLTformat"; Error := None |};
    {| BlockID := "VLTbeta"; Error := None |};
    {| BlockID := ""; Error := Some (ErrExternal "connection reset") |};
    {| BlockID := "VLTgamma"; Error := None |} ].

Definition listing_vault : Vault (list BlockMetadata) :=
  {| Storage := broken_listing; Format := example_format "none"; RepoConfig := None;
     masterKey := []; itemPrefix := "VLT" |}.

(** The vault [Open] returns for [colocated_store]. *)
Definition opened_colocated : Vault (gmap string bytes) :=
  {| Storage := colocated_store; Format := example_format "none";
     RepoConfig := Some {| Connection := None; RepoFormat_ := Some "config"%string |};
     masterKey := replicate 32 x00; itemPrefix := "VLT" |}.

(** A vault whose format names algorithms [vault.go] does not know. *)
Definition odd_vault (enc chk : string) : Vault (gmap string bytes) :=
  {| Storage := {[ "alpha"%string := bytes_of_string "data" ]};
     Format := {| Version := "1"; UniqueID := repeat (zbyte 0x11) 32;
                  Encryption := enc; Checksum := chk |};
     RepoConfig := None; masterKey := repeat x00 32; itemPrefix := "" |}.

End vault_items_spec.

(** ** Vocabulary for further properties of the ignore engine *)

Module ignore_rules_spec.
Import ignorefs ignore_spec.

(** The elements of a list in the order of their first occurrence. *)
Fixpoint first_occurrences (l : list string) : list string :=
  match l with
  | [] => []
  | x :: rest => x :: filter (fun y => y <> x) (first_occurrences rest)
  end.

(** One round of the inner loop of [combineAndDedupe]. *)
Definition add_new (result : list string) (it : string) : list string :=
  if bool_decide (it ∈ result) then result else result ++ [it].

(** The lines of an ignore file that are rules: neither a comment nor
    blank. *)
Definition rule_line (line : string) : bool :=
  negb (String.prefix "#" line) && negb (blank line).

(** A line that holds a no-break space, U+00A0, in its UTF-8
    encoding. *)
Definition no_break_space : string :=
  String (ascii_of_nat 194) (String (ascii_of_nat 160) "").

(** A context followed by its ancestors, nearest first. *)
Fixpoint chain (c : ignoreContext) : list ignoreContext :=
  c :: match parent c with
       | None => []
       | Some p => chain p
       end.

(** Some rule of the context itself matches the path. *)
Definition rejects (path : string) (e : Entry) (c : ignoreContext) : bool :=
  existsb (fun m : Matcher => m path (IsDir e)) (matchers c).

(** The path [Readdir] gives an entry of the directory. *)
Definition entry_path (d : ignoreDirectory) (e : Entry) : string :=
  relativePath d +:+ "/" +:+ Name e.

(** The two tests of [Readdir]'s loop. *)
Definition passes_rules (d : ignoreDirectory) (c : ignoreContext) (e : Entry) : bool :=
  forallb (fun a => negb (rejects (entry_path d e) e a)) (chain c).

Definition within_size (c : ignoreContext) (e : Entry) : bool :=
  negb ((0 <? maxFileSize c) && (maxFileSize c <? Size e)).

Definition report (path : string) (e : Entry) (c : ignoreContext) : list Call :=
  map (fun oi => {| callee := oi; call_path := path; call_entry := e |}) (onIgnore c).

(** The callbacks [shouldIncludeByName] calls: those of the nearest
    context that has a matching rule. *)
Fixpoint reports (path : string) (e : Entry) (cs : list ignoreContext) : list Call :=
  match cs with
  | [] => []
  | c :: rest => if rejects path e c then report path e c else reports path e rest
  end.

(** Everything in a tree down to [depth] levels below the listing, as a
    client of the unfiltered directory sees it. *)
Fixpoint list_all (depth : nat) (path : string) (listing : outcome (list Entry))
    : list Seen :=
  match listing with
  | Ok entries =>
      flat_map
        (fun e =>
           Passed (path +:+ "/" +:+ Name e) e
           :: match e, depth with
              | Directory _ _ sub, Datatypes.S depth' =>
                  list_all depth' (path +:+ "/" +:+ Name e) sub
              | _, _ => []
              end)
        entries
  | Err err => [Failed path (Err err)]
  | Panic msg => [Failed path (Panic msg)]
  end.

(** A context that has no rule, looks for no ignore file, sets no size
    limit, and whose policy getter knows no policy. *)
Definition transparent (c : ignoreContext) : Prop :=
  parent c = None /\ matchers c = [] /\ dotIgnoreFiles c = []
  /\ maxFileSize c <= 0 /\ forall p, policyGetter c p = Ok None.

(** What [Readdir] hands out for the entries of [d] kept under [c]:
    directories come wrapped, with their path and with [c] as their
    parent context; nothing else is a directory. *)
Definition handed_out (d : ignoreDirectory) (c : ignoreContext) (k : Kept) : Prop :=
  match k with
  | Wrapped d' =>
      parentContext d' = c
      /\ relativePath d' = (relativePath d +:+ "/" +:+ dir_name d')%string
  | Plain e => IsDir e = false
  end.

(** A tree with an ignore file that no policy names. *)
Definition unnamed_ignore_file : outcome (list Entry) :=
  Ok [ File ".kopiaignore" 6 (Ok ["*.log"%string]);
       drop_log;
       Directory "sub" 0 sub_listing ].

(** A directory whose policy limits the size of entries to 100 bytes and
    ignores "*.log". *)
Definition sized_entries : list Entry :=
  [ File "small.txt" 100 (Ok []); File "big.txt" 101 (Ok []);
    Directory "bigdir" 4096 (Ok []); File "big.log" 500 (Ok []) ].

Definition sized_root : ignoreDirectory :=
  New "root" 0 (Ok sized_entries)
    (Some (FilesPolicyMap
             {[ "."%string := {| IgnoreRules := ["*.log"%string]; DotIgnoreFiles := [];
                                 MaxFileSize := 100; NoParentIgnoreRules := false;
                                 NoParentDotIgnoreFiles := false |} ]}))
    [Some 3%nat].

(** A directory whose policy names its ignore files, below a context
    that looks for ".parentignore". *)
Definition dotfile_policy (flag : bool) : FilesPolicy :=
  {| IgnoreRules := [];
     DotIgnoreFiles := [".kopiaignore"; ".gitignore"; ".kopiaignore"]%string;
     MaxFileSize := 0; NoParentIgnoreRules := false; NoParentDotIgnoreFiles := flag |}.

Definition dotfile_directory (flag : bool) : ignoreDirectory :=
  {| relativePath := "./d";
     parentContext := {| parent := None;
                         policyGetter := FilesPolicyMap {[ "./d"%string := dotfile_policy flag ]};
                         onIgnore := [];
                         dotIgnoreFiles := [".parentignore"%string];
                         matchers := [];
                         maxFileSize := 0 |};
     dir_name := "d"; dir_size := 0; dir_listing := Ok [] |}.

End ignore_rules_spec.

(** ** The uploader: creation and cancellation *)

Module dir_cancel.
Import dir.

(** [Cancel] stores 1 in the flag. *)
Definition Cancel (u : uploader) : uploader := {| cancelled := 1 |}.

(** [NewUploader] creates a new uploader: the flag has its zero value. *)
Definition NewUploader : uploader * option error := ({| cancelled := 0 |}, None).

End dir_cancel.

(** ** Vocabulary for further properties of the uploader *)

Module upload_cache_spec.
Import dir upload_spec.

(** Two trees of the same shape whose nodes agree on type and metadata;
    what their files hold may differ. *)
Fixpoint same_metadata (n n' : Node) {struct n} : Prop :=
  match n, n' with
  | MkNode kind md _ listing, MkNode kind' md' _ listing' =>
      kind = kind' /\ md = md'
      /\ match listing, listing' with
         | Ok nodes, Ok nodes' => all2 same_metadata nodes nodes'
         | Ok _, _ | _, Ok _ => False
         | _, _ => True
         end
  end.

(** [example_tree] after "file1" has been rewritten in place: other
    bytes, same size and modification time. *)
Definition rewritten_tree : Node :=
  dir_node "root" 5
    [ file_node "file1" 5 1 "HELLO";
      dir_node "sub" 4 [ file_node "inner" 3 2 "abc" ];
      file_node "file2" 6 3 "kopia!" ].

(** [example_tree] after "file2" has been deleted; the names that are
    left have the metadata they had. *)
Definition shrunk_tree : Node :=
  dir_node "root" 5
    [ file_node "file1" 5 1 "hello";
      dir_node "sub" 4 [ file_node "inner" 3 2 "abc" ] ].

(** A tree whose directory "sub" cannot be listed. *)
Definition broken_tree : Node :=
  dir_node "root" 5
    [ file_node "file1" 5 1 "hello";
      MkNode EntryTypeDirectory
        {| md_name := "sub"; md_size := 0; md_mode := 493; md_mtime := 4;
           md_owner := (1000, 1000) |}
        {| open_error := None; file_bytes := []; failure := None |}
        (Err (ErrExternal "permission denied")) ].

(** An object manager that takes files and refuses directories: the
    writer of a directory object gives the id it has computed together
    with its error. *)
Definition files_only : ObjectManager MemManager := {|
  WriteObject m desc prefix o finalize :=
    match o with
    | FileObject _ => WriteObject (ObjectManager := mem_manager) m desc prefix o finalize
    | DirObject _ =>
        ((object_id prefix o, Some (ErrExternal "no space left on device")),
         {| objects := objects m; written := written m ++ [desc] |})
    end;
  Open := Open (ObjectManager := mem_manager);
|}.

End upload_cache_spec.

(** ** [cli/command_object_verify.go] *)

Module cli.

(** A directory entry as the verifier reads it: its metadata ([Name],
    [FileMode().IsDir()], [FileSize]), its object id, and what
    [mgr.DirectoryEntry(oid).Readdir()] returns for that id, entries and
    error. *)
Inductive Entry : Type :=
| MkEntry (name : string) (isDir : bool) (fileSize : Z) (objectID : string)
          (entries : list Entry) (err : option error).

Definition Name (e : Entry) : string :=
  match e with MkEntry name _ _ _ _ _ => name end.
Definition IsDir (e : Entry) : bool :=
  match e with MkEntry _ isDir _ _ _ _ => isDir end.
Definition FileSize (e : Entry) : Z :=
  match e with MkEntry _ _ fileSize _ _ _ => fileSize end.
Definition ObjectID (e : Entry) : string :=
  match e with MkEntry _ _ _ objectID _ _ => objectID end.
Definition Readdir (e : Entry) : list Entry * option error :=
  match e with MkEntry _ _ _ _ entries err => (entries, err) end.

(** The flags of the command. *)
Record Flags : Type := {
  verifyCommandRecursive : bool;
  verifyCommandErrorThreshold : Z;
}.

(** The errors of this file: those the repository returns, and those
    made with [fmt.Errorf]. *)
Inductive failure : Type :=
| Cause (err : error)
| ErrValidating (path : string) (cause : failure)        (* "error validating %q: %v" *)
| ErrReadingDirectory (path oid : string) (cause : error)
    (* "error reading directory %q %v: %v" *)
| ErrInvalidObject (oid : string) (cause : error)        (* "invalid object %q: %v" *)
| ErrInvalidLength (oid : string) (length expected : Z)
    (* "invalid object length %q, %v, expected %v" *)
| ErrEncountered (n : Z).                                (* "encountered %v errors" *)

(** The lines written with [log.Printf]. *)
Inductive line : Type :=
| LogError (err : failure)
| LogVerifyingDirectory (path oid : string)
| LogVerifyingObject (oid : string)
| LogVerifyingObjectLength (path oid : string) (expectedLength : Z)
| LogObjectLength (length : Z).

(** [verifier], without the two managers, which are fixed; [output] is
    the log written so far. *)
Record verifier : Type := {
  visited : gset string;
  errors : list failure;
  output : list line;
}.

Definition log (v : verifier) (l : line) : verifier :=
  {| visited := visited v; errors := errors v; output := output v ++ [l] |}.

Definition visit (v : verifier) (oid : string) : verifier :=
  {| visited := {[ oid ]} ∪ visited v; errors := errors v; output := output v |}.

Section WithRepository.
(** The flags, and [om.VerifyObject]: the length and the error. *)
Context (flags : Flags) (VerifyObject : string -> Z * option error).

Definition reportError (v : verifier) (path : string) (err : failure) : bool * verifier :=
  let err := ErrValidating path err in
  let v := log v (LogError err) in
  let v := {| visited := visited v; errors := errors v ++ [err]; output := output v |} in
  (verifyCommandErrorThreshold flags <=? len (errors v), v).

Definition verifyObject (v : verifier) (oid : string) (path : string)
    (expectedLength : Z) : option failure * verifier :=
  if bool_decide (oid ∈ visited v) then (None, v)
  else
    let v := visit v oid in
    let v :=
      if expectedLength <? 0 then log v (LogVerifyingObject oid)
      else log v (LogVerifyingObjectLength path oid expectedLength) in
    match VerifyObject oid with
    | (_, Some err) => (Some (ErrInvalidObject oid err), v)
    | (length, None) =>
        if expectedLength =? -1 then (None, log v (LogObjectLength length))
        else if negb (length =? expectedLength)
          then (Some (ErrInvalidLength oid length expectedLength), v)
        else (None, v)
    end.

(** The loop of [verifyDirectory] over the entries; [verifyDirectory']
    is [verifyDirectory] on a child. *)
Fixpoint verifyEntries
    (verifyDirectory' : Entry -> verifier -> string -> option failure * verifier)
    (v : verifier) (path : string) (entries : list Entry)
    : option failure * verifier :=
  match entries with
  | [] => (None, v)
  | e :: rest =>
      let objectID := ObjectID e in
      let childPath := path +:+ "/" +:+ Name e in
      let '(stop, v) :=
        if IsDir e && verifyCommandRecursive flags then
          match verifyDirectory' e v childPath with
          | (Some err, v) =>
              let '(full, v) := reportError v childPath err in
              (if full then Some err else None, v)
          | (None, v) => (None, v)
          end
        else (None, v) in
      match stop with
      | Some err => (Some err, v)
      | None =>
          match verifyObject v objectID childPath (FileSize e) with
          | (Some err, v) =>
              let '(full, v) := reportError v childPath err in
              if full then (Some err, v)
              else verifyEntries verifyDirectory' v path rest
          | (None, v) => verifyEntries verifyDirectory' v path rest
          end
      end
  end.

(** [verifyDirectory(oid, path)], for the entry [d] whose object id is
    [oid]. *)
Fixpoint verifyDirectory (d : Entry) (v : verifier) (path : string) {struct d}
    : option failure * verifier :=
  match d with
  | MkEntry _ _ _ oid entries err =>
      if bool_decide (oid ∈ visited v) then (None, v)
      else
        let v := visit v oid in
        let v := log v (LogVerifyingDirectory path oid) in
        let '(stop, v) :=
          match err with
          | Some err =>
              let '(full, v) := reportError v path (ErrReadingDirectory path oid err) in
              (if full then Some (Cause err) else None, v)
          | None => (None, v)
          end in
        match stop with
        | Some err => (Some err, v)
        | None => verifyEntries verifyDirectory v path entries
        end
  end.

(** [runVerifyCommand]; [parsed] is what [parseObjectID] returns for the
    path given on the command line.  The lines printed to the standard
    error before the last [return] are left out. *)
Definition runVerifyCommand (parsed : error + Entry) : option failure * verifier :=
  let v := {| visited := ∅; errors := []; output := [] |} in
  match parsed with
  | inl err => (Some (Cause err), v)
  | inr root =>
      let oid := ObjectID root in
      let v :=
        if verifyCommandRecursive flags then snd (verifyDirectory root v oid) else v in
      let v := snd (verifyObject v oid oid (-1)) in
      match errors v with
      | [] => (None, v)
      | [e] => (Some e, v)
      | _ => (Some (ErrEncountered (len (errors v))), v)
      end
  end.

End WithRepository.

End cli.

(** ** Vocabulary for the verifier's properties *)

Module verify_spec.
Import cli.

(** The object ids of the "verifying object" lines of a log, that is, of
    the calls of [om.VerifyObject], and those of the "verifying
    directory" lines, the directories read. *)
Definition verified (out : list line) : list string :=
  flat_map (fun l => match l with
                     | LogVerifyingObject oid => [oid]
                     | LogVerifyingObjectLength _ oid _ => [oid]
                     | _ => []
                     end) out.

Definition listed (out : list line) : list string :=
  flat_map (fun l => match l with
                     | LogVerifyingDirectory _ oid => [oid]
                     | _ => []
                     end) out.

Definition is_error (l : line) : bool :=
  match l with LogError _ => true | _ => false end.

(** The entries below an entry, in the order of the listings, each
    followed by those below it. *)
Fixpoint below (d : Entry) : list Entry :=
  match d with
  | MkEntry _ _ _ _ entries _ => flat_map (fun e => e :: below e) entries
  end.

(** The object ids of the files below an entry. *)
Definition file_ids (d : Entry) : list string :=
  map ObjectID (List.filter (fun e => negb (IsDir e)) (below d)).

(** The object of a file entry verifies, with the length the entry
    records; a recorded length of -1 stands for any length. *)
Definition sound_file (VerifyObject : string -> Z * option error) (e : Entry) : Prop :=
  snd (VerifyObject (ObjectID e)) = None
  /\ (FileSize e <> -1 -> fst (VerifyObject (ObjectID e)) = FileSize e).

(** What a successful recursive verification should stand for: the
    directory could be read, the object of every file in it verifies, and
    the same holds in every directory below. *)
Fixpoint sound (VerifyObject : string -> Z * option error) (d : Entry) : Prop :=
  match d with
  | MkEntry _ _ _ _ entries err =>
      err = None
      /\ fold_right
           (fun e rest =>
              (if IsDir e then sound VerifyObject e else sound_file VerifyObject e)
              /\ rest)
           True entries
  end.

(** No object id has two "verifying" lines, and those that have one
    are marked as visited. *)
Definition tidy (v : verifier) : Prop :=
  NoDup (verified (output v) ++ listed (output v))
  /\ forall oid, oid ∈ verified (output v) ++ listed (output v) -> oid ∈ visited v.

(** The object ids of an entry and of the entries below it. *)
Definition all_ids (d : Entry) : list string := ObjectID d :: map ObjectID (below d).

(** From [v] to [v'] only ids among [ids] were marked as visited, errors
    were only added, and if none was added then [S] holds. *)
Definition advance (v v' : verifier) (ids : list string) (S : Prop) : Prop :=
  (forall x, x ∈ visited v' -> x ∈ visited v \/ x ∈ ids)
  /\ exists extra, errors v' = errors v ++ extra /\ (extra = [] -> S).

(** The entries of a listing are sound, each as a directory or as a
    file. *)
Definition sound_entries (VerifyObject : string -> Z * option error)
    (entries : list Entry) : Prop :=
  fold_right
    (fun e rest =>
       (if IsDir e then sound VerifyObject e else sound_file VerifyObject e) /\ rest)
    True entries.

(** Lines none of which reports an error. *)
Definition quiet (lines : list line) : Prop := existsb is_error lines = false.

(** From [v] to [v'] either no error was recorded and only quiet lines
    were written, or after some quiet lines only errors were written, and
    recorded. *)
Definition stops_at_error (v : verifier) (r : option failure) (v' : verifier) : Prop :=
  match r with
  | None =>
      errors v' = errors v
      /\ exists lines, output v' = output v ++ lines /\ quiet lines
  | Some _ =>
      exists lines errs,
        errs <> [] /\ errors v' = errors v ++ errs
        /\ output v' = output v ++ lines ++ map LogError errs /\ quiet lines
  end.

(** *** A small repository *)
Definition file_entry (name : string) (size : Z) (oid : string) : Entry :=
  MkEntry name false size oid [] (Some (ErrExternal "not a directory")).

Definition dir_entry (name oid : string) (entries : list Entry) : Entry :=
  MkEntry name true 0 oid entries None.

Definition example_root : Entry :=
  dir_entry "" "Droot"
    [ file_entry "a" 5 "Fa";
      dir_entry "sub" "Dsub" [ file_entry "b" 3 "Fb"; file_entry "c" 7 "Fc" ];
      file_entry "d" 6 "Fd" ].

(** Every object is there with the length recorded for it. *)
Definition good_objects (oid : string) : Z * option error :=
  if bool_decide (oid = "Fa"%string) then (5, None)
  else if bool_decide (oid = "Fb"%string) then (3, None)
  else if bool_decide (oid = "Fc"%string) then (7, None)
  else if bool_decide (oid = "Fd"%string) then (6, None)
  else (0, None).

(** No object can be read. *)
Definition no_objects (oid : string) : Z * option error :=
  (0, Some ErrBlockNotFound).

(** The object of "b" has lost a byte. *)
Definition short_object (oid : string) : Z * option error :=
  if bool_decide (oid = "Fb"%string) then (2, None) else good_objects oid.

Definition recursive (threshold : Z) : Flags :=
  {| verifyCommandRecursive := true; verifyCommandErrorThreshold := threshold |}.

Definition flat (threshold : Z) : Flags :=
  {| verifyCommandRecursive := false; verifyCommandErrorThreshold := threshold |}.

End verify_spec.

(** * Properties *)

(** ** Bytes, slices and the primitives *)

Definition all_bytes : list byte :=
  Eval vm_compute in map (fun i => zbyte (Z.of_nat i)) (seq 0 256).

Lemma all_bytes_complete (b : byte) : In b all_bytes.
Proof.
  assert (H : existsb (Byte.eqb b) all_bytes = true)
    by (destruct b; vm_compute; reflexivity).
  apply existsb_exists in H. destruct H as (c & Hc & Heq).
  apply Byte.byte_dec_bl in Heq. congruence.
Qed.

Lemma forall_bytes (P : byte -> bool) :
  forallb P all_bytes = true -> forall b, P b = true.
Proof.
  intros HP b. rewrite forallb_forall in HP. apply HP, all_bytes_complete.
Qed.

Lemma byte_xor_cancel (a b : byte) : byte_xor (byte_xor a b) b = a.
Proof.
  apply Byte.byte_dec_bl. revert b.
  apply (forall_bytes (fun b0 => Byte.eqb (byte_xor (byte_xor a b0) b0) a)).
  revert a.
  apply (forall_bytes (fun a0 => forallb (fun b0 =>
           Byte.eqb (byte_xor (byte_xor a0 b0) b0) a0) all_bytes)).
  vm_compute. reflexivity.
Qed.

Lemma sha256_sum_length (m : bytes) : length (SHA256.sum m) = 32%nat.
Proof. reflexivity. Qed.

Lemma hmac_sum_length (k m : bytes) : length (HMAC.sum k m) = 32%nat.
Proof. apply sha256_sum_length. Qed.

(** The primitives on published vectors: FIPS 180-4 ("abc"), RFC 4231
    (case 1), RFC 5869 (case 1), FIPS 197 (appendix C), and SP 800-38A
    (F.5.5, first block). *)
Example sha256_vector :
  hex (SHA256.sum (bytes_of_string "abc"))
  = "ba7816bf8f01cfea414140de5dae2223b00361a396177a9cb410ff61f20015ad"%string.
Proof. vm_compute. reflexivity. Qed.

Example hmac_vector :
  hex (HMAC.sum (replicate 20 (zbyte 0x0b)) (bytes_of_string "Hi There"))
  = "b0344c61d8db38535ca8afceaf0bf12b881dc200c9833da726e9376c2e32cff7"%string.
Proof. vm_compute. reflexivity. Qed.

Example hkdf_vector :
  HKDF.read (replicate 22 (zbyte 0x0b)) (unhex "000102030405060708090a0b0c")
    (unhex "f0f1f2f3f4f5f6f7f8f9") 42
  = Ok (unhex ("3cb25f25faacd57a90434f64d0362f2a2d2d0a90cf1a5a4c5db02d56ecc4c5bf"
               +:+ "34007208d5b887185865")).
Proof. vm_compute. reflexivity. Qed.

Example aes_vectors :
  map (fun key => hex (AES.Encrypt {| AES.block_key := unhex key |}
                         (unhex "00112233445566778899aabbccddeeff")))
    [ "000102030405060708090a0b0c0d0e0f";
      "000102030405060708090a0b0c0d0e0f1011121314151617";
      "000102030405060708090a0b0c0d0e0f101112131415161718191a1b1c1d1e1f" ]%string
  = [ "69c4e0d86a7b0430d8cdb78070b4c55a";
      "dda97ca4864cdfe06eaf70a0ec0d7191";
      "8ea2b7ca516745bfeafc49904b496089" ]%string.
Proof. vm_compute. reflexivity. Qed.

Example ctr_vector :
  hex (CTR.xor_stream
         {| CTR.stream_block :=
              {| AES.block_key :=
                   unhex "603deb1015ca71be2b73aef0857d77811f352c073b6108d72d9810a30914dff4" |};
            CTR.stream_iv := unhex "f0f1f2f3f4f5f6f7f8f9fafbfcfdfeff" |}
         (unhex "6bc1bee22e409f96e93d7e117393172a"))
  = "601ec313775789a5b7a7f504bbf3d228"%string.
Proof. vm_compute. reflexivity. Qed.

#[global] Opaque SHA256.sum HMAC.sum AES.Encrypt.

Lemma hkdf_expand_length prk info count i prev :
  length (HKDF.expand prk info count i prev) = (32 * count)%nat.
Proof.
  revert i prev. induction count as [|c IH]; intros i prev; [reflexivity|].
  cbn [HKDF.expand]. rewrite length_app, hmac_sum_length, IH. lia.
Qed.

Lemma hkdf_read_ok secret salt info (n : nat) :
  (n <= 32)%nat ->
  exists k, HKDF.read secret salt info n = Ok k /\ length k = n.
Proof.
  intros Hn. unfold HKDF.read.
  destruct (255 * 32 <? n)%nat eqn:E.
  - apply Nat.ltb_lt in E. lia.
  - eexists; split; [reflexivity|].
    rewrite length_take, hkdf_expand_length.
    assert (n = 0 \/ 1 <= (n + 31) / 32)%nat as [->|Hc].
    { destruct n; [left; reflexivity | right].
      apply Nat.div_le_lower_bound; lia. }
    + reflexivity.
    + lia.
Qed.

Lemma slice_ok {A} (s : list A) (lo hi : Z) :
  0 <= lo -> lo <= hi -> hi <= len s ->
  slice s lo hi = Ok (take (Z.to_nat (hi - lo)) (drop (Z.to_nat lo) s)).
Proof.
  intros H1 H2 H3. unfold slice.
  rewrite (proj2 (Z.leb_le _ _) H1), (proj2 (Z.leb_le _ _) H2),
    (proj2 (Z.leb_le _ _) H3). reflexivity.
Qed.

Lemma slice_negative {A} (s : list A) (hi : Z) :
  hi < 0 -> slice s 0 hi = Panic "slice bounds out of range".
Proof.
  intros Hhi. unfold slice.
  rewrite (proj2 (Z.leb_gt 0 hi) Hhi). reflexivity.
Qed.

Lemma copy_at_whole (dst src : bytes) :
  length dst = length src -> copy_at dst 0 src = src.
Proof.
  intros Hlen. unfold copy_at. rewrite take_0, Nat.sub_0_r, Hlen, firstn_all.
  rewrite Nat.add_0_l, <- Hlen, drop_all, app_nil_r. reflexivity.
Qed.

Lemma xor_stream_length (s : CTR.Stream) (src : bytes) :
  length (CTR.xor_stream s src) = length src.
Proof. apply length_imap. Qed.

Lemma imap_xor_cancel (ks : nat -> byte) (src : list byte) :
  imap (fun j b => byte_xor b (ks j)) (imap (fun j b => byte_xor b (ks j)) src) = src.
Proof.
  apply list_eq. intros i. rewrite !list_lookup_imap.
  destruct (src !! i) as [b|]; [|reflexivity].
  cbn. rewrite byte_xor_cancel. reflexivity.
Qed.

Lemma xor_stream_cancel (s : CTR.Stream) (src : bytes) :
  CTR.xor_stream s (CTR.xor_stream s src) = src.
Proof. apply imap_xor_cancel. Qed.

Lemma flip_changes_byte (b : byte) (k : nat) :
  (k < 8)%nat -> byte_xor b (zbyte (2 ^ Z.of_nat k)) <> b.
Proof.
  intros Hk.
  assert (Hall : forallb (fun k0 => negb (Byte.eqb
             (byte_xor b (zbyte (2 ^ Z.of_nat k0))) b)) (seq 0 8) = true).
  { revert b. apply (forall_bytes (fun b0 => forallb (fun k0 => negb (Byte.eqb
             (byte_xor b0 (zbyte (2 ^ Z.of_nat k0))) b0)) (seq 0 8))).
    vm_compute. reflexivity. }
  rewrite forallb_forall in Hall.
  specialize (Hall k (proj2 (in_seq 8 0 k) ltac:(lia))).
  intros Heq. rewrite Heq in Hall.
  rewrite (Byte.byte_dec_lb eq_refl) in Hall. discriminate.
Qed.

Section VaultLemmas.
Import storage vault vault_spec.
Context `{Env} {S : Type} `{storage.Storage S}.
Implicit Types (v : Vault S) (content : bytes).

Lemma deriveKey_length v purpose (n : nat) :
  (n <= 32)%nat -> length (fst (deriveKey v purpose n)) = n.
Proof.
  intros Hn. unfold deriveKey.
  destruct (hkdf_read_ok (masterKey v) (UniqueID (Format v)) purpose n Hn)
    as (k & -> & Hk). exact Hk.
Qed.

Lemma newCipher_aes v :
  is_aes (Encryption (Format v)) ->
  newCipher v = Ok (Some {| AES.block_key := cipher_key v |}).
Proof.
  intros Haes. unfold newCipher, cipher_key, key_size.
  assert (Hlen : forall n, (n <= 32)%nat -> (n = 16 \/ n = 24 \/ n = 32)%nat ->
            AES.NewCipher (fst (deriveKey v purposeAESKey n))
            = Ok {| AES.block_key := fst (deriveKey v purposeAESKey n) |}).
  { intros n Hn Hcase. unfold AES.NewCipher.
    rewrite bool_decide_eq_true_2; [reflexivity|].
    rewrite deriveKey_length by exact Hn. exact Hcase. }
  destruct Haes as [E|[E|E]]; rewrite E; repeat case_decide; try done;
    rewrite Hlen by (lia || auto); reflexivity.
Qed.

Lemma newCipher_none v :
  Encryption (Format v) = "none"%string -> newCipher v = Ok None.
Proof. intros E. unfold newCipher. rewrite E. reflexivity. Qed.

Lemma newChecksum_hmac v :
  Checksum (Format v) = "hmac-sha-256"%string ->
  newChecksum v = Ok {| hash_key := mac_key v |}.
Proof. intros E. unfold newChecksum. rewrite E. reflexivity. Qed.

End VaultLemmas.

Lemma make_ok (n : Z) : 0 <= n -> make n = Ok (replicate (Z.to_nat n) x00).
Proof. intros Hn. unfold make. rewrite (proj2 (Z.leb_le 0 n) Hn). reflexivity. Qed.

Lemma make_negative (n : Z) : n < 0 -> make n = Panic "makeslice: len out of range".
Proof. intros Hn. unfold make. rewrite (proj2 (Z.leb_gt 0 n) Hn). reflexivity. Qed.

Lemma copy_at_app (a b src : bytes) :
  (length src <= length b)%nat ->
  copy_at (a ++ b) (length a) src = a ++ src ++ drop (length src) b.
Proof.
  intros Hlen. unfold copy_at.
  rewrite take_app_length, length_app.
  replace (length a + length b - length a)%nat with (length b) by lia.
  rewrite (take_ge src) by lia.
  rewrite drop_app_add'; reflexivity.
Qed.

Lemma copy_at_head (b src : bytes) :
  (length src <= length b)%nat -> copy_at b 0 src = src ++ drop (length src) b.
Proof. intros Hlen. apply (copy_at_app [] b src Hlen). Qed.

Section SealAndDecrypt.
Import storage vault vault_spec.
Context `{Env} {S : Type} `{storage.Storage S}.
Implicit Types (v : Vault S) (content : bytes).

Lemma sealBlock_none v entropy content :
  Encryption (Format v) = "none"%string -> sealBlock v entropy content = Ok content.
Proof. intros E. unfold sealBlock. rewrite newCipher_none by exact E. reflexivity. Qed.

Lemma decryptBlock_none v content :
  Encryption (Format v) = "none"%string -> decryptBlock v content = Ok content.
Proof. intros E. unfold decryptBlock. rewrite newCipher_none by exact E. reflexivity. Qed.

Lemma sealBlock_aes v entropy content :
  is_aes (Encryption (Format v)) ->
  Checksum (Format v) = "hmac-sha-256"%string ->
  (16 <= length entropy)%nat ->
  sealBlock v entropy content = Ok (block_layout v (take 16 entropy) content).
Proof.
  intros Haes Hmac Hent. unfold sealBlock.
  rewrite newCipher_aes by exact Haes. cbn [obind].
  rewrite newChecksum_hmac by exact Hmac. cbn [obind].
  unfold Hash_Size, Hash_Sum, SHA256.Size, AES.BlockSize, len. cbn [hash_key].
  set (n := length content).
  rewrite make_ok by lia. cbn [obind].
  replace (Z.to_nat (16 + Z.of_nat n + 32)) with (16 + (n + 32))%nat by lia.
  rewrite slice_ok; [| lia | lia | unfold len; rewrite length_replicate; lia ].
  cbn [obind]. rewrite drop_0, take_replicate, length_replicate.
  replace (Z.to_nat (16 - 0) `min` (16 + (n + 32)))%nat with 16%nat by lia.
  unfold ReadFull. rewrite (proj2 (Nat.ltb_ge _ _) Hent). cbn [obind].
  set (iv := take 16 entropy).
  assert (Hiv : length iv = 16%nat) by (unfold iv; rewrite length_take; lia).
  (* the buffer after the IV has been read into its head *)
  assert (Hbuf1 : copy_at (replicate (16 + (n + 32)) x00) 0 iv
                  = iv ++ replicate (n + 32) x00).
  { rewrite copy_at_head by (rewrite length_replicate; lia).
    rewrite Hiv, drop_replicate.
    replace (16 + (n + 32) - 16)%nat with (n + 32)%nat by lia. reflexivity. }
  rewrite Hbuf1. unfold CTR.NewCTR, AES.BlockSize, len.
  rewrite bool_decide_eq_true_2 by (rewrite Hiv; reflexivity). cbn [obind].
  unfold slice_from.
  rewrite slice_ok; [| lia | unfold len; rewrite length_app, length_replicate; lia | lia ].
  cbn [obind]. unfold len. rewrite length_app, length_replicate, Hiv.
  replace (Z.to_nat (Z.of_nat (16 + (n + 32)) - 16)) with (n + 32)%nat by lia.
  replace (Z.to_nat 16) with (length iv) by (rewrite Hiv; reflexivity).
  rewrite drop_app_length, take_replicate.
  replace ((n + 32) `min` (n + 32))%nat with (n + 32)%nat by lia.
  unfold CTR.XORKeyStream. rewrite length_replicate.
  rewrite (proj2 (Nat.ltb_ge (n + 32) (length content))) by (fold n; lia).
  cbn [obind].
  set (body := CTR.xor_stream _ content).
  assert (Hbody : length body = n) by apply xor_stream_length.
  assert (Hdst : copy_at (replicate (n + 32) x00) 0 body = body ++ replicate 32 x00).
  { rewrite copy_at_head by (rewrite length_replicate; lia).
    rewrite Hbody, drop_replicate. replace (n + 32 - n)%nat with 32%nat by lia.
    reflexivity. }
  rewrite Hdst.
  rewrite copy_at_app by (rewrite length_app, !length_replicate; lia).
  rewrite length_app, length_replicate, Hbody, drop_replicate, Nat.sub_diag, app_nil_r.
  rewrite slice_ok;
    [| lia | lia | unfold len; rewrite !length_app, length_replicate; lia ].
  cbn [obind]. rewrite drop_0.
  replace (Z.to_nat (16 + Z.of_nat n - 0)) with (length (iv ++ body))
    by (rewrite length_app; lia).
  rewrite (app_assoc iv body), take_app_length.
  replace (Z.to_nat (16 + Z.of_nat n)) with (length (iv ++ body))
    by (rewrite length_app; lia).
  rewrite copy_at_app by (rewrite hmac_sum_length, length_replicate; lia).
  rewrite hmac_sum_length, drop_replicate, app_nil_r.
  unfold block_layout, ctr_crypt. fold iv. fold body.
  rewrite <- app_assoc. reflexivity.
Qed.

Lemma decryptBlock_aes v content :
  is_aes (Encryption (Format v)) ->
  Checksum (Format v) = "hmac-sha-256"%string ->
  decryptBlock v content = decrypt_cases v content.
Proof.
  intros Haes Hmac. unfold decryptBlock, decrypt_cases.
  rewrite newCipher_aes by exact Haes. cbn [obind].
  rewrite newChecksum_hmac by exact Hmac. cbn [obind].
  unfold Hash_Size, Hash_Sum, SHA256.Size, AES.BlockSize, len. cbn [hash_key].
  set (n := length content).
  destruct (n <? 32)%nat eqn:E32.
  { apply Nat.ltb_lt in E32. rewrite slice_negative by lia. reflexivity. }
  apply Nat.ltb_ge in E32.
  rewrite slice_ok by (unfold len; lia). cbn [obind].
  unfold slice_from. rewrite slice_ok by (unfold len; lia). cbn [obind].
  unfold len. fold n.
  rewrite drop_0, Z.sub_0_r.
  replace (Z.to_nat (Z.of_nat n - 32)) with (n - 32)%nat by lia.
  replace (Z.to_nat (Z.of_nat n - (Z.of_nat n - 32))) with 32%nat by lia.
  rewrite (take_ge (drop (n - 32) content)) by (rewrite length_drop; lia).
  unfold HMAC.Equal.
  destruct (bool_decide (HMAC.sum (mac_key v) (take (n - 32) content)
                         = drop (n - 32) content)); cbn [negb]; [|reflexivity].
  destruct (n <? 48)%nat eqn:E48.
  { apply Nat.ltb_lt in E48. rewrite make_negative by lia. reflexivity. }
  apply Nat.ltb_ge in E48.
  rewrite make_ok by lia. cbn [obind].
  rewrite slice_ok by (unfold len; lia). cbn [obind].
  rewrite drop_0, Z.sub_0_r.
  unfold CTR.NewCTR, AES.BlockSize, len.
  rewrite bool_decide_eq_true_2 by (rewrite length_take; lia). cbn [obind].
  rewrite slice_ok by (unfold len; lia). cbn [obind].
  replace (Z.to_nat (Z.of_nat n - 32 - 16)) with (n - 48)%nat by lia.
  replace (Z.to_nat (Z.of_nat n - 16 - 32)) with (n - 48)%nat by lia.
  replace (Z.to_nat 16) with 16%nat by lia.
  unfold CTR.XORKeyStream.
  assert (Hbody : length (take (n - 48) (drop 16 content)) = (n - 48)%nat)
    by (rewrite length_take, length_drop; lia).
  rewrite length_replicate, Hbody, Nat.ltb_irrefl.
  rewrite copy_at_whole by (rewrite length_replicate, xor_stream_length, Hbody; reflexivity).
  reflexivity.
Qed.

End SealAndDecrypt.

(** ** The vault's block codec *)

Section Codec.
Import storage vault vault_spec.
Context `{Env} {S : Type} `{storage.Storage S}.
Implicit Types (v : Vault S) (content : bytes).

Lemma block_layout_length v iv plaintext :
  length (block_layout v iv plaintext) = (length iv + length plaintext + 32)%nat.
Proof.
  unfold block_layout, ctr_crypt.
  rewrite !length_app, xor_stream_length, hmac_sum_length. lia.
Qed.

(** The two parts [decryptBlock] splits a sealed block into. *)
Lemma block_layout_split v iv plaintext :
  let blk := block_layout v iv plaintext in
  let m := (length iv + length plaintext)%nat in
  take m blk = iv ++ ctr_crypt (cipher_key v) iv plaintext
  /\ drop m blk = HMAC.sum (mac_key v) (iv ++ ctr_crypt (cipher_key v) iv plaintext).
Proof.
  cbv zeta. unfold block_layout.
  set (body := ctr_crypt (cipher_key v) iv plaintext).
  assert (Hm : (length iv + length plaintext)%nat = length (iv ++ body)).
  { rewrite length_app. unfold body, ctr_crypt. rewrite xor_stream_length. reflexivity. }
  rewrite Hm, (app_assoc iv body). split.
  - apply take_app_length.
  - apply drop_app_length.
Qed.

Lemma decrypt_layout v iv plaintext :
  is_aes (Encryption (Format v)) ->
  Checksum (Format v) = "hmac-sha-256"%string ->
  length iv = 16%nat ->
  decryptBlock v (block_layout v iv plaintext) = Ok plaintext.
Proof.
  intros Haes Hmac Hiv. rewrite decryptBlock_aes by assumption.
  unfold decrypt_cases. rewrite block_layout_length, Hiv.
  destruct (block_layout_split v iv plaintext) as [Htake Hdrop].
  rewrite Hiv in Htake, Hdrop.
  replace (16 + length plaintext + 32 - 32)%nat with (16 + length plaintext)%nat by lia.
  replace (16 + length plaintext + 32 - 48)%nat with (length plaintext) by lia.
  rewrite (proj2 (Nat.ltb_ge _ 32)) by lia.
  rewrite Htake, Hdrop, bool_decide_eq_true_2 by reflexivity. cbn [negb].
  rewrite (proj2 (Nat.ltb_ge _ 48)) by lia.
  unfold block_layout.
  rewrite <- Hiv at 1. rewrite take_app_length.
  rewrite <- Hiv at 1. rewrite drop_app_length.
  replace (length plaintext) with (length (ctr_crypt (cipher_key v) iv plaintext))
    by apply xor_stream_length.
  rewrite take_app_length. unfold ctr_crypt. rewrite xor_stream_cancel. reflexivity.
Qed.

Lemma writeEncryptedBlock_sealed v entropy itemID content blk :
  sealBlock v entropy content = Ok blk ->
  writeEncryptedBlock v entropy itemID content
  = (of_error (snd (PutBlock (Storage v) (itemPrefix v +:+ itemID) blk)),
     fst (PutBlock (Storage v) (itemPrefix v +:+ itemID) blk)).
Proof.
  intros Hseal. unfold writeEncryptedBlock. rewrite Hseal.
  destruct (PutBlock _ _ _) as [s e]. reflexivity.
Qed.

(** C1: for each of the encryptions none, aes-128, aes-192 and aes-256
    (with the hmac-sha-256 checksum and a generator that delivers the IV
    for the AES ones), whatever the plaintext, the master key and the
    unique id, [writeEncryptedBlock] hands the store a block that
    [decryptBlock] turns back into the plaintext; under "none" sealing and
    decrypting both return their input unchanged. *)
Theorem decrypt_write_roundtrip v (entropy : bytes) (itemID : string) (plaintext : bytes) :
  Encryption (Format v) = "none"%string \/ is_aes (Encryption (Format v)) ->
  (Encryption (Format v) <> "none"%string ->
     Checksum (Format v) = "hmac-sha-256"%string /\ (16 <= length entropy)%nat) ->
  (exists blk,
      sealBlock v entropy plaintext = Ok blk
      /\ writeEncryptedBlock v entropy itemID plaintext
         = (of_error (snd (PutBlock (Storage v) (itemPrefix v +:+ itemID) blk)),
            fst (PutBlock (Storage v) (itemPrefix v +:+ itemID) blk))
      /\ decryptBlock v blk = Ok plaintext)
  /\ (Encryption (Format v) = "none"%string ->
      forall content, sealBlock v entropy content = Ok content
                      /\ decryptBlock v content = Ok content).
Proof.
  intros Henc Hrest. split.
  - destruct Henc as [Hnone|Haes].
    + exists plaintext. split; [|split].
      * apply sealBlock_none, Hnone.
      * apply writeEncryptedBlock_sealed, sealBlock_none, Hnone.
      * apply decryptBlock_none, Hnone.
    + assert (Hne : Encryption (Format v) <> "none"%string).
      { destruct Haes as [E|[E|E]]; rewrite E; discriminate. }
      destruct (Hrest Hne) as [Hmac Hent].
      exists (block_layout v (take 16 entropy) plaintext). split; [|split].
      * apply sealBlock_aes; assumption.
      * apply writeEncryptedBlock_sealed, sealBlock_aes; assumption.
      * apply decrypt_layout; try assumption. rewrite length_take. lia.
  - intros Hnone content. split.
    + apply sealBlock_none, Hnone.
    + apply decryptBlock_none, Hnone.
Qed.

(** C3: under an AES variant with the hmac-sha-256 checksum the block
    handed to the store is IV || AES-CTR(key, IV, P) || HMAC-SHA-256(mac_key,
    IV || ciphertext), the IV being the 16 bytes drawn from the generator;
    it is 16 + |P| + 32 bytes long, 53 for a 5-byte plaintext, and the
    HMAC's input is the IV followed by the ciphertext body. *)
Theorem persisted_block_layout v (entropy : bytes) (itemID : string) (plaintext : bytes) :
  is_aes (Encryption (Format v)) ->
  Checksum (Format v) = "hmac-sha-256"%string ->
  (16 <= length entropy)%nat ->
  let iv := take 16 entropy in
  let body := ctr_crypt (cipher_key v) iv plaintext in
  let tag := HMAC.sum (mac_key v) (iv ++ body) in
  sealBlock v entropy plaintext = Ok (iv ++ body ++ tag)
  /\ writeEncryptedBlock v entropy itemID plaintext
     = (of_error (snd (PutBlock (Storage v) (itemPrefix v +:+ itemID) (iv ++ body ++ tag))),
        fst (PutBlock (Storage v) (itemPrefix v +:+ itemID) (iv ++ body ++ tag)))
  /\ length iv = 16%nat /\ length body = length plaintext /\ length tag = 32%nat
  /\ length (iv ++ body ++ tag) = (16 + length plaintext + 32)%nat
  /\ (length plaintext = 5%nat -> length (iv ++ body ++ tag) = 53%nat).
Proof.
  intros Haes Hmac Hent iv body tag.
  assert (Hseal : sealBlock v entropy plaintext = Ok (iv ++ body ++ tag)).
  { unfold tag, body, iv. rewrite sealBlock_aes by assumption.
    unfold block_layout. reflexivity. }
  assert (Hiv : length iv = 16%nat) by (unfold iv; rewrite length_take; lia).
  assert (Hbody : length body = length plaintext) by apply xor_stream_length.
  assert (Htag : length tag = 32%nat) by apply hmac_sum_length.
  assert (Hlen : length (iv ++ body ++ tag) = (16 + length plaintext + 32)%nat)
    by (rewrite !length_app, Hiv, Hbody, Htag; lia).
  repeat split; try assumption.
  - apply writeEncryptedBlock_sealed, Hseal.
  - intros H5. rewrite Hlen, H5. reflexivity.
Qed.

Lemma alter_changes {A} (f : A -> A) (l : list A) (j : nat) (a : A) :
  l !! j = Some a -> f a <> a -> alter f j l <> l.
Proof.
  intros Hj Hf Heq. apply Hf.
  assert (Hl : alter f j l !! j = Some (f a))
    by (rewrite list_lookup_alter_eq, Hj; reflexivity).
  rewrite Heq, Hj in Hl. congruence.
Qed.

(** The checksum test of [decryptBlock] on a block with room for a tag. *)
Lemma decrypt_checksum_test v content :
  is_aes (Encryption (Format v)) ->
  Checksum (Format v) = "hmac-sha-256"%string ->
  (32 <= length content)%nat ->
  let p := (length content - 32)%nat in
  (decryptBlock v content = Err ErrIncorrectChecksum
     <-> HMAC.sum (mac_key v) (take p content) <> drop p content)
  /\ (forall e, decryptBlock v content = Err e -> e = ErrIncorrectChecksum)
  /\ (forall plaintext, decryptBlock v content = Ok plaintext ->
        HMAC.sum (mac_key v) (take p content) = drop p content).
Proof.
  intros Haes Hmac Hlen p. rewrite decryptBlock_aes by assumption.
  unfold decrypt_cases. fold p.
  rewrite (proj2 (Nat.ltb_ge _ 32)) by lia.
  destruct (bool_decide_reflect
              (HMAC.sum (mac_key v) (take p content) = drop p content)) as [Heq|Hne];
    cbn [negb].
  - split; [|split].
    + split; [|intros Hne; contradiction].
      destruct (length content <? 48)%nat; discriminate.
    + intros e. destruct (length content <? 48)%nat; discriminate.
    + intros _ _. exact Heq.
  - split; [|split].
    + split; [intros _; exact Hne | reflexivity].
    + intros e [= <-]. reflexivity.
    + discriminate.
Qed.

(** X28: what the checksum test of [decryptBlock] detects.  On a block
    of 32 bytes or more, [decryptBlock] answers with the checksum error
    exactly when the HMAC-SHA-256 it recomputes over the bytes before the
    last 32 differs from those 32 bytes, raises no other error, and
    succeeds only when they are equal.  Hence, in a block sealed under an
    AES format, an inverted bit of the tag is always detected, and an
    inverted bit of the IV or of the body is detected exactly when the
    HMAC of the modified bytes differs from the HMAC of the original
    ones. *)
Theorem flipped_bit_detection v (entropy plaintext : bytes) (n : nat) :
  is_aes (Encryption (Format v)) ->
  Checksum (Format v) = "hmac-sha-256"%string ->
  (16 <= length entropy)%nat ->
  (n < 8 * (16 + length plaintext + 32))%nat ->
  let blk := block_layout v (take 16 entropy) plaintext in
  let m := (16 + length plaintext)%nat in
  sealBlock v entropy plaintext = Ok blk
  /\ (forall content, (32 <= length content)%nat ->
        let p := (length content - 32)%nat in
        (decryptBlock v content = Err ErrIncorrectChecksum
           <-> HMAC.sum (mac_key v) (take p content) <> drop p content)
        /\ (forall e, decryptBlock v content = Err e -> e = ErrIncorrectChecksum)
        /\ (forall q, decryptBlock v content = Ok q ->
              HMAC.sum (mac_key v) (take p content) = drop p content))
  /\ ((8 * m <= n)%nat ->
        decryptBlock v (flip_bit blk n) = Err ErrIncorrectChecksum)
  /\ ((n < 8 * m)%nat ->
        (decryptBlock v (flip_bit blk n) = Err ErrIncorrectChecksum
         <-> HMAC.sum (mac_key v) (flip_bit (take m blk) n)
             <> HMAC.sum (mac_key v) (take m blk))).
Proof.
  intros Haes Hmac Hent Hn blk m.
  assert (Hiv : length (take 16 entropy) = 16%nat) by (rewrite length_take; lia).
  assert (Hlen : length blk = (m + 32)%nat).
  { unfold blk, m. rewrite block_layout_length, Hiv. reflexivity. }
  destruct (block_layout_split v (take 16 entropy) plaintext) as [Htake Hdrop].
  rewrite Hiv in Htake, Hdrop. fold blk m in Htake, Hdrop.
  set (prefix := take 16 entropy ++ ctr_crypt (cipher_key v) (take 16 entropy) plaintext)
    in Htake, Hdrop.
  set (f := fun b : byte => byte_xor b (zbyte (2 ^ Z.of_nat (n mod 8)))).
  assert (Hf : forall b, f b <> b).
  { intros b. apply flip_changes_byte. apply Nat.mod_upper_bound. lia. }
  assert (Hflen : length (flip_bit blk n) = (m + 32)%nat).
  { unfold flip_bit. rewrite length_alter. exact Hlen. }
  assert (Hi : (n / 8 < m + 32)%nat).
  { apply Nat.Div0.div_lt_upper_bound. unfold m. lia. }
  split; [exact (sealBlock_aes v entropy plaintext Haes Hmac Hent)|].
  split; [intros content Hc; apply decrypt_checksum_test; assumption|].
  split.
  - intros Htag.
    assert (Hge : (m <= n / 8)%nat) by (apply Nat.div_le_lower_bound; lia).
    apply (decrypt_checksum_test v (flip_bit blk n) Haes Hmac); [lia|].
    rewrite Hflen. replace (m + 32 - 32)%nat with m by lia.
    unfold flip_bit. rewrite take_alter_ge, drop_alter_ge by exact Hge.
    rewrite Htake, Hdrop. fold f.
    assert (is_Some (HMAC.sum (mac_key v) prefix !! (n / 8 - m)%nat)) as [b Hb].
    { apply lookup_lt_is_Some. rewrite hmac_sum_length. lia. }
    intros Heq. symmetry in Heq. revert Heq.
    apply (alter_changes f _ _ b Hb (Hf b)).
  - intros Hbody.
    assert (Hlt : (n / 8 < m)%nat) by (apply Nat.Div0.div_lt_upper_bound; lia).
    destruct (decrypt_checksum_test v (flip_bit blk n) Haes Hmac) as [Hiff _]; [lia|].
    rewrite Hflen in Hiff. replace (m + 32 - 32)%nat with m in Hiff by lia.
    rewrite Hiff. unfold flip_bit.
    rewrite take_alter_lt, drop_alter_lt by exact Hlt.
    rewrite Htake, Hdrop. reflexivity.
Qed.

End Codec.

(** ** The vault's items and its open protocol *)

Section Items.
Import storage vault vault_spec.
Context `{Env} {S : Type} `{storage.Storage S}.
Implicit Types (v : Vault S) (content : bytes).

Lemma isReservedName_spec (itemID : string) :
  isReservedName itemID = true <-> itemID = "format"%string \/ itemID = "repo"%string.
Proof.
  unfold isReservedName, formatBlockID, repositoryConfigBlockID.
  rewrite orb_true_iff, !bool_decide_eq_true. reflexivity.
Qed.

Lemma List_loop_not_reserved v stream result :
  Forall (fun id => isReservedName id = false) result ->
  Forall (fun id => isReservedName id = false) (fst (List_loop v stream result)).
Proof.
  revert result. induction stream as [|b rest IH]; intros result Hres; cbn [List_loop].
  - exact Hres.
  - destruct (Error b); [exact Hres|].
    apply IH.
    destruct (isReservedName (TrimPrefix (BlockID b) (itemPrefix v))) eqn:E; cbn [negb].
    + exact Hres.
    + apply Forall_app. split; [exact Hres|]. constructor; [exact E|constructor].
Qed.

(** C8: on the reserved ids "format" and "repo", [Put], [Get] and [Remove]
    fail with the invalid-item-name error; [Put] and [Remove] return the
    store as it was and [Get]'s answer does not depend on the store; and
    no id in the result of [List], complete or cut short by an error of
    the store, is reserved. *)
Theorem reserved_names_rejected v (itemID : string) :
  itemID = "format"%string \/ itemID = "repo"%string ->
  (forall entropy content,
      Put v entropy itemID content = (Err (ErrInvalidItemName itemID), Storage v))
  /\ (forall s, Get (with_storage v s) itemID = Err (ErrInvalidItemName itemID))
  /\ Get v itemID = Err (ErrInvalidItemName itemID)
  /\ Remove v itemID = (Some (ErrInvalidItemName itemID), Storage v)
  /\ (forall prefix, itemID ∉ fst (List v prefix))
  /\ (forall prefix id, id ∈ fst (List v prefix) -> isReservedName id = false).
Proof.
  intros Hid. apply isReservedName_spec in Hid.
  assert (Hlist : forall prefix id,
             id ∈ fst (List v prefix) -> isReservedName id = false).
  { intros prefix id Hin.
    pose proof (List_loop_not_reserved v
                  (ListBlocks (Storage v) (itemPrefix v +:+ prefix)) []
                  (Forall_nil_2 _)) as Hall.
    rewrite Forall_forall in Hall. apply Hall, Hin. }
  repeat split.
  - intros entropy content. unfold Put, checkReservedName. rewrite Hid. reflexivity.
  - intros s. unfold Get, checkReservedName. rewrite Hid. reflexivity.
  - unfold Get, checkReservedName. rewrite Hid. reflexivity.
  - unfold Remove, checkReservedName. rewrite Hid. reflexivity.
  - intros prefix Hin. apply Hlist in Hin. congruence.
  - exact Hlist.
Qed.

Lemma newCipher_errors v e :
  newCipher v = Err e ->
  (exists s, e = ErrUnsupportedEncryption s) \/ (exists s, e = ErrExternal s).
Proof.
  unfold newCipher.
  assert (Hnew : forall k (f : AES.Block -> outcome (option AES.Block)),
            obind (AES.NewCipher k) f = Err e ->
            (forall b, f b <> Err e) -> exists s, e = ErrExternal s).
  { intros k f. unfold AES.NewCipher. case_bool_decide; cbn [obind].
    - intros Hf Hno. destruct (Hno _ Hf).
    - intros [= <-] _. eauto. }
  repeat case_decide; try discriminate;
    try (intros Hc; right; apply Hnew in Hc; [exact Hc | discriminate]).
  intros [= <-]. eauto.
Qed.

Lemma decryptBlock_errors v content e :
  decryptBlock v content = Err e ->
  e = ErrIncorrectChecksum
  \/ (exists s, e = ErrUnsupportedEncryption s)
  \/ (exists s, e = ErrUnsupportedChecksum s)
  \/ (exists s, e = ErrExternal s).
Proof.
  unfold decryptBlock.
  destruct (newCipher v) as [[blk|]|e'|] eqn:Ec; cbn [obind]; try discriminate.
  2:{ intros [= <-]. apply newCipher_errors in Ec. tauto. }
  unfold newChecksum. case_decide; cbn [obind].
  2:{ intros [= <-]. eauto 6. }
  unfold slice_from, slice, make, CTR.NewCTR, CTR.XORKeyStream.
  repeat first
    [ discriminate
    | match goal with
      | |- context [if ?c then Ok _ else Panic _] => destruct c; cbn [obind]
      | |- context [if ?c then Panic _ else Ok _] => destruct c; cbn [obind]
      | |- context [if negb ?c then Err _ else _] => destruct (negb c)
      end ].
  all: intros [= <-]; auto.
Qed.

Lemma open_variant_prefix (st : S) creds prefix v :
  open_variant st creds prefix = Ok v ->
  itemPrefix v = prefix
  /\ Storage v = st
  /\ unmarshalFormat (default [] (fst (GetBlock st (prefix +:+ "format")))) = inr (Format v)
  /\ masterKey v = getMasterKey creds (UniqueID (Format v)).
Proof.
  unfold open_variant, formatBlockID.
  destruct (unmarshalFormat _) as [msg|format]; cbn [json obind]; [discriminate|].
  destruct (decryptBlock _ _) as [cfg| |]; cbn [obind]; try discriminate.
  destruct (unmarshalRepositoryConfig cfg) as [msg|rc]; cbn [json obind]; [discriminate|].
  intros [= <-]. cbn. auto.
Qed.

Lemma open_variant_error (st : S) creds prefix :
  open_variant st creds prefix <> Err ErrFormatBlockNotFound.
Proof.
  unfold open_variant.
  destruct (unmarshalFormat _) as [msg|format]; cbn [json obind]; [discriminate|].
  destruct (decryptBlock _ _) as [cfg|e|] eqn:E; cbn [obind]; try discriminate.
  - destruct (unmarshalRepositoryConfig cfg); cbn [json obind]; discriminate.
  - apply decryptBlock_errors in E.
    destruct E as [->|[[s ->]|[[s ->]|[s ->]]]]; discriminate.
Qed.

Lemma Open_unprefixed (st : S) (creds : Credentials) :
  fst (GetBlock st "format") <> None ->
  Open st creds = open_variant st creds "".
Proof.
  intros Hf. unfold Open, open_variant, formatBlockID, repositoryConfigBlockID,
    colocatedVaultItemPrefix. cbn [nth].
  rewrite (bool_decide_eq_false_2 _ Hf). cbn [andb]. reflexivity.
Qed.

Lemma Open_prefixed (st : S) (creds : Credentials) :
  fst (GetBlock st "format") = None ->
  fst (GetBlock st "VLTformat") <> None ->
  Open st creds = open_variant st creds "VLT".
Proof.
  intros Hf Hv. unfold Open, open_variant, formatBlockID, repositoryConfigBlockID,
    colocatedVaultItemPrefix. cbn [nth].
  change ("VLT" +:+ "format")%string with "VLTformat"%string.
  rewrite (bool_decide_eq_true_2 _ Hf), (bool_decide_eq_false_2 _ Hv).
  cbn [andb]. reflexivity.
Qed.

Lemma Open_no_format (st : S) (creds : Credentials) :
  fst (GetBlock st "format") = None ->
  fst (GetBlock st "VLTformat") = None ->
  Open st creds = Err ErrFormatBlockNotFound.
Proof.
  intros Hf Hv. unfold Open, formatBlockID, colocatedVaultItemPrefix. cbn [nth].
  change ("VLT" +:+ "format")%string with "VLTformat"%string.
  rewrite (bool_decide_eq_true_2 _ Hf), (bool_decide_eq_true_2 _ Hv).
  reflexivity.
Qed.

(** C7: whatever the store holds, [Open] fails with the format-block-not-
    found error exactly when the store has neither the block "format" nor
    the block "VLTformat".  Otherwise it continues with one variant: the
    unprefixed one when "format" is there, also when "VLTformat" is there
    too, and the prefixed one when only "VLTformat" is there; a vault it
    returns has the item prefix of that variant, the empty string or "VLT",
    and the format decoded from that variant's format block. *)
Theorem Open_selects_variant (st : S) (creds : Credentials) :
  let found (name : string) := fst (GetBlock st name) in
  (Open st creds = Err ErrFormatBlockNotFound
     <-> found "format"%string = None /\ found "VLTformat"%string = None)
  /\ (found "format"%string <> None ->
        Open st creds = open_variant st creds "")
  /\ (found "format"%string = None -> found "VLTformat"%string <> None ->
        Open st creds = open_variant st creds "VLT")
  /\ (forall v, Open st creds = Ok v ->
        itemPrefix v = match found "format"%string with
                       | Some _ => ""%string
                       | None => "VLT"%string
                       end
        /\ unmarshalFormat (default [] (found (itemPrefix v +:+ "format")%string))
           = inr (Format v)).
Proof.
  intros found.
  pose proof (Open_unprefixed st creds) as Hplain.
  pose proof (Open_prefixed st creds) as Hcoloc.
  pose proof (Open_no_format st creds) as Hnone.
  fold (found "format"%string) in Hplain, Hcoloc, Hnone.
  fold (found "VLTformat"%string) in Hcoloc, Hnone.
  split; [|split; [exact Hplain|split; [exact Hcoloc|]]].
  - split.
    + intros Hopen.
      destruct (found "format"%string) as [raw|] eqn:Ef.
      * exfalso. rewrite Hplain in Hopen by discriminate.
        exact (open_variant_error _ _ _ Hopen).
      * destruct (found "VLTformat"%string) as [raw|] eqn:Ev; [|auto].
        exfalso. rewrite Hcoloc in Hopen by (reflexivity || discriminate).
        exact (open_variant_error _ _ _ Hopen).
    + intros [Hf Hv]. apply Hnone; assumption.
  - intros v Hopen.
    destruct (found "format"%string) as [raw|] eqn:Ef.
    + rewrite Hplain in Hopen by discriminate.
      apply open_variant_prefix in Hopen. destruct Hopen as (Hp & _ & Hfmt & _).
      rewrite Hp. split; [reflexivity|exact Hfmt].
    + destruct (found "VLTformat"%string) as [raw|] eqn:Ev.
      * rewrite Hcoloc in Hopen by (reflexivity || discriminate).
        apply open_variant_prefix in Hopen. destruct Hopen as (Hp & _ & Hfmt & _).
        rewrite Hp. split; [reflexivity|exact Hfmt].
      * rewrite Hnone in Hopen by reflexivity. discriminate.
Qed.

Lemma Get_reads_block v (itemID : string) content :
  isReservedName itemID = false ->
  GetBlock (Storage v) (itemPrefix v +:+ itemID) = (Some content, None) ->
  Get v itemID = decryptBlock v content.
Proof.
  intros Hid Hget. unfold Get, checkReservedName, readEncryptedBlock.
  rewrite Hid, Hget. reflexivity.
Qed.

(** C9: under an AES format [decryptBlock] checks no minimum length.  A
    block shorter than 32 bytes always panics on the negative slice bound,
    and so do [Get] of an item stored as such a block and [Open] when the
    configuration block of the chosen variant is that short (or missing).
    A block of 32 to 47 bytes is answered with the checksum error unless
    its last 32 bytes are the HMAC of the bytes before them; when they
    are, allocating the plaintext with a negative length panics.  No
    block shorter than 48 bytes decrypts. *)
Theorem short_block_not_checked v content (itemID : string)
    (st : S) (creds : Credentials) :
  is_aes (Encryption (Format v)) ->
  Checksum (Format v) = "hmac-sha-256"%string ->
  (length content < 48)%nat ->
  ((length content < 32)%nat ->
     decryptBlock v content = Panic "slice bounds out of range"
     /\ (isReservedName itemID = false ->
         GetBlock (Storage v) (itemPrefix v +:+ itemID) = (Some content, None) ->
         Get v itemID = Panic "slice bounds out of range")
     /\ (fst (GetBlock st "format") <> None ->
         unmarshalFormat (default [] (fst (GetBlock st "format"))) = inr (Format v) ->
         default [] (fst (GetBlock st "repo")) = content ->
         Open st creds = Panic "slice bounds out of range"))
  /\ ((32 <= length content)%nat ->
      decryptBlock v content
      = if bool_decide (HMAC.sum (mac_key v) (take (length content - 32) content)
                        = drop (length content - 32) content)
        then Panic "makeslice: len out of range"
        else Err ErrIncorrectChecksum)
  /\ (forall plaintext, decryptBlock v content <> Ok plaintext).
Proof.
  intros Haes Hmac Hshort.
  assert (Hcases := decryptBlock_aes v content Haes Hmac).
  unfold decrypt_cases in Hcases.
  split; [|split].
  - intros H32. rewrite (proj2 (Nat.ltb_lt _ 32) H32) in Hcases.
    split; [exact Hcases|split].
    + intros Hid Hget. rewrite (Get_reads_block v itemID content Hid Hget).
      exact Hcases.
    + intros Hfound Hfmt Hrepo.
      rewrite (Open_unprefixed st creds Hfound).
      unfold open_variant, formatBlockID, repositoryConfigBlockID.
      change ("" +:+ "format")%string with "format"%string.
      change ("" +:+ "repo")%string with "repo"%string.
      rewrite Hfmt, Hrepo. cbn [json obind].
      rewrite decryptBlock_aes by assumption.
      unfold decrypt_cases. rewrite (proj2 (Nat.ltb_lt _ 32) H32). reflexivity.
  - intros H32. rewrite Hcases, (proj2 (Nat.ltb_ge _ 32) H32).
    rewrite (proj2 (Nat.ltb_lt _ 48) Hshort).
    destruct (bool_decide _); reflexivity.
  - intros plaintext. rewrite Hcases, (proj2 (Nat.ltb_lt _ 48) Hshort).
    destruct (_ <? 32)%nat; [discriminate|].
    destruct (negb _); discriminate.
Qed.

End Items.

(** ** The vault on concrete inputs *)

Section VaultExamples.
Import storage vault vault_spec.

Lemma decrypt_write_roundtrip_witness :
  exists blk,
    sealBlock aes256 example_entropy hello = Ok blk
    /\ writeEncryptedBlock aes256 example_entropy "alpha" hello
       = (Ok tt, {[ "alpha"%string := blk ]})
    /\ decryptBlock aes256 blk = Ok hello.
Proof.
  destruct (decrypt_write_roundtrip aes256 example_entropy "alpha" hello) as [Hex _].
  - right. right. right. reflexivity.
  - intros _. split; [reflexivity | vm_compute; lia].
  - destruct Hex as (blk & Hseal & Hwrite & Hdec).
    exists blk. repeat split; [exact Hseal | | exact Hdec].
    rewrite Hwrite. reflexivity.
Defined.

Lemma persisted_block_layout_witness :
  exists blk,
    sealBlock aes256 example_entropy hello = Ok blk /\ length blk = 53%nat.
Proof.
  destruct (persisted_block_layout aes256 example_entropy "alpha" hello)
    as (Hseal & _ & _ & _ & _ & _ & H53).
  - right. right. reflexivity.
  - reflexivity.
  - vm_compute. lia.
  - eexists. split; [exact Hseal | apply H53; reflexivity].
Defined.

(** Bit 3 lies in the IV, bit 140 in the body and bit 400 in the tag of
    the 53-byte block. *)
Lemma flipped_bit_detection_witness :
  decryptBlock aes256
    (flip_bit (block_layout aes256 (take 16 example_entropy) hello) 3)
  = Err ErrIncorrectChecksum
  /\ decryptBlock aes256
       (flip_bit (block_layout aes256 (take 16 example_entropy) hello) 140)
     = Err ErrIncorrectChecksum
  /\ decryptBlock aes256
       (flip_bit (block_layout aes256 (take 16 example_entropy) hello) 400)
     = Err ErrIncorrectChecksum.
Proof.
  assert (Haes : is_aes (Encryption (Format aes256))) by (right; right; reflexivity).
  assert (Hent : (16 <= length example_entropy)%nat) by (vm_compute; lia).
  split; [|split].
  - destruct (flipped_bit_detection aes256 example_entropy hello 3 Haes eq_refl Hent)
      as (_ & _ & _ & Hbody); [vm_compute; lia|].
    apply Hbody; [vm_compute; lia|].
    apply (bool_decide_eq_false_1 (_ = _)). vm_compute. reflexivity.
  - destruct (flipped_bit_detection aes256 example_entropy hello 140 Haes eq_refl Hent)
      as (_ & _ & _ & Hbody); [vm_compute; lia|].
    apply Hbody; [vm_compute; lia|].
    apply (bool_decide_eq_false_1 (_ = _)). vm_compute. reflexivity.
  - destruct (flipped_bit_detection aes256 example_entropy hello 400 Haes eq_refl Hent)
      as (_ & _ & Htag & _); [vm_compute; lia|].
    apply Htag. vm_compute. lia.
Defined.

Lemma reserved_names_rejected_witness :
  Put aes256 example_entropy "repo" hello = (Err (ErrInvalidItemName "repo"), ∅)
  /\ Get aes256 "repo" = Err (ErrInvalidItemName "repo")
  /\ Remove aes256 "repo" = (Some (ErrInvalidItemName "repo"), ∅)
  /\ "repo"%string ∉ fst (List aes256 "").
Proof.
  destruct (reserved_names_rejected aes256 "repo") as (Hput & _ & Hget & Hrem & Hlist & _).
  - right. reflexivity.
  - split; [apply Hput | split; [exact Hget | split; [exact Hrem | apply Hlist]]].
Defined.

(** [Open] on stores held in memory: nothing to open; a colocated vault,
    whose only item is then listed without the reserved blocks; and a store
    holding both variants, where the unprefixed one is taken. *)
Example Open_empty_store :
  Open (∅ : gmap string bytes) example_credentials = Err ErrFormatBlockNotFound.
Proof. reflexivity. Qed.

Example Open_colocated_store :
  omap_outcome
    (fun v => (itemPrefix v, Encryption (Format v), List v "", Get v "alpha",
               fst (Put v [] "beta" hello)))
    (Open colocated_store example_credentials)
  = Ok ("VLT"%string, "none"%string, (["alpha"%string], None),
        Ok (bytes_of_string "data"), Ok tt).
Proof. vm_compute. reflexivity. Qed.

Example Open_both_variants :
  omap_outcome (fun v => (itemPrefix v, RepoConfig v))
    (Open both_store example_credentials)
  = Ok (""%string, Some {| Connection := None; RepoFormat_ := Some "other"%string |}).
Proof. vm_compute. reflexivity. Qed.

(** What [Put] stored, [Get] returns. *)
Lemma mem_Put_Get (v : Vault (gmap string bytes)) entropy (itemID : string) plaintext :
  Encryption (Format v) = "none"%string \/ is_aes (Encryption (Format v)) ->
  (Encryption (Format v) <> "none"%string ->
     Checksum (Format v) = "hmac-sha-256"%string /\ (16 <= length entropy)%nat) ->
  isReservedName itemID = false ->
  exists blk,
    Put v entropy itemID plaintext
    = (Ok tt, <[ (itemPrefix v +:+ itemID)%string := blk ]> (Storage v))
    /\ Get (with_storage v (<[ (itemPrefix v +:+ itemID)%string := blk ]> (Storage v)))
           itemID = Ok plaintext.
Proof.
  intros Henc Hrest Hid.
  assert (Hseal : exists blk, sealBlock v entropy plaintext = Ok blk
                              /\ decryptBlock v blk = Ok plaintext).
  { destruct Henc as [Hnone|Haes].
    - exists plaintext. split; [apply sealBlock_none | apply decryptBlock_none]; exact Hnone.
    - assert (Hne : Encryption (Format v) <> "none"%string)
        by (destruct Haes as [E|[E|E]]; rewrite E; discriminate).
      destruct (Hrest Hne) as [Hmac Hent].
      exists (block_layout v (take 16 entropy) plaintext). split.
      + apply sealBlock_aes; assumption.
      + apply decrypt_layout; try assumption. rewrite length_take. lia. }
  destruct Hseal as (blk & Hseal & Hdec). exists blk. split.
  - unfold Put, checkReservedName. rewrite Hid.
    rewrite (writeEncryptedBlock_sealed v entropy itemID plaintext blk Hseal).
    reflexivity.
  - unfold Get, checkReservedName, readEncryptedBlock. rewrite Hid.
    cbn [with_storage Storage itemPrefix GetBlock mem_storage].
    rewrite lookup_insert_eq. cbn [default]. exact Hdec.
Qed.

Lemma short_block_not_checked_witness :
  Get (example_vault "aes-256" short_store) "alpha" = Panic "slice bounds out of range"
  /\ Open short_store example_credentials
     = Panic "slice bounds out of range".
Proof.
  assert (Haes : is_aes (Encryption (Format (example_vault "aes-256" short_store))))
    by (right; right; reflexivity).
  split.
  - destruct (short_block_not_checked (example_vault "aes-256" short_store)
                (replicate 31 x00) "alpha" short_store
                example_credentials Haes eq_refl)
      as ((_ & Hget & _) & _); [vm_compute; lia | vm_compute; lia |].
    apply Hget; reflexivity.
  - destruct (short_block_not_checked (example_vault "aes-256" short_store)
                (replicate 20 x00) "alpha" short_store
                example_credentials Haes eq_refl)
      as ((_ & _ & Hopen) & _); [vm_compute; lia | vm_compute; lia |].
    apply Hopen; [discriminate | reflexivity | reflexivity].
Defined.

(** A block of 32 zero bytes is shorter than 48 bytes, and it is rejected
    with the checksum error rather than by a panic. *)
Lemma short_block_rejected_with_error :
  (length (replicate 32 x00) < 48)%nat
  /\ decryptBlock aes256 (replicate 32 x00) = Err ErrIncorrectChecksum.
Proof. split; [vm_compute; lia | vm_compute; reflexivity]. Qed.

End VaultExamples.

(** ** The ignore engine *)

Section IgnoreContexts.
Import ignorefs ignore_spec.
Context `{GitIgnore}.
Implicit Types (c p : ignoreContext) (d : ignoreDirectory) (entries : list Entry).

Lemma shouldIncludeByName_unfold c path e :
  shouldIncludeByName c path e
  = if existsb (fun m : Matcher => m path (IsDir e)) (matchers c)
    then (false, map (fun oi => {| callee := oi; call_path := path; call_entry := e |})
                     (onIgnore c))
    else match parent c with
         | None => (true, [])
         | Some p => shouldIncludeByName p path e
         end.
Proof. destruct c; reflexivity. Qed.

(** A context rejects whatever its parent rejects. *)
Lemma parent_rejection_inherited c p path e :
  parent c = Some p ->
  fst (shouldIncludeByName p path e) = false ->
  fst (shouldIncludeByName c path e) = false.
Proof.
  intros Hp Hrej. rewrite shouldIncludeByName_unfold, Hp.
  destruct (existsb _ _); [reflexivity | exact Hrej].
Qed.

Lemma loadDotIgnoreFiles_with_parent c q dirPath entries dotfiles :
  loadDotIgnoreFiles (with_parent c q) dirPath entries dotfiles
  = omap_outcome (fun c' => with_parent c' q)
      (loadDotIgnoreFiles c dirPath entries dotfiles).
Proof.
  revert c. induction dotfiles as [|f rest IH]; intros c; cbn [loadDotIgnoreFiles].
  - reflexivity.
  - destruct (FindByName entries f) as [[name size lines| |]|]; try apply IH.
    destruct (parseIgnoreFile dirPath lines) as [ms| |]; try reflexivity.
    apply (IH (IgnoreContext (parent c) (policyGetter c) (onIgnore c)
                 (dotIgnoreFiles c) (matchers c ++ ms) (maxFileSize c))).
Qed.

Lemma overrideFromPolicy_with_parent c q policy dirPath :
  overrideFromPolicy (with_parent c q) policy dirPath
  = omap_outcome (fun c' => with_parent c' q) (overrideFromPolicy c policy dirPath).
Proof.
  unfold overrideFromPolicy. cbn [with_parent matchers dotIgnoreFiles maxFileSize
    parent policyGetter onIgnore].
  destruct (appendRules dirPath (IgnoreRules policy) _); reflexivity.
Qed.

Lemma loadDotIgnoreFiles_parent c dirPath entries dotfiles c' :
  loadDotIgnoreFiles c dirPath entries dotfiles = Ok c' ->
  parent c' = parent c /\ policyGetter c' = policyGetter c
  /\ onIgnore c' = onIgnore c /\ dotIgnoreFiles c' = dotIgnoreFiles c
  /\ maxFileSize c' = maxFileSize c.
Proof.
  revert c. induction dotfiles as [|f rest IH]; intros c; cbn [loadDotIgnoreFiles].
  - intros [= <-]. auto.
  - destruct (FindByName entries f) as [[name size lines| |]|]; try apply IH.
    destruct (parseIgnoreFile dirPath lines) as [ms| |]; try discriminate.
    intros Hload. apply IH in Hload. exact Hload.
Qed.

Lemma loadDotIgnoreFiles_absent c dirPath entries dotfiles :
  (forall f, f ∈ dotfiles -> FindByName entries f = None) ->
  loadDotIgnoreFiles c dirPath entries dotfiles = Ok c.
Proof.
  induction dotfiles as [|f rest IH]; intros Habs; cbn [loadDotIgnoreFiles].
  - reflexivity.
  - rewrite (Habs f) by (left). apply IH. intros g Hg. apply Habs. right. exact Hg.
Qed.

Lemma overrideFromPolicy_parent c policy dirPath c' :
  overrideFromPolicy c policy dirPath = Ok c' -> parent c' = parent c.
Proof.
  unfold overrideFromPolicy.
  destruct (appendRules _ _ _); cbn [obind]; try discriminate.
  intros [= <-]. reflexivity.
Qed.

(** On a context without matchers the flag is without effect. *)
Lemma overrideFromPolicy_flag c policy dirPath (b : bool) :
  matchers c = [] ->
  overrideFromPolicy c (with_NoParentIgnoreRules policy b) dirPath
  = overrideFromPolicy c policy dirPath.
Proof.
  intros Hm. unfold overrideFromPolicy, with_NoParentIgnoreRules.
  cbn [NoParentIgnoreRules NoParentDotIgnoreFiles DotIgnoreFiles MaxFileSize IgnoreRules].
  rewrite Hm. destruct b, (NoParentIgnoreRules policy); reflexivity.
Qed.

Lemma childContext_parent d entries policy dotfiles c :
  childContext d entries policy dotfiles = Ok c ->
  parent c = Some (parentContext d).
Proof.
  unfold childContext. destruct policy as [policy|]; cbn [obind].
  - destruct (overrideFromPolicy _ policy _) as [c1| |] eqn:Eo; cbn [obind];
      try discriminate.
    intros Hload. apply loadDotIgnoreFiles_parent in Hload.
    apply overrideFromPolicy_parent in Eo. destruct Hload as [-> _]. exact Eo.
  - intros Hload. apply loadDotIgnoreFiles_parent in Hload.
    destruct Hload as [-> _]. reflexivity.
Qed.

Lemma buildContext_policy d entries policy :
  policyGetter (parentContext d) (relativePath d) = Ok (Some policy) ->
  buildContext d entries = childContext d entries (Some policy) (DotIgnoreFiles policy).
Proof.
  intros Hp. unfold buildContext. rewrite Hp.
  rewrite (bool_decide_eq_false_2 (Some policy = None)) by discriminate.
  rewrite andb_false_r. reflexivity.
Qed.

Lemma filterEntries_kept d c entries k :
  k ∈ fst (filterEntries d c entries) ->
  underlying k ∈ entries
  /\ fst (shouldIncludeByName c (relativePath d +:+ "/" +:+ Name (underlying k))
            (underlying k)) = true.
Proof.
  induction entries as [|e rest IH]; cbn [filterEntries].
  - cbn. intros Hin. inversion Hin.
  - destruct (shouldIncludeByName c _ e) as [include calls] eqn:Einc.
    destruct (filterEntries d c rest) as [result calls'].
    cbn [fst] in IH.
    assert (Hrest : k ∈ result ->
              underlying k ∈ e :: rest
              /\ fst (shouldIncludeByName c
                        (relativePath d +:+ "/" +:+ Name (underlying k))
                        (underlying k)) = true).
    { intros Hk. destruct (IH Hk) as [Hin Hok]. split; [right; exact Hin | exact Hok]. }
    destruct include; cbn [negb]; [|exact Hrest].
    destruct (_ && _); [exact Hrest|].
    cbn [fst]. intros Hin. apply elem_of_cons in Hin. destruct Hin as [->|Hin].
    + assert (Hu : underlying
                     match e with
                     | Directory name size listing =>
                         Wrapped {| relativePath := relativePath d +:+ "/" +:+ Name e;
                                    parentContext := c; dir_name := name;
                                    dir_size := size; dir_listing := listing |}
                     | _ => Plain e
                     end = e) by (destruct e; reflexivity).
      rewrite Hu. split; [left | rewrite Einc; reflexivity].
    + apply Hrest, Hin.
Qed.

(** C4, as the code has it: the context built for a directory whose
    policy sets [NoParentIgnoreRules] still hangs below the parent's
    context and still rejects every path the parent's context rejects, so
    that [Readdir] keeps no entry the inherited rules reject; and the
    context is the one built when the flag is clear. *)
Theorem NoParentIgnoreRules_keeps_inherited_rules d entries policy c :
  policyGetter (parentContext d) (relativePath d) = Ok (Some policy) ->
  NoParentIgnoreRules policy = true ->
  buildContext d entries = Ok c ->
  parent c = Some (parentContext d)
  /\ (forall path e,
        fst (shouldIncludeByName (parentContext d) path e) = false ->
        fst (shouldIncludeByName c path e) = false)
  /\ (forall k, k ∈ fst (filterEntries d c entries) ->
        fst (shouldIncludeByName (parentContext d)
               (relativePath d +:+ "/" +:+ Name (underlying k)) (underlying k)) = true)
  /\ childContext d entries (Some (with_NoParentIgnoreRules policy false))
       (DotIgnoreFiles policy) = Ok c.
Proof.
  intros Hp Hflag Hbuild. rewrite (buildContext_policy d entries policy Hp) in Hbuild.
  pose proof (childContext_parent _ _ _ _ _ Hbuild) as Hparent.
  assert (Hinh : forall path e,
             fst (shouldIncludeByName (parentContext d) path e) = false ->
             fst (shouldIncludeByName c path e) = false).
  { intros path e. apply parent_rejection_inherited, Hparent. }
  split; [exact Hparent|split; [exact Hinh|split]].
  - intros k Hk. apply filterEntries_kept in Hk. destruct Hk as [_ Hok].
    destruct (fst (shouldIncludeByName (parentContext d) _ (underlying k))) eqn:E;
      [reflexivity|].
    apply Hinh in E. congruence.
  - rewrite <- Hbuild. unfold childContext.
    rewrite overrideFromPolicy_flag by reflexivity. reflexivity.
Qed.

(** *** Reusing the parent's context *)

Lemma same_filter_refl c : same_filter c c.
Proof. split; reflexivity. Qed.

Lemma same_filter_with_parent c0 c1 c2 :
  same_filter c1 c2 ->
  policyGetter c0 = policyGetter c1 -> onIgnore c0 = onIgnore c1 ->
  same_filter (with_parent c0 (Some c1)) (with_parent c0 (Some c2)).
Proof.
  intros Hsf Hg Ho. split; try reflexivity.
  intros path e. rewrite !shouldIncludeByName_unfold.
  cbn [with_parent matchers parent onIgnore].
  destruct (existsb _ _); [reflexivity | apply (sf_include _ _ Hsf)].
Qed.

(** The context built below [c1] and the one built below [c2] filter
    alike when [c1] and [c2] do. *)
Lemma childContext_same_filter d c1 c2 entries policy dotfiles :
  same_filter c1 c2 ->
  match childContext (under d c1) entries policy dotfiles,
        childContext (under d c2) entries policy dotfiles with
  | Ok c1', Ok c2' =>
      same_filter c1' c2' /\ policyGetter c1' = policyGetter c1
      /\ onIgnore c1' = onIgnore c1
  | Err e1, Err e2 => e1 = e2
  | Panic m1, Panic m2 => m1 = m2
  | _, _ => False
  end.
Proof.
  intros Hsf. unfold childContext. cbn [under parentContext relativePath].
  rewrite <- (sf_getter _ _ Hsf), <- (sf_onIgnore _ _ Hsf), <- (sf_maxFileSize _ _ Hsf).
  set (c0 := IgnoreContext None (policyGetter c1) (onIgnore c1) dotfiles []
               (maxFileSize c1)).
  change (IgnoreContext (Some c1) (policyGetter c1) (onIgnore c1) dotfiles []
            (maxFileSize c1)) with (with_parent c0 (Some c1)).
  change (IgnoreContext (Some c2) (policyGetter c1) (onIgnore c1) dotfiles []
            (maxFileSize c1)) with (with_parent c0 (Some c2)).
  assert (Hstep : forall q : ignoreContext,
             obind (match policy with
                    | Some policy0 =>
                        overrideFromPolicy (with_parent c0 (Some q)) policy0 (relativePath d)
                    | None => Ok (with_parent c0 (Some q))
                    end)
               (fun newic => loadDotIgnoreFiles newic (relativePath d) entries dotfiles)
             = omap_outcome (fun c' => with_parent c' (Some q))
                 (obind (match policy with
                         | Some policy0 => overrideFromPolicy c0 policy0 (relativePath d)
                         | None => Ok c0
                         end)
                    (fun newic =>
                       loadDotIgnoreFiles newic (relativePath d) entries dotfiles))).
  { intros q. destruct policy as [policy|].
    - rewrite overrideFromPolicy_with_parent.
      destruct (overrideFromPolicy c0 policy (relativePath d)) as [c'| |];
        cbn [omap_outcome obind]; try reflexivity.
      apply loadDotIgnoreFiles_with_parent.
    - cbn [obind]. apply loadDotIgnoreFiles_with_parent. }
  rewrite !Hstep.
  destruct (obind _ _) as [c'|e|m] eqn:Ec; cbn [omap_outcome]; try reflexivity.
  assert (Hkeep : policyGetter c' = policyGetter c1 /\ onIgnore c' = onIgnore c1).
  { destruct policy as [policy|]; cbn [obind] in Ec.
    - destruct (overrideFromPolicy c0 policy (relativePath d)) as [c''| |] eqn:Eo;
        cbn [obind] in Ec; try discriminate.
      apply loadDotIgnoreFiles_parent in Ec. destruct Ec as (_ & -> & -> & _).
      unfold overrideFromPolicy in Eo.
      destruct (appendRules _ _ _); cbn [obind] in Eo; try discriminate.
      injection Eo as <-. split; reflexivity.
    - apply loadDotIgnoreFiles_parent in Ec. destruct Ec as (_ & -> & -> & _).
      split; reflexivity. }
  destruct Hkeep as [Hg Ho].
  split; [|split; [exact Hg | exact Ho]].
  apply same_filter_with_parent; assumption.
Qed.

Lemma buildContext_same_filter d c1 c2 entries :
  same_filter c1 c2 ->
  match buildContext (under d c1) entries, buildContext (under d c2) entries with
  | Ok c1', Ok c2' => same_filter c1' c2'
  | Err e1, Err e2 => e1 = e2
  | Panic m1, Panic m2 => m1 = m2
  | _, _ => False
  end.
Proof.
  intros Hsf. unfold buildContext.
  change (parentContext (under d c1)) with c1.
  change (parentContext (under d c2)) with c2.
  change (relativePath (under d c1)) with (relativePath d).
  change (relativePath (under d c2)) with (relativePath d).
  rewrite <- (sf_getter _ _ Hsf), <- (sf_dotIgnoreFiles _ _ Hsf).
  destruct (policyGetter c1 (relativePath d)) as [policy|e|m]; try reflexivity.
  destruct (negb _ && _).
  - exact Hsf.
  - pose proof (childContext_same_filter d c1 c2 entries policy
                  (match policy with
                   | Some policy0 => DotIgnoreFiles policy0
                   | None => dotIgnoreFiles c1
                   end) Hsf) as Hchild.
    destruct (childContext (under d c1) _ _ _), (childContext (under d c2) _ _ _);
      try exact Hchild.
    destruct Hchild as [Hchild _]. exact Hchild.
Qed.

(** What was kept under [c1] and what was kept under [c2]: the same
    entries, the directories wrapped with the one or the other context. *)
Inductive kept_alike : Kept -> Kept -> Prop :=
| alike_plain e : kept_alike (Plain e) (Plain e)
| alike_wrapped d c1 c2 :
    same_filter c1 c2 -> kept_alike (Wrapped (under d c1)) (Wrapped (under d c2)).

Lemma filterEntries_same_filter d c1 c2 entries :
  same_filter c1 c2 ->
  Forall2 kept_alike (fst (filterEntries d c1 entries)) (fst (filterEntries d c2 entries))
  /\ snd (filterEntries d c1 entries) = snd (filterEntries d c2 entries).
Proof.
  intros Hsf. induction entries as [|e rest [IHk IHc]]; cbn [filterEntries].
  - split; [constructor | reflexivity].
  - rewrite <- (sf_include _ _ Hsf), <- (sf_maxFileSize _ _ Hsf).
    destruct (shouldIncludeByName c1 _ e) as [include calls].
    destruct (filterEntries d c1 rest) as [r1 k1], (filterEntries d c2 rest) as [r2 k2].
    cbn [fst snd] in IHk, IHc. subst k2.
    destruct include; cbn [negb]; [|split; [exact IHk | reflexivity]].
    destruct (_ && _); [split; [exact IHk | reflexivity]|].
    split; [|reflexivity]. cbn [fst]. constructor; [|exact IHk].
    destruct e as [name size lines|name size listing|name size]; try constructor.
    apply (alike_wrapped
             {| relativePath := relativePath d +:+ "/" +:+ name;
                parentContext := c1; dir_name := name; dir_size := size;
                dir_listing := listing |} c1 c2 Hsf).
Qed.

Lemma filterEntries_under d c0 c entries :
  filterEntries (under d c0) c entries = filterEntries d c entries.
Proof.
  induction entries as [|e rest IH]; [reflexivity|].
  cbn [filterEntries]. rewrite IH. reflexivity.
Qed.

Lemma walk_unfold depth d :
  walk depth d
  = match dir_listing d with
    | Ok entries =>
        match buildContext d entries with
        | Ok c => seen_under depth d c entries
        | Err e => [Failed (relativePath d) (Err e)]
        | Panic m => [Failed (relativePath d) (Panic m)]
        end
    | Err e => [Failed (relativePath d) (Err e)]
    | Panic m => [Failed (relativePath d) (Panic m)]
    end.
Proof.
  unfold seen_under.
  destruct depth; cbn [walk below]; unfold Readdir;
    (destruct (dir_listing d) as [entries| |]; [|reflexivity|reflexivity]);
    (destruct (buildContext d entries) as [c| |]; [|reflexivity|reflexivity]);
    destruct (filterEntries d c entries); reflexivity.
Qed.

Lemma seen_same_filter (b : ignoreDirectory -> list Seen) d c1 c2 entries :
  (forall d' c1' c2', same_filter c1' c2' -> b (under d' c1') = b (under d' c2')) ->
  same_filter c1 c2 ->
  seen b d (filterEntries d c1 entries) = seen b d (filterEntries d c2 entries).
Proof.
  intros Hb Hsf.
  destruct (filterEntries_same_filter d c1 c2 entries Hsf) as [Hk Hc].
  unfold seen. rewrite Hc. f_equal.
  induction Hk as [|k1 k2 l1 l2 Hk12 _ IH]; [reflexivity|].
  cbn [flat_map]. rewrite IH. f_equal.
  destruct Hk12 as [e|d' c1' c2' Hsf']; [reflexivity|].
  unfold visit. cbn [underlying under relativePath dir_name dir_size dir_listing].
  f_equal. apply Hb, Hsf'.
Qed.

Lemma walk_same_filter depth d c1 c2 :
  same_filter c1 c2 -> walk depth (under d c1) = walk depth (under d c2).
Proof.
  revert d c1 c2. induction depth as [|depth IH]; intros d c1 c2 Hsf;
    rewrite !walk_unfold; cbn [under dir_listing relativePath];
    (destruct (dir_listing d) as [entries|e|m]; [|reflexivity|reflexivity]);
    pose proof (buildContext_same_filter d c1 c2 entries Hsf) as Hbuild;
    (destruct (buildContext (under d c1) entries) as [c1'|e1|m1],
              (buildContext (under d c2) entries) as [c2'|e2|m2];
     try contradiction; try (subst; reflexivity));
    unfold seen_under; rewrite !filterEntries_under;
    change (seen ?b (under d ?c) ?r) with (seen b d r).
  - apply seen_same_filter; [reflexivity | exact Hbuild].
  - apply seen_same_filter; [exact IH | exact Hbuild].
Qed.

(** C6: in a directory for which no policy applies and in whose listing
    none of the effective dotfile names appears, [buildContext] returns the
    parent's context itself, and building the new context instead
    succeeds; the new context makes [shouldIncludeByName] return the same
    decision with the same callback calls on every path and entry, and
    filtering the listing under the one or the other keeps the same
    entries, calls the same callbacks in the same order, and shows a client
    the same things in this directory and in every directory below it. *)
Theorem reuse_parent_same_as_fresh_child d entries :
  policyGetter (parentContext d) (relativePath d) = Ok None ->
  (forall dotfile, dotfile ∈ dotIgnoreFiles (parentContext d) ->
                   FindByName entries dotfile = None) ->
  exists fresh,
    buildContext d entries = Ok (parentContext d)
    /\ childContext d entries None (dotIgnoreFiles (parentContext d)) = Ok fresh
    /\ parent fresh = Some (parentContext d)
    /\ matchers fresh = []
    /\ (forall path e,
          shouldIncludeByName fresh path e
          = shouldIncludeByName (parentContext d) path e)
    /\ maxFileSize fresh = maxFileSize (parentContext d)
    /\ map underlying (fst (filterEntries d fresh entries))
       = map underlying (fst (filterEntries d (parentContext d) entries))
    /\ snd (filterEntries d fresh entries)
       = snd (filterEntries d (parentContext d) entries)
    /\ (forall depth,
          seen_under depth d fresh entries
          = seen_under depth d (parentContext d) entries).
Proof.
  intros Hpolicy Habsent.
  set (p := parentContext d) in *.
  set (fresh := IgnoreContext (Some p) (policyGetter p) (onIgnore p)
                  (dotIgnoreFiles p) [] (maxFileSize p)).
  assert (Hinc : forall path e,
             shouldIncludeByName fresh path e = shouldIncludeByName p path e).
  { intros path e. rewrite (shouldIncludeByName_unfold fresh). reflexivity. }
  assert (Hsf : same_filter fresh p) by (split; [exact Hinc | reflexivity..]).
  exists fresh. split; [|split; [|split; [|split; [|split; [|split]]]]].
  - unfold buildContext. fold p. rewrite Hpolicy.
    assert (Hnone : existsb (fun dotfile =>
                bool_decide (is_Some (FindByName entries dotfile)))
              (dotIgnoreFiles p) = false).
    { apply not_true_is_false. intros Hex. apply existsb_exists in Hex.
      destruct Hex as (f & Hf & Hsome). apply bool_decide_eq_true in Hsome.
      rewrite (Habsent f) in Hsome by (apply list_elem_of_In; exact Hf).
      destruct Hsome as [x Hx]. discriminate. }
    rewrite Hnone. reflexivity.
  - unfold childContext. cbn [obind]. fold p.
    apply loadDotIgnoreFiles_absent. exact Habsent.
  - reflexivity.
  - reflexivity.
  - exact Hinc.
  - reflexivity.
  - destruct (filterEntries_same_filter d fresh p entries Hsf) as [Hk Hc].
    split; [|split].
    + clear -Hk. induction Hk as [|k1 k2 l1 l2 Hk12 _ IH]; [reflexivity|].
      cbn [map]. rewrite IH. f_equal. destruct Hk12; reflexivity.
    + exact Hc.
    + intros depth. unfold seen_under. apply seen_same_filter; [|exact Hsf].
      destruct depth as [|depth']; cbn [below]; [reflexivity|].
      intros d' c1' c2'. apply walk_same_filter.
Qed.

End IgnoreContexts.

Section IgnoreExamples.
Import ignorefs ignore_spec.

(** Listing the root gives the two wrappers used below. *)
Lemma example_root_listing :
  Readdir (H := example_gitignore) example_root
  = (Ok [Wrapped example_plain; Wrapped example_sub], []).
Proof. vm_compute. reflexivity. Qed.

(** The directory "sub", whose policy sets [NoParentIgnoreRules], below a
    root whose policy ignores "*.log": "drop.log" is not returned, and the
    callback is called for it. *)
Lemma NoParentIgnoreRules_keeps_inherited_rules_witness :
  Readdir (H := example_gitignore) example_sub
  = (Ok [Plain keep_txt],
     [{| callee := 1%nat; call_path := "./sub/drop.log"; call_entry := drop_log |}])
  /\ exists c,
       buildContext (H := example_gitignore) example_sub [keep_txt; drop_log] = Ok c
       /\ parent c = Some example_root_context
       /\ fst (shouldIncludeByName c "./sub/drop.log" drop_log) = false.
Proof.
  split; [vm_compute; reflexivity|].
  destruct (buildContext (H := example_gitignore) example_sub [keep_txt; drop_log])
    as [c| |] eqn:Eb; [|vm_compute in Eb; discriminate Eb..].
  exists c. split; [reflexivity|].
  destruct (NoParentIgnoreRules_keeps_inherited_rules (H := example_gitignore)
              example_sub [keep_txt; drop_log]
              {| IgnoreRules := []; DotIgnoreFiles := [];
                 MaxFileSize := 0; NoParentIgnoreRules := true;
                 NoParentDotIgnoreFiles := false |} c)
    as (Hparent & Hinherit & _).
  - vm_compute. reflexivity.
  - reflexivity.
  - exact Eb.
  - split; [exact Hparent|]. apply Hinherit. vm_compute. reflexivity.
Defined.

Lemma reuse_parent_same_as_fresh_child_witness :
  exists fresh,
    buildContext (H := example_gitignore) example_plain [keep_txt; drop_log]
    = Ok example_root_context
    /\ childContext (H := example_gitignore) example_plain [keep_txt; drop_log] None
         [".kopiaignore"%string]
       = Ok fresh
    /\ snd (filterEntries example_plain fresh [keep_txt; drop_log])
       = snd (filterEntries example_plain example_root_context [keep_txt; drop_log]).
Proof.
  destruct (reuse_parent_same_as_fresh_child (H := example_gitignore)
              example_plain [keep_txt; drop_log])
    as (fresh & Hbuild & Hchild & _ & _ & _ & _ & _ & Hcalls & _).
  - vm_compute. reflexivity.
  - intros dotfile Hin. apply list_elem_of_singleton in Hin. subst dotfile.
    reflexivity.
  - exists fresh. split; [exact Hbuild | split; [exact Hchild | exact Hcalls]].
Defined.

(** Rules read from an ignore file: the comment and the blank line are
  skipped, "drop.log" is dropped in "b" and reported once. *)
Example ignore_file_rules :
walk (H := example_gitignore) 2 example_a
= [ Passed "./.kopiaignore" (File ".kopiaignore" 16 (Ok ["*.log"; "# comment"; "  "]%string));
    Passed "./b" (Directory "b" 0 sub_listing);
    Reported {| callee := 7%nat; call_path := "./b/drop.log"; call_entry := drop_log |};
    Passed "./b/keep.txt" keep_txt ].
Proof. vm_compute. reflexivity. Qed.

End IgnoreExamples.

(** ** The uploader *)

Section NodeInduction.
Import dir.
Variable P : Node -> Prop.
Hypothesis step : forall kind md src listing,
    match listing with
    | Ok nodes => Forall P nodes
    | _ => True
    end ->
    P (MkNode kind md src listing).

Fixpoint Node_nested_ind (n : Node) : P n :=
  match n with
  | MkNode kind md src listing =>
      step kind md src listing
        match listing as l
              return match l with Ok nodes => Forall P nodes | _ => True end with
        | Ok nodes =>
            (fix children (l : list Node) : Forall P l :=
               match l with
               | [] => Forall_nil_2 P
               | n' :: l' => Forall_cons_2 P n' l' (Node_nested_ind n') (children l')
               end) nodes
        | Err _ => I
        end
  end.
End NodeInduction.

Section MemManagerLaws.
Import dir upload_spec.

Lemma append_not_empty (s1 s2 : string) : s2 <> ""%string -> (s1 +:+ s2)%string <> ""%string.
Proof. destruct s1; [intros Hs; exact Hs | discriminate]. Qed.

Lemma hex_not_empty (bs : list byte) : bs <> [] -> hex bs <> ""%string.
Proof. destruct bs; [congruence | discriminate]. Qed.

Lemma object_id_not_empty prefix o : object_id prefix o <> ""%string.
Proof.
  unfold object_id. apply append_not_empty, hex_not_empty.
  intros Hnil. pose proof (sha256_sum_length (object_bytes o)) as Hlen.
  rewrite Hnil in Hlen. discriminate.
Qed.

#[global] Instance mem_manager_laws : ObjectManagerLaws MemManager.
Proof.
  split.
  - intros m m' desc prefix o finalize oid Hw. cbn in Hw.
    destruct (objects m !! object_id prefix o) as [o'|];
      [destruct (decide (o' = o))|]; simplify_eq; apply object_id_not_empty.
  - intros m m' desc prefix o finalize oid Hw. cbn in Hw.
    destruct (objects m !! object_id prefix o) as [o'|];
      [destruct (decide (o' = o))|]; simplify_eq; cbn;
      rewrite lookup_insert_eq; reflexivity.
  - intros m desc prefix o finalize oid' o' Hopen. cbn in Hopen |- *.
    destruct (objects m !! oid') as [o''|] eqn:Eo'; [|discriminate].
    injection Hopen as ->.
    destruct (objects m !! object_id prefix o) as [o1|] eqn:Eo;
      [destruct (decide (o1 = o)) as [->|]|]; cbn.
    + destruct (decide (object_id prefix o = oid')) as [<-|Hne].
      * rewrite lookup_insert_eq. congruence.
      * rewrite lookup_insert_ne, Eo' by exact Hne. reflexivity.
    + rewrite Eo'. reflexivity.
    + destruct (decide (object_id prefix o = oid')) as [<-|Hne].
      * congruence.
      * rewrite lookup_insert_ne, Eo' by exact Hne. reflexivity.
Qed.

End MemManagerLaws.

Section Uploader.
Import dir upload_spec.
Context {M : Type} `{ObjectManagerLaws M}.
Implicit Types (u : uploader) (n : Node) (m mgr : M) (st : @loopState M).

Lemma extends_refl m : extends m m.
Proof. intros oid o Ho. exact Ho. Qed.

Lemma extends_trans m1 m2 m3 : extends m1 m2 -> extends m2 m3 -> extends m1 m3.
Proof. intros H12 H23 oid o Ho. apply H23, H12, Ho. Qed.

Lemma WriteObject_extends m desc prefix o finalize :
  extends m (snd (WriteObject m desc prefix o finalize)).
Proof. intros oid' o' Ho. apply write_preserves, Ho. Qed.

Lemma all2_impl {A B} (R R' : A -> B -> Prop) (l1 : list A) (l2 : list B) :
  Forall (fun a => forall b, R a b -> R' a b) l1 -> all2 R l1 l2 -> all2 R' l1 l2.
Proof.
  intros Hall. revert l2. induction Hall as [|a l1 Ha _ IH]; intros [|b l2]; cbn; auto.
  intros [Hab Hrest]. split; [apply Ha, Hab | apply IH, Hrest].
Qed.

Lemma all2_length {A B} (R : A -> B -> Prop) (l1 : list A) (l2 : list B) :
  all2 R l1 l2 -> length l1 = length l2.
Proof.
  revert l2. induction l1 as [|a l1 IH]; intros [|b l2]; cbn; try tauto.
  intros [_ Hrest]. f_equal. apply IH, Hrest.
Qed.

Lemma stored_unfold m kind md src nodes oid :
  stored m (MkNode kind md src (Ok nodes)) oid
  <-> oid <> ""%string
      /\ exists es, Open m oid = Ok (DirObject {| Entries := es |})
                    /\ all2 (entry_for (stored m)) nodes es.
Proof. reflexivity. Qed.

(** What is stored stays stored when the store grows. *)
Lemma stored_extends m m' n oid :
  extends m m' -> stored m n oid -> stored m' n oid.
Proof.
  intros Hext. revert oid. induction n as [kind md src listing IH] using Node_nested_ind.
  destruct listing as [nodes|]; intros oid; [|exact id].
  rewrite !stored_unfold. intros (Hne & es & Hopen & Hall).
  split; [exact Hne|]. exists es. split; [apply Hext, Hopen|].
  revert Hall. apply all2_impl.
  eapply Forall_impl; [exact IH|]. cbn.
  intros n' Hn' e' [He' Hdir]. split; [exact He'|].
  intros Hty. apply Hn', Hdir, Hty.
Qed.

Lemma UploadFile_extends u path src m :
  extends m (snd (UploadFile u path src m)).
Proof.
  unfold UploadFile. destruct (open_error src); [apply extends_refl|].
  destruct (Copy src) as [copied err].
  pose proof (WriteObject_extends m ("FILE:" +:+ path) "F" (FileObject copied) false)
    as Hext.
  destruct (WriteObject _ _ _ _ _) as [[oid [e|]] m']; exact Hext.
Qed.

Lemma UploadDir_unfold u kind md src nodes path previous mgr :
  isCancelled u = false ->
  UploadDir u (MkNode kind md src (Ok nodes)) path previous mgr
  = match uploadEntries (UploadDir u) u path (readCached mgr previous) nodes
            (loop_start mgr previous nodes) with
    | (Some err, st) => ((content.NullObjectID, Some err), manager st)
    | (None, st) =>
        if directoryMatchesCache st && bool_decide (previous <> ""%string)
        then ((previous, None), manager st)
        else
          WriteObject (manager st) ("DIR:" +:+ path) "D"
            (WriteDir {| Entries := uploaded st |}) true
    end.
Proof. intros Hc. cbn [UploadDir]. rewrite Hc. reflexivity. Qed.

Lemma UploadDir_succeeds_on_listing u n path previous mgr R mgr' :
  UploadDir u n path previous mgr = ((R, None), mgr') ->
  isCancelled u = false /\ exists nodes, node_listing n = Ok nodes.
Proof.
  destruct n as [kind md src [nodes|e]]; cbn [UploadDir];
    destruct (isCancelled u); try discriminate.
  intros _. split; [reflexivity|]. exists nodes. reflexivity.
Qed.

(** *** The first run: everything is written *)

Definition first_run_stores u n : Prop :=
  forall path m R m',
    UploadDir u n path ""%string m = ((R, None), m') ->
    stored m' n R /\ extends m m'.

Lemma first_loop u path nodes :
  Forall (first_run_stores u) nodes ->
  forall st st',
    uploadEntries (UploadDir u) u path {| Entries := [] |} nodes st = (None, st') ->
    exists es,
      uploaded st' = uploaded st ++ es
      /\ extends (manager st) (manager st')
      /\ all2 (entry_for (stored (manager st'))) nodes es.
Proof.
  induction 1 as [|n rest Hn _ IH]; intros st st'; cbn [uploadEntries].
  - intros [= <-]. exists []. rewrite app_nil_r.
    split; [reflexivity | split; [apply extends_refl | exact I]].
  - change (FindEntryName {| Entries := [] |} (Name (entry_of n))) with (@None Entry).
    cbn [metadataEquals]. rewrite andb_false_r.
    case_bool_decide as Hty.
    + destruct (UploadDir u n (Join path (Name (entry_of n))) "" (manager st))
        as [[oid [err|]] mgr'] eqn:Eup; [discriminate|].
      intros Hloop. apply IH in Hloop. cbn [uploaded manager] in Hloop.
      destruct Hloop as (es & Hup & Hext & Hall).
      destruct (Hn _ _ _ _ Eup) as [Hst Hext0].
      exists (with_ObjectID (entry_of n) oid :: es).
      split; [rewrite Hup, <- app_assoc; reflexivity|].
      split; [eapply extends_trans; eassumption|].
      cbn [all2]. split; [|exact Hall].
      split; [reflexivity|]. intros _. cbn [with_ObjectID ObjectID].
      eapply stored_extends; eassumption.
    + pose proof (UploadFile_extends u (Join path (Name (entry_of n)))
                    (node_source n) (manager st)) as Hext0.
      destruct (UploadFile u _ (node_source n) (manager st))
        as [[oid [err|]] mgr']; [discriminate|].
      cbn [snd] in Hext0.
      intros Hloop. apply IH in Hloop. cbn [uploaded manager] in Hloop.
      destruct Hloop as (es & Hup & Hext & Hall).
      exists (with_ObjectID (entry_of n) oid :: es).
      split; [rewrite Hup, <- app_assoc; reflexivity|].
      split; [eapply extends_trans; eassumption|].
      cbn [all2]. split; [|exact Hall].
      split; [reflexivity|]. intros Hdir. contradiction.
Qed.

Lemma readCached_null mgr : readCached mgr ""%string = {| Entries := [] |}.
Proof. unfold readCached. rewrite bool_decide_eq_false_2 by (intros Hne; apply Hne; reflexivity). reflexivity. Qed.

Lemma first_run u n : first_run_stores u n.
Proof.
  induction n as [kind md src listing IH] using Node_nested_ind.
  intros path m R m' Hrun.
  destruct (UploadDir_succeeds_on_listing _ _ _ _ _ _ _ Hrun) as [Hc [nodes Hl]].
  cbn [node_listing] in Hl. subst listing.
  rewrite (UploadDir_unfold u kind md src nodes path "" m Hc) in Hrun.
  rewrite readCached_null in Hrun.
  destruct (uploadEntries _ _ _ _ _ _) as [[err|] st] eqn:Eloop; [discriminate|].
  rewrite (bool_decide_eq_false_2 (""%string <> ""%string)) in Hrun
    by (intros Hne; apply Hne; reflexivity).
  rewrite andb_false_r in Hrun.
  destruct (first_loop u path nodes IH _ _ Eloop) as (es & Hup & Hext & Hall).
  cbn [loop_start uploaded manager] in Hup, Hext. cbn [app] in Hup.
  pose proof (WriteObject_extends (manager st) ("DIR:" +:+ path) "D"
                (WriteDir {| Entries := uploaded st |}) true) as Hext'.
  destruct (WriteObject (manager st) _ _ _ _) as [[oid [e|]] mgr'] eqn:Ew;
    try discriminate.
  injection Hrun as <- <-. cbn [snd] in Hext'.
  split; [|eapply extends_trans; eassumption].
  apply stored_unfold. split; [eapply written_not_null; exact Ew|].
  exists es. split.
  - rewrite (written_opens _ _ _ _ _ _ _ Ew). unfold WriteDir. rewrite Hup. reflexivity.
  - revert Hall. apply all2_impl. apply Forall_forall. intros n' _ e' [He' Hdir].
    split; [exact He'|]. intros Hty. eapply stored_extends; [exact Hext'|].
    apply Hdir, Hty.
Qed.

(** *** The second run: nothing is written *)

Lemma metadataEquals_same e oid :
  metadataEquals e (Some (with_ObjectID e oid)) = true.
Proof.
  unfold metadataEquals, with_ObjectID. cbn.
  rewrite !bool_decide_eq_true_2 by reflexivity. reflexivity.
Qed.

(** With distinct names, looking a node's name up in a stored listing
    finds the node's own entry. *)
Lemma find_own_entry (R : Node -> content.ObjectID -> Prop) nodes es :
  all2 (entry_for R) nodes es ->
  NoDup (map (fun n' => Name (entry_of n')) nodes) ->
  forall n', n' ∈ nodes ->
    exists e', FindEntryName {| Entries := es |} (Name (entry_of n')) = Some e'
               /\ entry_for R n' e'.
Proof.
  unfold FindEntryName. cbn [Entries].
  revert es. induction nodes as [|n rest IH]; intros [|e es]; cbn [all2 map];
    try tauto.
  - intros _ _ n' Hin. inversion Hin.
  - intros [Hne Hrest] Hnodup n' Hin.
    assert (Hname : Name e = Name (entry_of n)).
    { destruct Hne as [-> _]. reflexivity. }
    apply NoDup_cons in Hnodup. destruct Hnodup as [Hfresh Hnodup].
    cbn [find]. apply elem_of_cons in Hin. destruct Hin as [->|Hin].
    + rewrite bool_decide_eq_true_2 by exact Hname. exists e. auto.
    + rewrite bool_decide_eq_false_2.
      * apply IH; assumption.
      * rewrite Hname. intros Heq. apply Hfresh.
        apply list_elem_of_fmap. exists n'. auto.
Qed.

Definition second_run_returns u n : Prop :=
  forall path m R,
    isCancelled u = false -> well_named n -> stored m n R ->
    UploadDir u n path R m = ((R, None), m).

Lemma second_loop u path (cached : Listing) m nodes :
  isCancelled u = false ->
  Forall (second_run_returns u) nodes ->
  (forall n', n' ∈ nodes ->
     well_named n'
     /\ exists e', FindEntryName cached (Name (entry_of n')) = Some e'
                   /\ entry_for (stored m) n' e') ->
  forall st,
    manager st = m -> directoryMatchesCache st = true ->
    exists st',
      uploadEntries (UploadDir u) u path cached nodes st = (None, st')
      /\ manager st' = m /\ directoryMatchesCache st' = true.
Proof.
  intros Hc Hall. induction Hall as [|n rest Hn _ IH]; intros Hnodes st Hm Hmatch;
    cbn [uploadEntries].
  - exists st. auto.
  - destruct (Hnodes n) as (Hwn & e' & Hfind & He' & Hdir); [left|].
    rewrite Hfind, Hmatch. rewrite He', metadataEquals_same. cbn [andb].
    assert (Hrest : forall n', n' ∈ rest ->
              well_named n'
              /\ exists e'', FindEntryName cached (Name (entry_of n')) = Some e''
                            /\ entry_for (stored m) n' e'').
    { intros n' Hin. apply Hnodes. right. exact Hin. }
    case_bool_decide as Hty.
    + cbn [with_ObjectID ObjectID]. rewrite Hm.
      rewrite (Hn _ m (ObjectID e') Hc Hwn (Hdir Hty)).
      rewrite bool_decide_eq_false_2 by (intros Hne; apply Hne; reflexivity).
      apply (IH Hrest); reflexivity || exact Hm.
    + apply (IH Hrest); [exact Hm | reflexivity].
Qed.

Lemma all1_Forall {A} (P : A -> Prop) (l : list A) : all1 P l -> Forall P l.
Proof. induction l as [|a l IH]; cbn; [constructor|]. intros [Ha Hl]. auto. Qed.

Lemma second_run u n : second_run_returns u n.
Proof.
  induction n as [kind md src listing IH] using Node_nested_ind.
  intros path m R Hc Hwn Hst.
  destruct listing as [nodes|]; [|exact (False_ind _ Hst)].
  rewrite stored_unfold in Hst. destruct Hst as (Hne & es & Hopen & Hall).
  cbn [well_named] in Hwn. destruct Hwn as [Hnodup Hwn].
  rewrite (UploadDir_unfold u kind md src nodes path R m Hc).
  assert (Hcached : readCached m R = {| Entries := es |}).
  { unfold readCached. rewrite bool_decide_eq_true_2 by exact Hne.
    rewrite Hopen. reflexivity. }
  rewrite Hcached.
  destruct (second_loop u path {| Entries := es |} m nodes Hc IH) with
    (st := loop_start m R nodes) as (st' & Hloop & Hm & Hmatch).
  - intros n' Hin. split.
    + apply all1_Forall in Hwn. rewrite Forall_forall in Hwn. apply Hwn, Hin.
    + apply (find_own_entry (stored m) nodes es Hall Hnodup n' Hin).
  - reflexivity.
  - unfold loop_start. cbn [directoryMatchesCache]. rewrite Hcached. cbn [Entries].
    apply bool_decide_eq_true_2. symmetry. eapply all2_length, Hall.
  - rewrite Hloop, Hmatch, Hm, bool_decide_eq_true_2 by exact Hne. reflexivity.
Qed.

(** C5: when the loop over the entries ends with [directoryMatchesCache]
    set and [previous] is not empty, [UploadDir] returns [previous] and the
    object manager as the loop left it, without writing a directory
    object.  Hence, for a tree whose directories have distinct names in
    each listing and an uploader that is not cancelled, uploading the tree
    again with the id of a successful first upload as [previous] returns
    that id and leaves the object manager as it was: no object, of a
    directory or of a file, is written by the second run. *)
Theorem unchanged_tree_returns_previous u n path (m0 : M) :
  isCancelled u = false ->
  well_named n ->
  snd (fst (UploadDir u n path ""%string m0)) = None ->
  let R1 := fst (fst (UploadDir u n path ""%string m0)) in
  let m1 := snd (UploadDir u n path ""%string m0) in
  UploadDir u n path R1 m1 = ((R1, None), m1)
  /\ R1 <> ""%string
  /\ (forall kind md src nodes path' previous mgr st,
        uploadEntries (UploadDir u) u path' (readCached mgr previous) nodes
          (loop_start mgr previous nodes) = (None, st) ->
        directoryMatchesCache st = true ->
        previous <> ""%string ->
        UploadDir u (MkNode kind md src (Ok nodes)) path' previous mgr
        = ((previous, None), manager st)).
Proof.
  intros Hc Hwn Hok R1 m1.
  assert (Hrun : UploadDir u n path ""%string m0 = ((R1, None), m1)).
  { unfold R1, m1. destruct (UploadDir u n path "" m0) as [[R e] m'].
    cbn in Hok |- *. rewrite Hok. reflexivity. }
  destruct (first_run u n path m0 R1 m1 Hrun) as [Hst _].
  split; [apply second_run; assumption|].
  split.
  - destruct n as [kind md src [nodes|]]; [|exact (False_ind _ Hst)].
    rewrite stored_unfold in Hst. tauto.
  - intros kind md src nodes path' previous mgr st Hloop Hmatch Hprev.
    rewrite (UploadDir_unfold u kind md src nodes path' previous mgr Hc).
    rewrite Hloop, Hmatch, bool_decide_eq_true_2 by exact Hprev. reflexivity.
Qed.

(** C10: once the file is open, a failure of the copy is not reported.
    When reading fails after [n] bytes, [UploadFile] does what it does for
    a file that holds those [n] bytes only and reads without error: it
    returns the id the writer gives for them, with no error; the only
    error it can return is the writer's own. *)
Theorem UploadFile_ignores_copy_error u path (src : Source) (m : M)
    (n : nat) (err : error) :
  open_error src = None ->
  failure src = Some (n, err) ->
  Copy src = (take n (file_bytes src), Some err)
  /\ UploadFile u path src m
     = UploadFile u path
         {| open_error := None; file_bytes := take n (file_bytes src); failure := None |} m
  /\ (forall oid m',
        WriteObject m ("FILE:" +:+ path) "F" (FileObject (take n (file_bytes src))) false
        = ((oid, None), m') ->
        UploadFile u path src m = ((oid, None), m'))
  /\ (forall e, snd (fst (UploadFile u path src m)) = Some e ->
        forall oid m',
          WriteObject m ("FILE:" +:+ path) "F" (FileObject (take n (file_bytes src))) false
          <> ((oid, None), m')).
Proof.
  intros Hopen Hfail.
  assert (Hcopy : Copy src = (take n (file_bytes src), Some err))
    by (unfold Copy; rewrite Hfail; reflexivity).
  unfold UploadFile. rewrite Hopen, Hcopy. cbn [open_error Copy failure file_bytes].
  split; [reflexivity|split; [reflexivity|split]].
  - intros oid m' ->. reflexivity.
  - intros e. destruct (WriteObject m _ _ _ _) as [[oid [e'|]] m'] eqn:Ew; cbn;
      [intros _ oid' m''; discriminate | discriminate].
Qed.

End Uploader.

Section UploadExamples.
Import dir upload_spec.

Lemma example_tree_well_named : well_named example_tree.
Proof.
  cbn. repeat split; apply (bool_decide_unpack _); vm_compute; exact I.
Qed.

(** The first run writes the three files and the two directories; the
    second returns the same id and writes nothing. *)
Lemma unchanged_tree_returns_previous_witness :
  UploadDir example_uploader example_tree "/src"
    (fst (fst (UploadDir example_uploader example_tree "/src" "" empty_manager)))
    (snd (UploadDir example_uploader example_tree "/src" "" empty_manager))
  = ((fst (fst (UploadDir example_uploader example_tree "/src" "" empty_manager)), None),
     snd (UploadDir example_uploader example_tree "/src" "" empty_manager))
  /\ written (snd (UploadDir example_uploader example_tree "/src" "" empty_manager))
     = ["FILE:/src/file1"; "FILE:/src/sub/inner"; "DIR:/src/sub"; "FILE:/src/file2";
        "DIR:/src"]%string.
Proof.
  destruct (unchanged_tree_returns_previous example_uploader example_tree "/src"
              empty_manager) as [Hsecond _].
  - reflexivity.
  - exact example_tree_well_named.
  - vm_compute. reflexivity.
  - split; [exact Hsecond | vm_compute; reflexivity].
Defined.

(** Reading "hello world" fails after five bytes: [UploadFile] returns
    the id of "hello", F followed by its SHA-256, and no error. *)
Lemma UploadFile_ignores_copy_error_witness :
  fst (UploadFile example_uploader "/src/f" failing_source empty_manager)
  = ("F2cf24dba5fb0a30e26e83b2ac5b9e29e1b161e5c1fa7425e73043362938b9824"%string, None).
Proof.
  destruct (UploadFile_ignores_copy_error example_uploader "/src/f" failing_source
              empty_manager 5 (ErrExternal "input/output error") eq_refl eq_refl)
    as (_ & _ & Hok & _).
  erewrite Hok; [reflexivity | vm_compute; reflexivity].
Defined.

(** After the modification time of "file2" has changed, the next run reads
  "file2" again and writes a new root; "file1" and "sub" are reused. *)
Example touched_file_is_uploaded_again :
let first := UploadDir example_uploader example_tree "/src" "" empty_manager in
let second := UploadDir example_uploader touched_tree "/src" (fst (fst first)) (snd first) in
snd (fst second) = None
/\ fst (fst second) <> fst (fst first)
/\ written (snd second) = written (snd first) ++ ["FILE:/src/file2"; "DIR:/src"]%string.
Proof.
cbv zeta. split; [vm_compute; reflexivity|split].
- apply (bool_decide_eq_false_1 (_ = _)). vm_compute. reflexivity.
- vm_compute. reflexivity.
Qed.

(** A cancelled uploader returns [previous] with the cancellation error and
  writes nothing. *)
Example cancelled_upload :
UploadDir {| cancelled := 1 |} example_tree "/src" "Dprevious" empty_manager
= (("Dprevious"%string, Some ErrUploadCancelled), empty_manager).
Proof. reflexivity. Qed.

End UploadExamples.

(** * Vault items over a store *)

Section SealedBlocks.
Import storage vault vault_spec vault_create vault_items_spec.
Context `{Env} {S : Type} `{storage.Storage S}.
Implicit Types (v : Vault S) (content : bytes).

(** The codec reads the format and the master key only. *)
Lemma decryptBlock_with_storage v (s : S) content :
  decryptBlock (with_storage v s) content = decryptBlock v content.
Proof. reflexivity. Qed.

Lemma sealBlock_with_storage v (s : S) entropy content :
  sealBlock (with_storage v s) entropy content = sealBlock v entropy content.
Proof. reflexivity. Qed.

Lemma seal_then_decrypt v entropy content :
  supported (Encryption (Format v)) ->
  (Encryption (Format v) <> "none"%string ->
     Checksum (Format v) = "hmac-sha-256"%string /\ (16 <= length entropy)%nat) ->
  exists blk, sealBlock v entropy content = Ok blk /\ decryptBlock v blk = Ok content.
Proof.
  intros [Hnone|Haes] Hrest.
  - exists content. split; [apply sealBlock_none | apply decryptBlock_none]; exact Hnone.
  - assert (Hne : Encryption (Format v) <> "none"%string)
      by (destruct Haes as [E|[E|E]]; rewrite E; discriminate).
    destruct (Hrest Hne) as [Hmac Hent].
    exists (block_layout v (take 16 entropy) content). split.
    + exact (sealBlock_aes v entropy content Haes Hmac Hent).
    + apply decrypt_layout; try assumption. rewrite length_take. lia.
Qed.

Lemma is_aes_not_none (enc : string) : is_aes enc -> enc <> "none"%string.
Proof. intros [E|[E|E]]; rewrite E; discriminate. Qed.


Lemma newCipher_unsupported v :
  ~ supported (Encryption (Format v)) ->
  newCipher v = Err (ErrUnsupportedEncryption (Encryption (Format v))).
Proof.
  intros Hno. unfold newCipher, supported, is_aes in *.
  repeat case_decide; try reflexivity; exfalso; apply Hno; auto.
Qed.

Lemma newChecksum_unsupported v :
  Checksum (Format v) <> "hmac-sha-256"%string ->
  newChecksum v = Err (ErrUnsupportedChecksum (Checksum (Format v))).
Proof. intros Hno. unfold newChecksum. case_decide; [contradiction|reflexivity]. Qed.

Lemma writeEncryptedBlock_fails v entropy itemID content e :
  sealBlock v entropy content = Err e ->
  writeEncryptedBlock v entropy itemID content = (Err e, Storage v).
Proof. intros Hs. unfold writeEncryptedBlock. rewrite Hs. reflexivity. Qed.

Lemma Put_not_reserved v entropy (itemID : string) content :
  isReservedName itemID = false ->
  Put v entropy itemID content = writeEncryptedBlock v entropy itemID content.
Proof. intros Hid. unfold Put, checkReservedName. rewrite Hid. reflexivity. Qed.

Lemma Get_not_reserved v (itemID : string) :
  isReservedName itemID = false -> Get v itemID = readEncryptedBlock v itemID.
Proof. intros Hid. unfold Get, checkReservedName. rewrite Hid. reflexivity. Qed.

Lemma readEncryptedBlock_found v (itemID : string) blk :
  GetBlock (Storage v) (itemPrefix v +:+ itemID) = (Some blk, None) ->
  readEncryptedBlock v itemID = decryptBlock v blk.
Proof. intros Hg. unfold readEncryptedBlock. rewrite Hg. reflexivity. Qed.

Lemma readEncryptedBlock_same_block v v' (itemID : string) :
  Format v' = Format v -> masterKey v' = masterKey v -> itemPrefix v' = itemPrefix v ->
  GetBlock (Storage v') (itemPrefix v +:+ itemID)
  = GetBlock (Storage v) (itemPrefix v +:+ itemID) ->
  readEncryptedBlock v' itemID = readEncryptedBlock v itemID.
Proof.
  destruct v, v'. cbn. intros -> -> -> Hg.
  unfold readEncryptedBlock. cbn [Storage itemPrefix]. rewrite Hg. reflexivity.
Qed.

(** X5: a vault whose format names an encryption other than none,
    aes-128, aes-192 and aes-256 can neither write nor read: [Put] fails
    with the unsupported-encryption error and leaves the store as it
    was, and [Get] fails with it whenever the item's block is there.  An
    AES vault with a checksum other than hmac-sha-256 fails both ways with
    the unsupported-checksum error.  Under "none" the checksum name is
    never looked at: sealing and decrypting return their input whatever
    it is. *)
Theorem unsupported_algorithms v entropy (itemID : string) content blk :
  isReservedName itemID = false ->
  GetBlock (Storage v) (itemPrefix v +:+ itemID) = (Some blk, None) ->
  (~ supported (Encryption (Format v)) ->
     Put v entropy itemID content
     = (Err (ErrUnsupportedEncryption (Encryption (Format v))), Storage v)
     /\ Get v itemID = Err (ErrUnsupportedEncryption (Encryption (Format v))))
  /\ (is_aes (Encryption (Format v)) ->
      Checksum (Format v) <> "hmac-sha-256"%string ->
      Put v entropy itemID content
      = (Err (ErrUnsupportedChecksum (Checksum (Format v))), Storage v)
      /\ Get v itemID = Err (ErrUnsupportedChecksum (Checksum (Format v))))
  /\ (Encryption (Format v) = "none"%string ->
      sealBlock v entropy content = Ok content /\ Get v itemID = Ok blk).
Proof.
  intros Hid Hblk. rewrite (Put_not_reserved _ _ _ _ Hid), (Get_not_reserved _ _ Hid).
  rewrite (readEncryptedBlock_found _ _ _ Hblk). repeat split.
  - apply writeEncryptedBlock_fails. unfold sealBlock.
    rewrite newCipher_unsupported by assumption. reflexivity.
  - unfold decryptBlock. rewrite newCipher_unsupported by assumption. reflexivity.
  - apply writeEncryptedBlock_fails. unfold sealBlock.
    rewrite newCipher_aes by assumption. cbn [obind].
    rewrite newChecksum_unsupported by assumption. reflexivity.
  - unfold decryptBlock. rewrite newCipher_aes by assumption. cbn [obind].
    rewrite newChecksum_unsupported by assumption. reflexivity.
  - apply sealBlock_none. assumption.
  - apply decryptBlock_none. assumption.
Qed.

Lemma List_loop_received v (pre rest : list BlockMetadata) (acc : list string) :
  Forall (fun b => Error b = None) pre ->
  List_loop v (pre ++ rest) acc
  = List_loop v rest
      (acc ++ filter (fun x => isReservedName x = false)
                (map (fun b => TrimPrefix (BlockID b) (itemPrefix v)) pre)).
Proof.
  intros Hclean. revert acc.
  induction Hclean as [|b pre Hb _ IH]; intros acc; cbn [List_loop map app].
  - rewrite filter_nil, app_nil_r. reflexivity.
  - rewrite Hb, IH. rewrite filter_cons.
    destruct (isReservedName (TrimPrefix (BlockID b) (itemPrefix v))) eqn:E; cbn [negb].
    + rewrite decide_False by discriminate. reflexivity.
    + rewrite decide_True by reflexivity. rewrite <- app_assoc. reflexivity.
Qed.

(** X24: when the store's listing reports an error, [List] returns that
    error together with the items received before it: their names without
    the item prefix, in the order received, the reserved names left out;
    what the channel would deliver after the error is not read. *)
Theorem List_stops_at_error v (prefix : string) (pre post : list BlockMetadata)
    (b : BlockMetadata) (e : error) :
  ListBlocks (Storage v) (itemPrefix v +:+ prefix) = pre ++ b :: post ->
  Forall (fun b => Error b = None) pre ->
  Error b = Some e ->
  List v prefix
  = (filter (fun x => isReservedName x = false)
       (map (fun b => TrimPrefix (BlockID b) (itemPrefix v)) pre), Some e).
Proof.
  intros Hlist Hclean Herr. unfold List. rewrite Hlist.
  rewrite (List_loop_received v pre (b :: post) [] Hclean).
  cbn [List_loop app]. rewrite Herr. reflexivity.
Qed.


End SealedBlocks.

Section ReliableStore.
Import storage vault vault_spec vault_create vault_items_spec.
Context `{Env} {S : Type} `{ReliableStorage S}.
Implicit Types (v : Vault S) (content : bytes).

Lemma writeEncryptedBlock_reliable v entropy (itemID : string) content blk :
  sealBlock v entropy content = Ok blk ->
  writeEncryptedBlock v entropy itemID content
  = (Ok tt, fst (PutBlock (Storage v) (itemPrefix v +:+ itemID) blk)).
Proof.
  intros Hseal. rewrite (writeEncryptedBlock_sealed v entropy itemID content blk Hseal).
  rewrite put_succeeds. reflexivity.
Qed.

(** Whatever it returns, [writeEncryptedBlock] changes no block but the
    item's. *)
Lemma writeEncryptedBlock_frame v entropy (itemID : string) content (k : string) :
  k <> (itemPrefix v +:+ itemID)%string ->
  GetBlock (snd (writeEncryptedBlock v entropy itemID content)) k
  = GetBlock (Storage v) k.
Proof.
  intros Hk. unfold writeEncryptedBlock.
  destruct (sealBlock v entropy content) as [blk|e|m]; try reflexivity.
  destruct (PutBlock _ _ _) as [s e] eqn:Hp. cbn [snd].
  change s with (fst (s, e)). rewrite <- Hp. apply get_put_other. congruence.
Qed.

(** X1: on a store that reads back what was written, an item saved by
    [Put] under a name that is not reserved is returned by [Get]: for
    each of the encryptions none, aes-128, aes-192 and aes-256 (with the
    hmac-sha-256 checksum and 16 bytes from the generator for the AES
    ones) [Put] succeeds and [Get] on the resulting store gives the
    content back. *)
Theorem Put_then_Get v entropy (itemID : string) content :
  supported (Encryption (Format v)) ->
  (Encryption (Format v) <> "none"%string ->
     Checksum (Format v) = "hmac-sha-256"%string /\ (16 <= length entropy)%nat) ->
  isReservedName itemID = false ->
  fst (Put v entropy itemID content) = Ok tt
  /\ Get (with_storage v (snd (Put v entropy itemID content))) itemID = Ok content.
Proof.
  intros Henc Hrest Hid.
  destruct (seal_then_decrypt v entropy content Henc Hrest) as (blk & Hseal & Hdec).
  rewrite (Put_not_reserved _ _ _ _ Hid), (Get_not_reserved _ _ Hid).
  rewrite (writeEncryptedBlock_reliable _ _ _ _ _ Hseal). cbn [fst snd]. split; [reflexivity|].
  rewrite (readEncryptedBlock_found _ _ blk).
  - rewrite decryptBlock_with_storage. exact Hdec.
  - cbn [with_storage Storage itemPrefix]. apply get_put.
Qed.

Lemma Put_frame v entropy (itemID : string) content (k : string) :
  k <> (itemPrefix v +:+ itemID)%string ->
  GetBlock (snd (Put v entropy itemID content)) k = GetBlock (Storage v) k.
Proof.
  intros Hk. unfold Put. destruct (checkReservedName itemID); [reflexivity|].
  apply writeEncryptedBlock_frame. exact Hk.
Qed.

(** X2: [Put] touches one block only, the one named by the item prefix
    followed by the item's name: whether it succeeds or fails, every other
    block of the store reads as before, and so [Get] of any other item
    gives what it gave before. *)
Theorem Put_leaves_others v entropy (itemID : string) content :
  (forall k : string, k <> (itemPrefix v +:+ itemID)%string ->
     GetBlock (snd (Put v entropy itemID content)) k = GetBlock (Storage v) k)
  /\ (forall other : string, other <> itemID ->
        Get (with_storage v (snd (Put v entropy itemID content))) other = Get v other).
Proof.
  split; [apply Put_frame|].
  intros other Hother. unfold Get. destruct (checkReservedName other); [reflexivity|].
  apply readEncryptedBlock_same_block; try reflexivity.
  cbn [with_storage Storage]. apply Put_frame.
  intros Heq. apply Hother. exact (String.app_inj _ _ _ Heq).
Qed.

(** X3: once [Remove] has deleted an item, [Get] of it fails with
    [ErrItemNotFound], and every other item reads as before. *)
Theorem Remove_then_Get v (itemID : string) :
  isReservedName itemID = false ->
  fst (Remove v itemID) = None ->
  Get (with_storage v (snd (Remove v itemID))) itemID = Err ErrItemNotFound
  /\ (forall other : string, other <> itemID ->
        Get (with_storage v (snd (Remove v itemID))) other = Get v other).
Proof.
  intros Hid. unfold Remove, checkReservedName. rewrite Hid.
  destruct (DeleteBlock (Storage v) (itemPrefix v +:+ itemID)) as [s e] eqn:Hd.
  cbn [fst snd]. intros ->.
  assert (Hs : s = fst (DeleteBlock (Storage v) (itemPrefix v +:+ itemID)))
    by (rewrite Hd; reflexivity).
  split.
  - rewrite (Get_not_reserved _ _ Hid). unfold readEncryptedBlock.
    cbn [with_storage Storage itemPrefix]. rewrite Hs, get_delete; [reflexivity|].
    rewrite Hd. reflexivity.
  - intros other Hother. unfold Get. destruct (checkReservedName other); [reflexivity|].
    apply readEncryptedBlock_same_block; try reflexivity.
    cbn [with_storage Storage]. rewrite Hs. apply get_delete_other.
    intros Heq. apply Hother. symmetry. exact (String.app_inj _ _ _ Heq).
Qed.

Lemma decryptBlock_same_keys v v' content :
  Format v = Format v' -> masterKey v = masterKey v' ->
  decryptBlock v content = decryptBlock v' content.
Proof. destruct v, v'. cbn. intros -> ->. reflexivity. Qed.

(** [Open] reads the store through the two blocks of the variant it
    chose. *)
Lemma open_variant_same_blocks (st st' : S) creds (prefix : string) :
  GetBlock st' (prefix +:+ "format") = GetBlock st (prefix +:+ "format") ->
  GetBlock st' (prefix +:+ "repo") = GetBlock st (prefix +:+ "repo") ->
  open_variant st' creds prefix
  = omap_outcome (fun v => with_storage v st') (open_variant st creds prefix).
Proof.
  intros Hformat Hrepo. unfold open_variant.
  change formatBlockID with "format"%string.
  change repositoryConfigBlockID with "repo"%string.
  rewrite Hformat, Hrepo.
  destruct (unmarshalFormat _) as [msg|format]; cbn [json obind omap_outcome];
    [reflexivity|].
  rewrite (decryptBlock_same_keys
             {| Storage := st'; Format := format; RepoConfig := None;
                masterKey := getMasterKey creds (UniqueID format); itemPrefix := prefix |}
             {| Storage := st; Format := format; RepoConfig := None;
                masterKey := getMasterKey creds (UniqueID format); itemPrefix := prefix |})
    by reflexivity.
  destruct (decryptBlock _ _) as [cfg|e|m]; cbn [obind omap_outcome]; try reflexivity.
  destruct (unmarshalRepositoryConfig cfg) as [msg|rc]; reflexivity.
Qed.

(** X26: writing items does not disturb the vault's own blocks.  For a
    vault that [Open] returned, after [Put] of an item under a name that
    is not reserved, whether it succeeded or not, [Open] on the resulting
    store with the same credentials returns the same vault again, over
    that store. *)
Theorem Put_keeps_vault v creds entropy (itemID : string) content :
  Open (Storage v) creds = Ok v ->
  isReservedName itemID = false ->
  Open (snd (Put v entropy itemID content)) creds
  = Ok (with_storage v (snd (Put v entropy itemID content))).
Proof.
  intros Hopen Hid.
  assert (Hnot : itemID <> "format"%string /\ itemID <> "repo"%string).
  { split; intros ->; discriminate Hid. }
  destruct Hnot as [Hformat Hrepo].
  set (st' := snd (Put v entropy itemID content)).
  destruct (fst (GetBlock (Storage v) "format")) as [fb|] eqn:Hf.
  - (* the unprefixed variant *)
    rewrite Open_unprefixed in Hopen by (rewrite Hf; discriminate).
    destruct (open_variant_prefix _ _ _ _ Hopen) as (Hp & _).
    assert (Hsame : forall k : string, k <> itemID ->
              GetBlock st' k = GetBlock (Storage v) k).
    { intros k Hk. apply Put_frame. rewrite Hp. exact Hk. }
    assert (Hf' : GetBlock st' "format" = GetBlock (Storage v) "format")
      by (apply Hsame; intros Heq; apply Hformat; symmetry; exact Heq).
    assert (Hr' : GetBlock st' "repo" = GetBlock (Storage v) "repo")
      by (apply Hsame; intros Heq; apply Hrepo; symmetry; exact Heq).
    rewrite Open_unprefixed by (rewrite Hf', Hf; discriminate).
    rewrite (open_variant_same_blocks (Storage v) st' creds "" Hf' Hr').
    rewrite Hopen. reflexivity.
  - destruct (fst (GetBlock (Storage v) "VLTformat")) as [fb|] eqn:Hv.
    + (* the prefixed variant *)
      rewrite Open_prefixed in Hopen by (rewrite ?Hf, ?Hv; congruence).
      destruct (open_variant_prefix _ _ _ _ Hopen) as (Hp & _).
      assert (Hsame : forall k : string, k <> ("VLT" +:+ itemID)%string ->
                GetBlock st' k = GetBlock (Storage v) k).
      { intros k Hk. apply Put_frame. rewrite Hp. exact Hk. }
      assert (Hkey : forall name : string, itemID <> name ->
                GetBlock st' ("VLT" +:+ name) = GetBlock (Storage v) ("VLT" +:+ name)).
      { intros name Hname. apply Hsame. intros Heq. apply Hname. symmetry.
        exact (String.app_inj _ _ _ Heq). }
      rewrite Open_prefixed.
      * rewrite (open_variant_same_blocks (Storage v) st' creds "VLT"
                   (Hkey _ Hformat) (Hkey _ Hrepo)).
        rewrite Hopen. reflexivity.
      * rewrite Hsame by discriminate. exact Hf.
      * change "VLTformat"%string with ("VLT" +:+ "format")%string.
        rewrite (Hkey _ Hformat).
        change ("VLT" +:+ "format")%string with "VLTformat"%string.
        rewrite Hv. discriminate.
    + rewrite Open_no_format in Hopen by assumption. discriminate Hopen.
Qed.

End ReliableStore.

Section JSONItems.
Import storage vault vault_spec vault_create vault_items_spec.
Context `{Marshal} {S : Type} `{ReliableStorage S} `{!ConnectionInfoProvider S}.
Implicit Types (v : Vault S) (content : bytes).

(** X9: [putJSON] followed by [getJSON] gives the value back whenever the
    encoder and the decoder agree on it, and neither checks the item's
    name: the round trip also holds for the reserved names "format" and
    "repo", which [Put] and [Get] refuse. *)
Theorem putJSON_then_getJSON {A} (marshal : A -> string + bytes)
    (unmarshal : bytes -> string + A) v entropy (id : string) (x : A) (j : bytes) :
  supported (Encryption (Format v)) ->
  (Encryption (Format v) <> "none"%string ->
     Checksum (Format v) = "hmac-sha-256"%string /\ (16 <= length entropy)%nat) ->
  marshal x = inr j ->
  unmarshal j = inr x ->
  fst (putJSON marshal v entropy id x) = Ok tt
  /\ getJSON unmarshal (with_storage v (snd (putJSON marshal v entropy id x))) id = Ok x.
Proof.
  intros Henc Hrest Hm Hu.
  destruct (seal_then_decrypt v entropy j Henc Hrest) as (blk & Hseal & Hdec).
  unfold putJSON, getJSON. rewrite Hm. cbn [json].
  rewrite (writeEncryptedBlock_reliable _ _ _ _ _ Hseal). cbn [fst snd].
  split; [reflexivity|].
  rewrite (readEncryptedBlock_found _ _ blk).
  - rewrite decryptBlock_with_storage, Hdec. cbn [obind]. rewrite Hu. reflexivity.
  - cbn [with_storage Storage itemPrefix]. apply get_put.
Qed.

Lemma ReadFull_enough (entropy : bytes) (n : nat) :
  (n <= length entropy)%nat -> ReadFull entropy n = Ok (take n entropy).
Proof. intros Hn. unfold ReadFull. rewrite (proj2 (Nat.ltb_ge _ _) Hn). reflexivity. Qed.

Lemma ReadFull_short (entropy : bytes) (n : nat) :
  (length entropy < n)%nat ->
  ReadFull entropy n = Err (match entropy with [] => EOF | _ :: _ => ErrUnexpectedEOF end).
Proof.
  intros Hn. unfold ReadFull. rewrite (proj2 (Nat.ltb_lt _ _) Hn).
  destruct entropy; reflexivity.
Qed.

(** [Create] up to its call of [putJSON], on a store that takes the
    format block. *)
Lemma Create_unfold (st : S) format creds repo repoFormat entropy fb :
  has_provider st repo ->
  (32 <= length entropy)%nat ->
  marshalFormat (created_format format (take 32 entropy)) = inr fb ->
  Create st (Some format) creds repo repoFormat entropy
  = match putJSON marshalRepositoryConfig
            (created_vault (fst (PutBlock st (created_prefix repo +:+ "format") fb))
               format creds repo entropy None)
            (drop 32 entropy) "repo" (created_config repo repoFormat) with
    | (Ok _, s') =>
        (Ok (created_vault s' format creds repo entropy
               (Some (created_config repo repoFormat))), s')
    | (Err e, s') => (Err e, s')
    | (Panic m, s') => (Panic m, s')
    end.
Proof.
  intros Hp Hent Hfb. unfold Create, has_provider in *.
  set (cip := match repo with RepoOther cip => cip | _ => _ end) in *.
  destruct cip as [ci|] eqn:Hcip; [|destruct Hp as [? [=]]].
  rewrite (ReadFull_enough _ _ Hent).
  change {| Version := "1"; UniqueID := take 32 entropy;
            Encryption := Encryption format; Checksum := Checksum format |}
    with (created_format format (take 32 entropy)).
  rewrite Hfb. cbn [json].
  change (match repo with RepoNil => colocatedVaultItemPrefix | _ => ""%string end)
    with (created_prefix repo).
  change formatBlockID with "format"%string.
  change repositoryConfigBlockID with "repo"%string.
  destruct (PutBlock st (created_prefix repo +:+ "format") fb) as [s e] eqn:Hput.
  assert (He : e = None) by (change e with (snd (s, e)); rewrite <- Hput; apply put_succeeds).
  subst e. cbn [fst].
  assert (Hrc : {| Connection := match repo with RepoOther _ => Some ci | _ => None end;
                   RepoFormat_ := repoFormat |} = created_config repo repoFormat).
  { unfold created_config. subst cip. destruct repo; try reflexivity.
    rewrite Hcip. reflexivity. }
  rewrite Hrc. reflexivity.
Qed.

(** X7: a vault that [Create] has written is the vault [Open] returns.
    For a supported encryption, a store type that gives its connection
    info, 32 bytes from the generator for the unique id (and 16 more for
    the IV under AES) and a JSON codec that decodes the new format and
    the repository configuration it encoded, [Create] succeeds, and
    [Open] on the store it leaves, with the same credentials, returns the
    very vault [Create] returned: same format with version "1" and the
    fresh unique id, same master key, same repository configuration, and
    the item prefix "VLT" when no repository store was given, the empty
    prefix otherwise.  For the colocated variant the store must not
    already hold a block named "format", which [Open] would prefer. *)
Theorem Create_then_Open (st : S) format creds repo repoFormat entropy (fb rb : bytes) :
  supported (Encryption format) ->
  (Encryption format <> "none"%string ->
     Checksum format = "hmac-sha-256"%string /\ (48 <= length entropy)%nat) ->
  (32 <= length entropy)%nat ->
  has_provider st repo ->
  marshalFormat (created_format format (take 32 entropy)) = inr fb ->
  unmarshalFormat fb = inr (created_format format (take 32 entropy)) ->
  marshalRepositoryConfig (created_config repo repoFormat) = inr rb ->
  unmarshalRepositoryConfig rb
  = inr (Connection (created_config repo repoFormat),
         RepoFormat_ (created_config repo repoFormat)) ->
  (repo = RepoNil -> fst (GetBlock st "format") = None) ->
  exists v,
    Create st (Some format) creds repo repoFormat entropy = (Ok v, Storage v)
    /\ Open (Storage v) creds = Ok v
    /\ v = created_vault (Storage v) format creds repo entropy
             (Some (created_config repo repoFormat)).
Proof.
  intros Henc Hrest Hent Hprov Hfb Hufb Hrb Hurb Hfree.
  rewrite (Create_unfold _ _ _ _ _ _ _ Hprov Hent Hfb).
  set (s1 := fst (PutBlock st (created_prefix repo +:+ "format") fb)).
  set (v1 := created_vault s1 format creds repo entropy None).
  assert (Hrest' : Encryption (Format v1) <> "none"%string ->
            Checksum (Format v1) = "hmac-sha-256"%string
            /\ (16 <= length (drop 32 entropy))%nat).
  { intros Hne. destruct (Hrest Hne) as [Hc Hl]. split; [exact Hc|].
    rewrite length_drop. lia. }
  destruct (seal_then_decrypt v1 (drop 32 entropy) rb Henc Hrest') as (blk & Hseal & Hdec).
  unfold putJSON. rewrite Hrb. cbn [json].
  rewrite (writeEncryptedBlock_reliable _ _ _ _ _ Hseal).
  change (itemPrefix v1) with (created_prefix repo). change (Storage v1) with s1.
  set (s2 := fst (PutBlock s1 (created_prefix repo +:+ "repo") blk)).
  exists (created_vault s2 format creds repo entropy (Some (created_config repo repoFormat))).
  split; [reflexivity|]. cbn [Storage created_vault]. split; [|reflexivity].
  (* what [Open] finds on the store *)
  assert (Hformat : GetBlock s2 (created_prefix repo +:+ "format") = (Some fb, None)).
  { unfold s2. rewrite get_put_other.
    - apply get_put.
    - intros Heq. apply String.app_inj in Heq. discriminate. }
  assert (Hrepo : GetBlock s2 (created_prefix repo +:+ "repo") = (Some blk, None))
    by apply get_put.
  assert (Hvariant : Open s2 creds = open_variant s2 creds (created_prefix repo)).
  { destruct repo as [| |cip]; cbn [created_prefix] in *.
    - apply Open_prefixed.
      + unfold s2, s1. rewrite !get_put_other by discriminate. apply Hfree. reflexivity.
      + change "VLTformat"%string with ("VLT" +:+ "format")%string.
        rewrite Hformat. discriminate.
    - apply Open_unprefixed. change "format"%string with ("" +:+ "format")%string.
      rewrite Hformat. discriminate.
    - apply Open_unprefixed. change "format"%string with ("" +:+ "format")%string.
      rewrite Hformat. discriminate. }
  rewrite Hvariant. unfold open_variant.
  change formatBlockID with "format"%string.
  change repositoryConfigBlockID with "repo"%string.
  rewrite Hformat, Hrepo. cbn [fst default from_option id]. rewrite Hufb. cbn [json obind].
  change (decryptBlock _ blk) with (decryptBlock v1 blk).
  rewrite Hdec. cbn [obind]. rewrite Hurb. cbn [json obind fst snd].
  reflexivity.
Qed.


End JSONItems.

(** * The vault over a store held in memory *)

Section MemoryStore.
Import storage vault vault_spec vault_create vault_items_spec.

#[global] Instance mem_reliable : ReliableStorage (gmap string bytes).
Proof.
  split; cbn [GetBlock PutBlock DeleteBlock mem_storage fst snd].
  - reflexivity.
  - intros s k b. rewrite lookup_insert_eq. reflexivity.
  - intros s k k' b Hk. rewrite lookup_insert_ne by exact Hk. reflexivity.
  - intros s k. destruct (s !! k) eqn:E; cbn [fst snd]; [|discriminate].
    intros _. rewrite lookup_delete_eq. reflexivity.
  - intros s k k' Hk. destruct (s !! k) eqn:E; cbn [fst snd]; [|reflexivity].
    rewrite lookup_delete_ne by exact Hk. reflexivity.
Qed.

Lemma append_cons (c : ascii) (a r : string) :
  (String c a +:+ r)%string = String c (a +:+ r).
Proof. reflexivity. Qed.

Lemma append_empty (r : string) : ("" +:+ r)%string = r.
Proof. reflexivity. Qed.

Lemma append_append (a b c : string) :
  ((a +:+ b) +:+ c)%string = (a +:+ (b +:+ c))%string.
Proof.
  induction a as [|x a IH]; [reflexivity|].
  rewrite !append_cons, IH. reflexivity.
Qed.

Lemma prefix_empty (s : string) : String.prefix "" s = true.
Proof. destruct s; reflexivity. Qed.

Lemma prefix_split (a s : string) :
  String.prefix a s = true -> exists r, s = (a +:+ r)%string.
Proof.
  revert s. induction a as [|c a IH]; intros s.
  - intros _. exists s. reflexivity.
  - destruct s as [|c' s]; cbn; [discriminate|].
    destruct (ascii_dec c c') as [->|]; [|discriminate].
    intros Hp. destruct (IH _ Hp) as [r ->]. exists r. reflexivity.
Qed.

Lemma prefix_app_cancel (a p r : string) :
  String.prefix (a +:+ p) (a +:+ r) = String.prefix p r.
Proof.
  induction a as [|c a IH]; [reflexivity|].
  rewrite !append_cons. cbn. destruct (ascii_dec c c); [exact IH|contradiction].
Qed.

Lemma prefix_app (a r : string) : String.prefix a (a +:+ r) = true.
Proof.
  induction a as [|c a IH]; [apply prefix_empty|].
  rewrite append_cons. cbn. destruct (ascii_dec c c); [exact IH|contradiction].
Qed.

Lemma substring_whole (s : string) : String.substring 0 (String.length s) s = s.
Proof. induction s as [|c s IH]; cbn; [reflexivity|]. rewrite IH. reflexivity. Qed.

Lemma TrimPrefix_app (a r : string) : TrimPrefix (a +:+ r) a = r.
Proof.
  unfold TrimPrefix. rewrite prefix_app.
  induction a as [|c a IH].
  - rewrite append_empty. cbn [String.length]. rewrite Nat.sub_0_r. apply substring_whole.
  - rewrite append_cons. cbn [String.length String.substring Nat.sub]. exact IH.
Qed.

Lemma List_loop_clean {S : Type} `{storage.Storage S} `{Env} (v : Vault S)
    (stream : list BlockMetadata) (acc : list string) :
  Forall (fun b => Error b = None) stream ->
  List_loop v stream acc
  = (acc ++ filter (fun x => isReservedName x = false)
              (map (fun b => TrimPrefix (BlockID b) (itemPrefix v)) stream), None).
Proof.
  intros Hclean. revert acc.
  induction Hclean as [|b rest Hb _ IH]; intros acc; cbn [List_loop map].
  - rewrite filter_nil, app_nil_r. reflexivity.
  - rewrite Hb, IH. rewrite filter_cons.
    destruct (isReservedName (TrimPrefix (BlockID b) (itemPrefix v))) eqn:E; cbn [negb].
    + rewrite decide_False by discriminate. reflexivity.
    + rewrite decide_True by reflexivity. rewrite <- app_assoc. reflexivity.
Qed.

(** X4: on a store held in memory, [List] returns without error exactly
    the item names that start with the requested prefix, are not reserved,
    and whose block (the item prefix followed by the name) is in the
    store; the names come without the item prefix. *)
Theorem List_items `{Env} (v : Vault (gmap string bytes)) (prefix x : string) :
  snd (List v prefix) = None
  /\ (x ∈ fst (List v prefix)
      <-> is_Some (Storage v !! (itemPrefix v +:+ x)%string)
          /\ String.prefix prefix x = true
          /\ isReservedName x = false).
Proof.
  unfold List. rewrite List_loop_clean.
  2:{ cbn [ListBlocks mem_storage]. apply Forall_forall. intros b Hb.
      apply list_elem_of_In, in_map_iff in Hb. destruct Hb as (kv & <- & _). reflexivity. }
  cbn [fst snd app]. split; [reflexivity|].
  rewrite list_elem_of_filter, list_elem_of_In, in_map_iff.
  cbn [ListBlocks mem_storage]. split.
  - intros (Hres & b & Hx & Hb). apply in_map_iff in Hb.
    destruct Hb as ([k blk] & <- & Hkv). cbn [BlockID fst] in *.
    apply list_elem_of_In, list_elem_of_filter in Hkv. destruct Hkv as [Hp Hkv].
    cbn [fst] in Hp. apply elem_of_map_to_list in Hkv.
    destruct (prefix_split _ _ Hp) as [r ->].
    rewrite append_append in Hx, Hkv. rewrite TrimPrefix_app in Hx. subst x.
    repeat split; [eexists; exact Hkv | apply prefix_app | exact Hres].
  - intros ([blk Hblk] & Hp & Hres). split; [exact Hres|].
    exists {| BlockID := (itemPrefix v +:+ x)%string; Error := None |}. split.
    + cbn [BlockID]. apply TrimPrefix_app.
    + apply in_map_iff. exists ((itemPrefix v +:+ x)%string, blk). split; [reflexivity|].
      apply list_elem_of_In, list_elem_of_filter. split.
      * cbn [fst]. rewrite prefix_app_cancel. exact Hp.
      * apply elem_of_map_to_list. exact Hblk.
Qed.

End MemoryStore.

Section VaultItemExamples.
Import storage vault vault_spec vault_create vault_items_spec.

Lemma Put_then_Get_witness :
  fst (Put aes256 example_entropy "alpha" hello) = Ok tt
  /\ Get (with_storage aes256 (snd (Put aes256 example_entropy "alpha" hello))) "alpha"
     = Ok hello.
Proof.
  apply (Put_then_Get aes256 example_entropy "alpha" hello).
  - right. right. right. reflexivity.
  - intros _. split; [reflexivity | vm_compute; lia].
  - reflexivity.
Defined.

Lemma Put_leaves_others_witness :
  Get (with_storage (odd_vault "none" "")
         (snd (Put (odd_vault "none" "") [] "beta" hello))) "alpha"
  = Get (odd_vault "none" "") "alpha".
Proof.
  apply (proj2 (Put_leaves_others (odd_vault "none" "") [] "beta" hello)).
  discriminate.
Defined.

Lemma Remove_then_Get_witness :
  Get (with_storage (odd_vault "none" "") (snd (Remove (odd_vault "none" "") "alpha")))
    "alpha"
  = Err ErrItemNotFound.
Proof.
  apply (Remove_then_Get (odd_vault "none" "") "alpha"); vm_compute; reflexivity.
Defined.

Lemma unsupported_algorithms_witness :
  (Put (odd_vault "rot13" "crc32") example_entropy "alpha" hello
   = (Err (ErrUnsupportedEncryption "rot13"), Storage (odd_vault "rot13" "crc32"))
   /\ Get (odd_vault "rot13" "crc32") "alpha" = Err (ErrUnsupportedEncryption "rot13"))
  /\ (Put (odd_vault "aes-128" "crc32") example_entropy "alpha" hello
      = (Err (ErrUnsupportedChecksum "crc32"), Storage (odd_vault "aes-128" "crc32"))
      /\ Get (odd_vault "aes-128" "crc32") "alpha" = Err (ErrUnsupportedChecksum "crc32"))
  /\ Get (odd_vault "none" "crc32") "alpha" = Ok (bytes_of_string "data").
Proof.
  split; [|split].
  - destruct (unsupported_algorithms (odd_vault "rot13" "crc32") example_entropy "alpha"
                hello (bytes_of_string "data")) as (Hunknown & _ & _);
      [reflexivity | vm_compute; reflexivity |].
    apply Hunknown. intros [E|[E|[E|E]]]; discriminate E.
  - destruct (unsupported_algorithms (odd_vault "aes-128" "crc32") example_entropy "alpha"
                hello (bytes_of_string "data")) as (_ & Hchecksum & _);
      [reflexivity | vm_compute; reflexivity |].
    apply Hchecksum; [left; reflexivity | discriminate].
  - destruct (unsupported_algorithms (odd_vault "none" "crc32") example_entropy "alpha"
                hello (bytes_of_string "data")) as (_ & _ & Hnone);
      [reflexivity | vm_compute; reflexivity |].
    apply Hnone. reflexivity.
Defined.


Lemma Put_keeps_vault_witness :
  Open (snd (Put opened_colocated [] "beta" hello)) example_credentials
  = Ok (with_storage opened_colocated (snd (Put opened_colocated [] "beta" hello))).
Proof.
  apply (Put_keeps_vault opened_colocated example_credentials [] "beta" hello).
  - vm_compute. reflexivity.
  - reflexivity.
Defined.

Lemma List_stops_at_error_witness :
  List (H0 := listing_storage) listing_vault ""
  = (["alpha"; "beta"]%string, Some (ErrExternal "connection reset")).
Proof.
  rewrite (List_stops_at_error (H0 := listing_storage) listing_vault ""
             [ {| BlockID := "VLTalpha"; Error := None |};
               {| BlockID := "VLTformat"; Error := None |};
               {| BlockID := "VLTbeta"; Error := None |} ]
             [ {| BlockID := "VLTgamma"; Error := None |} ]
             {| BlockID := ""; Error := Some (ErrExternal "connection reset") |}
             (ErrExternal "connection reset")).
  - vm_compute. reflexivity.
  - reflexivity.
  - repeat constructor.
  - reflexivity.
Defined.

(** The configuration is written under the reserved name "repo". *)
Lemma putJSON_then_getJSON_witness :
  getJSON (fun j => inr (string_of_list_byte j))
    (with_storage aes256
       (snd (putJSON (fun x => inr (bytes_of_string x)) aes256 example_entropy
               "repo" "configuration"%string)))
    "repo"
  = Ok "configuration"%string.
Proof.
  apply (putJSON_then_getJSON (fun x => inr (bytes_of_string x))
           (fun j => inr (string_of_list_byte j)) aes256 example_entropy "repo"
           "configuration"%string (bytes_of_string "configuration")).
  - right. right. right. reflexivity.
  - intros _. split; [reflexivity | vm_compute; lia].
  - reflexivity.
  - reflexivity.
Defined.

(** A colocated AES-256 vault created on an empty store and opened
    again. *)
Lemma Create_then_Open_witness :
  exists v,
    CreateColocated (H0 := codec_marshal) (ConnectionInfoProvider0 := mem_provider)
      (∅ : gmap string bytes) (Some aes256_format) example_credentials
      (Some "repository format"%string) long_entropy
    = (Ok v, Storage v)
    /\ Open (H := codec_env) (Storage v) example_credentials = Ok v
    /\ itemPrefix v = "VLT"%string.
Proof.
  destruct (Create_then_Open (H0 := codec_marshal) (ConnectionInfoProvider0 := mem_provider)
              (∅ : gmap string bytes) aes256_format example_credentials RepoNil
              (Some "repository format"%string) long_entropy
              (field "1" ++ field "aes-256" ++ field "hmac-sha-256" ++ take 32 long_entropy)
              (optional_field None ++ optional_field (Some "repository format"%string)))
    as (v & Hcreate & Hopen & Hv).
  - right. right. right. reflexivity.
  - intros _. split; [reflexivity | vm_compute; lia].
  - vm_compute. lia.
  - eexists. reflexivity.
  - vm_compute. reflexivity.
  - vm_compute. reflexivity.
  - vm_compute. reflexivity.
  - vm_compute. reflexivity.
  - intros _. reflexivity.
  - exists v. split; [exact Hcreate|]. split; [exact Hopen|]. rewrite Hv. reflexivity.
Defined.


End VaultItemExamples.

(** * Further properties of the ignore engine *)

Section Dedupe.
Import ignorefs ignore_spec ignore_rules_spec.

Lemma filter_all {A} (P : A -> Prop) `{forall x, Decision (P x)} (l : list A) :
  (forall x, x ∈ l -> P x) -> filter P l = l.
Proof.
  induction l as [|a l IH]; intros Hall; [reflexivity|].
  rewrite filter_cons_True by (apply Hall; left).
  rewrite IH; [reflexivity|]. intros x Hx. apply Hall. right. exact Hx.
Qed.

Lemma filter_none {A} (P : A -> Prop) `{forall x, Decision (P x)} (l : list A) :
  (forall x, x ∈ l -> ~ P x) -> filter P l = [].
Proof.
  induction l as [|a l IH]; intros Hall; [reflexivity|].
  rewrite filter_cons_False by (apply Hall; left).
  apply IH. intros x Hx. apply Hall. right. exact Hx.
Qed.

Lemma combineAndDedupe_concat (slices : list (list string)) :
  combineAndDedupe slices = fold_left add_new (concat slices) [].
Proof.
  change (combineAndDedupe slices)
    with (fold_left (fun result slice => fold_left add_new slice result) slices []).
  generalize (@nil string).
  induction slices as [|s rest IH]; intros acc; cbn [fold_left concat].
  - reflexivity.
  - rewrite fold_left_app. apply IH.
Qed.

Lemma first_occurrences_elem (l : list string) (x : string) :
  x ∈ first_occurrences l <-> x ∈ l.
Proof.
  induction l as [|y l IH]; cbn [first_occurrences]; [reflexivity|].
  rewrite !elem_of_cons, list_elem_of_filter, IH.
  destruct (decide (x = y)); tauto.
Qed.

Lemma first_occurrences_NoDup (l : list string) : NoDup (first_occurrences l).
Proof.
  induction l as [|y l IH]; cbn [first_occurrences]; constructor.
  - rewrite list_elem_of_filter. tauto.
  - apply NoDup_filter. exact IH.
Qed.

Lemma add_new_first_occurrences (l result : list string) :
  fold_left add_new l result
  = result ++ filter (fun y => y ∉ result) (first_occurrences l).
Proof.
  revert result. induction l as [|x l IH]; intros result;
    cbn [fold_left first_occurrences].
  - rewrite filter_nil, app_nil_r. reflexivity.
  - rewrite IH. unfold add_new. rewrite filter_cons.
    destruct (decide (x ∈ result)) as [Hx|Hx];
      [ rewrite (bool_decide_eq_true_2 _ Hx) | rewrite (bool_decide_eq_false_2 _ Hx) ].
    + rewrite decide_False by (intros Hn; exact (Hn Hx)). f_equal.
      rewrite list_filter_filter. apply list_filter_iff.
      intros y. split; [|intros [Hy _]; exact Hy].
      intros Hy. split; [exact Hy|]. intros ->. exact (Hy Hx).
    + rewrite decide_True by exact Hx. rewrite <- app_assoc. cbn [app]. do 2 f_equal.
      rewrite list_filter_filter. apply list_filter_iff.
      intros y. rewrite elem_of_app, list_elem_of_singleton. tauto.
Qed.

Lemma combineAndDedupe_first_occurrences (slices : list (list string)) :
  combineAndDedupe slices = first_occurrences (concat slices).
Proof.
  rewrite combineAndDedupe_concat, add_new_first_occurrences. cbn [app].
  apply filter_all. intros y _. apply not_elem_of_nil.
Qed.

Lemma first_occurrences_twice (l : list string) :
  first_occurrences (l ++ l) = first_occurrences l.
Proof.
  assert (Hfold : forall k, fold_left add_new k [] = first_occurrences k).
  { intros k. rewrite add_new_first_occurrences. cbn [app].
    apply filter_all. intros y _. apply not_elem_of_nil. }
  rewrite <- (Hfold (l ++ l)), fold_left_app, Hfold, add_new_first_occurrences.
  rewrite filter_none; [apply app_nil_r|].
  intros y Hy Hno. exact (Hno Hy).
Qed.

(** X10: [combineAndDedupe] returns the strings of its slices, taken one
    slice after the other, each string at the place of its first
    occurrence: the result has no string twice, and holds exactly the
    strings of the slices. *)
Theorem combineAndDedupe_keeps_first_occurrences (slices : list (list string)) :
  combineAndDedupe slices = first_occurrences (concat slices)
  /\ NoDup (combineAndDedupe slices)
  /\ (forall x, x ∈ combineAndDedupe slices <-> exists s, s ∈ slices /\ x ∈ s).
Proof.
  rewrite combineAndDedupe_first_occurrences. split; [reflexivity|].
  split; [apply first_occurrences_NoDup|].
  intros x. rewrite first_occurrences_elem, list_elem_of_In, in_concat.
  split; intros (s & H1 & H2); exists s; split; apply list_elem_of_In; assumption.
Qed.

End Dedupe.

Section IgnoreRules.
Import ignorefs ignore_spec ignore_rules_spec.
Context `{GitIgnore}.

Lemma parseLines_rules (baseDir : string) (lines : list string) (acc ms : list Matcher) :
  Forall2 (fun line m => ParseGitIgnore baseDir line = inr m)
    (List.filter rule_line lines) ms ->
  parseLines baseDir lines acc = Ok (acc ++ ms).
Proof.
  revert acc ms. induction lines as [|line rest IH]; intros acc ms Hall;
    cbn [parseLines List.filter] in *.
  - inversion Hall. rewrite app_nil_r. reflexivity.
  - unfold rule_line in Hall at 1.
    destruct (String.prefix "#" line); cbn [negb andb] in Hall; [apply IH; exact Hall|].
    destruct (blank line); cbn [negb] in Hall; [apply IH; exact Hall|].
    inversion Hall as [|l m ls ms' Hm Hrest]; subst.
    rewrite Hm. cbn [wrap obind]. rewrite (IH _ _ Hrest), <- app_assoc. reflexivity.
Qed.

Lemma parseLines_fails (baseDir : string) (pre post : list string) (line msg : string)
    (acc ms : list Matcher) :
  Forall2 (fun line m => ParseGitIgnore baseDir line = inr m)
    (List.filter rule_line pre) ms ->
  rule_line line = true ->
  ParseGitIgnore baseDir line = inl msg ->
  parseLines baseDir (pre ++ line :: post) acc
  = Err (ErrWrapped ("unable to parse ignore entry " +:+ line) (ErrExternal msg)).
Proof.
  revert acc ms. induction pre as [|l rest IH]; intros acc ms Hall Hrule Hbad;
    cbn [parseLines List.filter app] in *.
  - unfold rule_line in Hrule.
    destruct (String.prefix "#" line); [discriminate|].
    destruct (blank line); [discriminate|].
    rewrite Hbad. reflexivity.
  - unfold rule_line in Hall at 1.
    destruct (String.prefix "#" l); cbn [negb andb] in Hall; [eapply IH; eassumption|].
    destruct (blank l); cbn [negb] in Hall; [eapply IH; eassumption|].
    inversion Hall as [|l' m ls ms' Hm Hrest]; subst.
    rewrite Hm. cbn [wrap obind]. eapply IH; eassumption.
Qed.

(** X11: of the lines of an ignore file, those that start with "#" and
    those that are empty or white space never reach the rule parser; all
    others do, in order.  When the rule lines up to some point all parse,
    the file read that far yields their matchers, one per rule line in the
    order of the file; and a rule line after them that does not parse
    fails the whole file with an error that names the line. *)
Theorem parseIgnoreFile_rule_lines (baseDir : string) (pre : list string)
    (ms : list Matcher) :
  Forall2 (fun line m => ParseGitIgnore baseDir line = inr m)
    (List.filter rule_line pre) ms ->
  parseIgnoreFile baseDir (Ok pre) = Ok ms
  /\ (forall line msg post,
        rule_line line = true ->
        ParseGitIgnore baseDir line = inl msg ->
        parseIgnoreFile baseDir (Ok (pre ++ line :: post))
        = Err (ErrWrapped ("unable to parse ignore entry " +:+ line) (ErrExternal msg))).
Proof.
  intros Hall. cbn [parseIgnoreFile]. split.
  - rewrite (parseLines_rules _ _ [] ms Hall). reflexivity.
  - intros line msg post Hrule Hbad. exact (parseLines_fails _ _ _ _ _ [] ms Hall Hrule Hbad).
Qed.

(** Induction along the chain of parents. *)
Lemma ignoreContext_parent_ind (P : ignoreContext -> Prop) :
  (forall c, (forall p, parent c = Some p -> P p) -> P c) -> forall c, P c.
Proof.
  intros step. fix IH 1. intros c. apply step.
  destruct c as [[p|] g o dfs ms size]; cbn [parent]; intros q [= <-]. apply IH.
Qed.

Lemma chain_unfold (c : ignoreContext) :
  chain c = c :: match parent c with None => [] | Some p => chain p end.
Proof. destruct c; reflexivity. Qed.

Lemma shouldIncludeByName_chain (c : ignoreContext) (path : string) (e : Entry) :
  shouldIncludeByName c path e
  = (forallb (fun a => negb (rejects path e a)) (chain c), reports path e (chain c)).
Proof.
  induction c as [c IH] using ignoreContext_parent_ind.
  rewrite shouldIncludeByName_unfold, chain_unfold. cbn [forallb reports].
  unfold rejects at 1 3, report.
  destruct (existsb _ (matchers c)); cbn [negb andb]; [reflexivity|].
  destruct (parent c) as [p|]; [apply IH; reflexivity | reflexivity].
Qed.

Lemma reports_none (path : string) (e : Entry) (cs : list ignoreContext) :
  forallb (fun a => negb (rejects path e a)) cs = true -> reports path e cs = [].
Proof.
  induction cs as [|c cs IH]; cbn [forallb reports]; [reflexivity|].
  destruct (rejects path e c); cbn [negb andb]; [discriminate | exact IH].
Qed.

Lemma filterEntries_spec (d : ignoreDirectory) (c : ignoreContext) (entries : list Entry) :
  map underlying (fst (filterEntries d c entries))
  = List.filter (fun e => passes_rules d c e && within_size c e) entries
  /\ snd (filterEntries d c entries)
     = flat_map (fun e => reports (entry_path d e) e (chain c)) entries
  /\ Forall (handed_out d c) (fst (filterEntries d c entries)).
Proof.
  induction entries as [|e rest (IHk & IHc & IHw)];
    cbn [filterEntries List.filter flat_map].
  - repeat split. constructor.
  - rewrite shouldIncludeByName_chain.
    destruct (filterEntries d c rest) as [result calls']. cbn [fst snd] in *.
    unfold passes_rules at 1, within_size at 1, entry_path at 1 2.
    destruct (forallb _ (chain c)) eqn:Hpass; cbn [negb andb].
    + rewrite (reports_none _ _ _ Hpass). cbn [app].
      destruct ((0 <? maxFileSize c) && (maxFileSize c <? Size e)); cbn [negb fst snd].
      * repeat split; assumption.
      * repeat split; [|exact IHc|].
        -- cbn [map]. rewrite IHk. destruct e; reflexivity.
        -- constructor; [|exact IHw]. destruct e; cbn; auto.
    + cbn [fst snd]. repeat split; [exact IHk | rewrite IHc; reflexivity | exact IHw].
Qed.

(** X14: when the directory lists and its context builds, [Readdir]
    returns, in the order of the listing, exactly the entries that no rule
    of the context or of its ancestors matches and that are not larger
    than a positive size limit (directories included); it calls the
    callbacks only for entries matched by a rule, so an entry dropped for
    its size alone is not reported.  Every directory it returns is wrapped,
    with its own path and the directory's context as parent context. *)
Theorem Readdir_keeps (d : ignoreDirectory) (entries : list Entry) (c : ignoreContext) :
  dir_listing d = Ok entries ->
  buildContext d entries = Ok c ->
  exists kept,
    Readdir d = (Ok kept, flat_map (fun e => reports (entry_path d e) e (chain c)) entries)
    /\ map underlying kept
       = List.filter (fun e => passes_rules d c e && within_size c e) entries
    /\ (forall e, passes_rules d c e = true -> reports (entry_path d e) e (chain c) = [])
    /\ Forall (handed_out d c) kept.
Proof.
  intros Hlist Hctx. unfold Readdir. rewrite Hlist, Hctx.
  destruct (filterEntries_spec d c entries) as (Hk & Hc & Hw).
  destruct (filterEntries d c entries) as [kept calls]. cbn [fst snd] in *.
  exists kept. rewrite Hc. repeat split; try assumption.
  intros e. apply reports_none.
Qed.

(** X12: in a directory that has a policy, the ignore-file names of the
    context built for it are the policy's [DotIgnoreFiles] without
    repetitions, whatever the names the parent context looks for and
    whether or not the policy sets [NoParentDotIgnoreFiles]. *)
Theorem policy_replaces_dotIgnoreFiles (d : ignoreDirectory) (entries : list Entry)
    (policy : FilesPolicy) (c : ignoreContext) :
  policyGetter (parentContext d) (relativePath d) = Ok (Some policy) ->
  buildContext d entries = Ok c ->
  dotIgnoreFiles c = first_occurrences (DotIgnoreFiles policy).
Proof.
  intros Hp. rewrite (buildContext_policy _ _ _ Hp). unfold childContext.
  unfold overrideFromPolicy. cbn [dotIgnoreFiles matchers maxFileSize parent
    policyGetter onIgnore].
  destruct (appendRules _ _ _) as [ms| |]; cbn [obind]; try discriminate.
  intros Hload. apply loadDotIgnoreFiles_parent in Hload.
  destruct Hload as (_ & _ & _ & -> & _). cbn [dotIgnoreFiles].
  rewrite combineAndDedupe_first_occurrences.
  destruct (NoParentDotIgnoreFiles policy); cbn [concat app]; rewrite app_nil_r.
  - reflexivity.
  - apply first_occurrences_twice.
Qed.

(** X25: what a directory's context hands down.  The context [Readdir]
    builds for a directory has the policy getter and the callbacks of the
    parent context, so that an entry ignored at any depth is reported to
    the callbacks given to [New]; its size limit is the policy's
    [MaxFileSize] when the directory has a policy that sets one other than
    0, and the parent's limit otherwise. *)
Theorem built_context_inherits (d : ignoreDirectory) (entries : list Entry)
    (c : ignoreContext) :
  buildContext d entries = Ok c ->
  policyGetter c = policyGetter (parentContext d)
  /\ onIgnore c = onIgnore (parentContext d)
  /\ maxFileSize c
     = match policyGetter (parentContext d) (relativePath d) with
       | Ok (Some policy) =>
           if MaxFileSize policy =? 0 then maxFileSize (parentContext d)
           else MaxFileSize policy
       | _ => maxFileSize (parentContext d)
       end.
Proof.
  unfold buildContext.
  destruct (policyGetter (parentContext d) (relativePath d)) as [policy|e|m];
    try discriminate.
  destruct (negb _ && bool_decide (policy = None)) eqn:Hreuse.
  - intros [= <-]. apply andb_true_iff in Hreuse. destruct Hreuse as [_ Hnone].
    apply bool_decide_eq_true_1 in Hnone. subst policy. auto.
  - clear Hreuse. unfold childContext. destruct policy as [policy|]; cbn [obind].
    + unfold overrideFromPolicy. cbn [dotIgnoreFiles matchers maxFileSize parent
        policyGetter onIgnore].
      destruct (appendRules _ _ _) as [ms| |]; cbn [obind]; try discriminate.
      intros Hload. apply loadDotIgnoreFiles_parent in Hload.
      destruct Hload as (_ & -> & -> & _ & ->). cbn [policyGetter onIgnore maxFileSize].
      destruct (MaxFileSize policy =? 0); auto.
    + intros Hload. apply loadDotIgnoreFiles_parent in Hload.
      destruct Hload as (_ & -> & -> & _ & ->). auto.
Qed.

Lemma buildContext_transparent (d : ignoreDirectory) (entries : list Entry) :
  transparent (parentContext d) -> buildContext d entries = Ok (parentContext d).
Proof.
  intros (_ & _ & Hdot & _ & Hget). unfold buildContext. rewrite Hget, Hdot. reflexivity.
Qed.

Lemma seen_transparent (b : ignoreDirectory -> list Seen) (d : ignoreDirectory)
    (c : ignoreContext) (entries : list Entry) :
  transparent c ->
  seen b d (filterEntries d c entries)
  = flat_map
      (fun e =>
         Passed (relativePath d +:+ "/" +:+ Name e) e
         :: match e with
            | Directory name size listing =>
                b {| relativePath := relativePath d +:+ "/" +:+ Name e;
                     parentContext := c; dir_name := name; dir_size := size;
                     dir_listing := listing |}
            | _ => []
            end)
      entries.
Proof.
  intros (Hparent & Hms & _ & Hsize & _). unfold seen.
  assert (Hfilter : snd (filterEntries d c entries) = []
            /\ flat_map (visit b d) (fst (filterEntries d c entries))
               = flat_map
                   (fun e =>
                      Passed (relativePath d +:+ "/" +:+ Name e) e
                      :: match e with
                         | Directory name size listing =>
                             b {| relativePath := relativePath d +:+ "/" +:+ Name e;
                                  parentContext := c; dir_name := name; dir_size := size;
                                  dir_listing := listing |}
                         | _ => []
                         end)
                   entries).
  { induction entries as [|e rest [IHc IHk]]; cbn [filterEntries flat_map].
    - split; reflexivity.
    - rewrite shouldIncludeByName_unfold, Hms, Hparent. cbn [existsb].
      destruct (filterEntries d c rest) as [result calls']. cbn [fst snd] in *.
      rewrite (proj2 (Z.ltb_ge 0 (maxFileSize c)) Hsize). cbn [negb andb fst snd app].
      split; [exact IHc|]. cbn [flat_map]. rewrite IHk.
      destruct e; reflexivity. }
  destruct Hfilter as [-> ->]. reflexivity.
Qed.

Lemma walk_transparent (depth : nat) (d : ignoreDirectory) :
  transparent (parentContext d) ->
  walk depth d = list_all depth (relativePath d) (dir_listing d).
Proof.
  revert d. induction depth as [|depth IH]; intros d Ht; rewrite walk_unfold;
    (destruct (dir_listing d) as [entries|e|m]; [|reflexivity|reflexivity]);
    rewrite (buildContext_transparent _ _ Ht); unfold seen_under;
    rewrite (seen_transparent _ _ _ _ Ht); cbn [list_all below];
    apply flat_map_ext; intros e; (destruct e as [n s l|n s l|n s]; try reflexivity).
  f_equal. exact (IH {| relativePath := relativePath d +:+ "/" +:+ n;
                        parentContext := parentContext d; dir_name := n;
                        dir_size := s; dir_listing := l |} Ht).
Qed.

(** X13: without policies nothing is ignored.  When the policy getter
    given to [New] knows no policy for any path (or none is given), a client
    that lists the returned directory and the directories below it sees
    every entry of the tree, and no callback is called: ignore files in
    the tree are not read, since only a policy can name them. *)
Theorem no_policy_no_filter (name : string) (size : Z) (listing : outcome (list Entry))
    (getter : option FilesPolicyGetter) (options : list (option IgnoreCallback))
    (depth : nat) :
  (forall g, getter = Some g -> forall p, g p = Ok None) ->
  walk depth (New name size listing getter options) = list_all depth "." listing.
Proof.
  intros Hget. apply (walk_transparent depth (New name size listing getter options)).
  unfold New, transparent. cbn. repeat split; try reflexivity.
  destruct getter as [g|]; cbn.
  - apply Hget. reflexivity.
  - intros p. unfold FilesPolicyMap. rewrite lookup_empty. reflexivity.
Qed.

End IgnoreRules.

Section IgnoreRuleExamples.
Import ignorefs ignore_spec ignore_rules_spec.

(** The file of [example_a], with its comment, its blank lines and a
    line of one no-break space. *)
Lemma parseIgnoreFile_rule_lines_witness :
  exists m,
    ParseGitIgnore (GitIgnore := example_gitignore) "./a" "*.log" = inr m
    /\ parseIgnoreFile (H := example_gitignore) "./a"
         (Ok ["# comment"; "*.log"; "  "; ""; no_break_space]%string)
       = Ok [m].
Proof.
  destruct (ParseGitIgnore (GitIgnore := example_gitignore) "./a" "*.log") as [msg|m] eqn:E;
    [discriminate E|].
  exists m. split; [reflexivity|].
  apply (parseIgnoreFile_rule_lines (H := example_gitignore) "./a"
           ["# comment"; "*.log"; "  "; ""; no_break_space]%string [m]).
  change (List.filter rule_line ["# comment"; "*.log"; "  "; ""; no_break_space]%string)
    with ["*.log"%string].
  constructor; [exact E | constructor].
Defined.

(** "big.txt" and "bigdir" exceed the limit of 100 bytes and are dropped
    without a report; "big.log" is matched by the rule and reported. *)
Lemma Readdir_keeps_witness :
  exists kept,
    Readdir (H := example_gitignore) sized_root
    = (Ok kept, [{| callee := 3%nat; call_path := "./big.log";
                    call_entry := File "big.log" 500 (Ok []) |}])
    /\ map underlying kept = [File "small.txt" 100 (Ok [])].
Proof.
  destruct (buildContext (H := example_gitignore) sized_root sized_entries) as [c| |] eqn:Hc;
    [|discriminate Hc|discriminate Hc].
  destruct (Readdir_keeps (H := example_gitignore) sized_root sized_entries c eq_refl Hc)
    as (kept & Hread & Hkept & _).
  exists kept. rewrite Hread, Hkept.
  assert (Hc' : c = match buildContext (H := example_gitignore) sized_root sized_entries with
                    | Ok c => c
                    | _ => c
                    end) by (rewrite Hc; reflexivity).
  rewrite Hc'. split; vm_compute; reflexivity.
Defined.

Lemma built_context_inherits_witness :
  exists c,
    buildContext (H := example_gitignore) sized_root sized_entries = Ok c
    /\ onIgnore c = [3%nat] /\ maxFileSize c = 100.
Proof.
  destruct (buildContext (H := example_gitignore) sized_root sized_entries)
    as [c| |] eqn:Hc; [|discriminate Hc|discriminate Hc].
  exists c. split; [reflexivity|].
  destruct (built_context_inherits (H := example_gitignore) sized_root sized_entries c Hc)
    as (_ & Hcallbacks & Hsize).
  split; [exact Hcallbacks | exact Hsize].
Defined.

Lemma policy_replaces_dotIgnoreFiles_witness :
  exists c,
    buildContext (H := example_gitignore) (dotfile_directory false) [] = Ok c
    /\ dotIgnoreFiles c = [".kopiaignore"; ".gitignore"]%string.
Proof.
  destruct (buildContext (H := example_gitignore) (dotfile_directory false) [])
    as [c| |] eqn:Hc; [|discriminate Hc|discriminate Hc].
  exists c. split; [reflexivity|].
  rewrite (policy_replaces_dotIgnoreFiles (H := example_gitignore)
             (dotfile_directory false) [] (dotfile_policy false) c);
    [reflexivity | vm_compute; reflexivity | exact Hc].
Defined.

(** The tree holds ".kopiaignore" with the rule "*.log"; "drop.log" is
    listed all the same, at the root and in "sub". *)
Lemma no_policy_no_filter_witness :
  walk (H := example_gitignore) 1
    (New "root" 0 unnamed_ignore_file (Some (FilesPolicyMap ∅)) [Some 1%nat])
  = [ Passed "./.kopiaignore" (File ".kopiaignore" 6 (Ok ["*.log"%string]));
      Passed "./drop.log" drop_log;
      Passed "./sub" (Directory "sub" 0 sub_listing);
      Passed "./sub/keep.txt" keep_txt;
      Passed "./sub/drop.log" drop_log ].
Proof.
  rewrite (no_policy_no_filter (H := example_gitignore) "root" 0 unnamed_ignore_file
             (Some (FilesPolicyMap ∅)) [Some 1%nat] 1).
  - reflexivity.
  - intros g [= <-] p. unfold FilesPolicyMap. rewrite lookup_empty. reflexivity.
Defined.

End IgnoreRuleExamples.

(** * Further properties of the uploader *)

Section UploaderStore.
Import dir upload_spec dir_cancel upload_cache_spec.
Context {M : Type} `{ObjectManagerLaws M}.
Implicit Types (u : uploader) (n : Node) (m mgr : M) (st : @loopState M).

(** X15: what a first upload returns can be read back.  After
    [UploadDir] has succeeded with an empty [previous], the object behind
    the returned id is a listing with one entry per node of the directory,
    in the lister's order, each the lister's entry with an object id; the
    same holds, under their ids, for the directories among them, down the
    tree. *)
Theorem first_upload_stores_tree u n path m :
  snd (fst (UploadDir u n path ""%string m)) = None ->
  stored (snd (UploadDir u n path ""%string m)) n
    (fst (fst (UploadDir u n path ""%string m))).
Proof.
  intros Hok. destruct (UploadDir u n path "" m) as [[R e] m'] eqn:Hrun.
  cbn [fst snd] in *. subst e. exact (proj1 (first_run u n path m R m' Hrun)).
Qed.

Lemma loop_extends u path (cached : Listing) nodes :
  Forall (fun n => forall path previous m,
            extends m (snd (UploadDir u n path previous m))) nodes ->
  forall st, extends (manager st)
               (manager (snd (uploadEntries (UploadDir u) u path cached nodes st))).
Proof.
  induction 1 as [|n rest Hn _ IH]; intros st; cbn [uploadEntries].
  - apply extends_refl.
  - destruct (bool_decide (Type_ (entry_of n) = EntryTypeDirectory)).
    + pose proof (Hn (Join path (Name (entry_of n)))
                    (match FindEntryName cached (Name (entry_of n)) with
                     | Some c => ObjectID c
                     | None => ""%string
                     end) (manager st)) as Hext.
      destruct (UploadDir u n _ _ (manager st)) as [[oid [err|]] mgr']; cbn [snd] in *.
      * exact Hext.
      * eapply extends_trans; [exact Hext|]. apply (IH {| manager := mgr' |}).
    + destruct (metadataEquals _ _).
      * apply (IH {| manager := manager st |}).
      * pose proof (UploadFile_extends u (Join path (Name (entry_of n)))
                      (node_source n) (manager st)) as Hext.
        destruct (UploadFile u _ _ (manager st)) as [[oid [err|]] mgr']; cbn [snd] in *.
        -- exact Hext.
        -- eapply extends_trans; [exact Hext|]. apply (IH {| manager := mgr' |}).
Qed.

(** X16: an upload never loses an object.  Whatever the tree, the
    [previous] id and the outcome (success, error or cancellation), every
    object that could be opened before [UploadDir] can be opened after
    it, with the same content. *)
Theorem UploadDir_keeps_objects u n path (previous : content.ObjectID) m :
  extends m (snd (UploadDir u n path previous m)).
Proof.
  revert path previous m.
  induction n as [kind md src listing IH] using Node_nested_ind.
  intros path previous m. cbn [UploadDir].
  destruct (isCancelled u); [apply extends_refl|].
  destruct listing as [nodes|e]; [|apply extends_refl].
  pose proof (loop_extends u path (readCached m previous) nodes IH
                {| directoryMatchesCache :=
                     bool_decide (length (Entries (readCached m previous)) = length nodes);
                   uploaded := []; manager := m |}) as Hloop.
  destruct (uploadEntries _ _ _ _ _ _) as [[err|] st]; cbn [snd manager] in Hloop.
  - exact Hloop.
  - destruct (directoryMatchesCache st && bool_decide (previous <> ""%string));
      [exact Hloop|].
    pose proof (WriteObject_extends (manager st) ("DIR:" +:+ path) "D"
                  (WriteDir {| Entries := uploaded st |}) true) as Hw.
    destruct (WriteObject _ _ _ _ _) as [res mgr']; cbn [snd] in *.
    eapply extends_trans; eassumption.
Qed.

Lemma same_metadata_entry n n' : same_metadata n n' -> entry_of n = entry_of n'.
Proof.
  destruct n as [kind md src listing], n' as [kind' md' src' listing'].
  cbn. intros (-> & -> & _). reflexivity.
Qed.

Lemma same_metadata_names nodes nodes' :
  all2 same_metadata nodes nodes' ->
  map (fun n' => Name (entry_of n')) nodes = map (fun n' => Name (entry_of n')) nodes'.
Proof.
  revert nodes'. induction nodes as [|n rest IH]; intros [|n' rest']; cbn [all2 map];
    try tauto.
  intros [Hn Hrest]. rewrite (same_metadata_entry _ _ Hn), (IH _ Hrest). reflexivity.
Qed.

Lemma same_metadata_stored m n :
  forall n' oid, same_metadata n n' -> stored m n oid -> stored m n' oid.
Proof.
  induction n as [kind md src listing IH] using Node_nested_ind.
  intros [kind' md' src' listing'] oid. cbn [same_metadata].
  intros (-> & -> & Hl).
  destruct listing as [nodes|]; [|intros Hst; exact (False_ind _ Hst)].
  destruct listing' as [nodes'|]; [|exact (False_ind _ Hl)].
  rewrite !stored_unfold. intros (Hne & es & Hopen & Hall).
  split; [exact Hne|]. exists es. split; [exact Hopen|].
  clear Hopen Hne. revert nodes' es Hl Hall.
  induction IH as [|n rest Hn _ IHrest]; intros [|n' rest'] [|e es]; cbn [all2];
    try tauto.
  intros [Hsame Hrest] [[He Hdir] Hall].
  split; [|apply IHrest; assumption].
  unfold entry_for. rewrite <- (same_metadata_entry _ _ Hsame). split; [exact He|].
  intros Hty. apply (Hn _ _ Hsame), Hdir, Hty.
Qed.

Lemma same_metadata_well_named n :
  forall n', same_metadata n n' -> well_named n -> well_named n'.
Proof.
  induction n as [kind md src listing IH] using Node_nested_ind.
  intros [kind' md' src' listing']. cbn [same_metadata].
  intros (-> & -> & Hl).
  destruct listing as [nodes|], listing' as [nodes'|]; cbn [well_named];
    try tauto.
  intros [Hnodup Hall]. split.
  - rewrite <- (same_metadata_names _ _ Hl). exact Hnodup.
  - clear Hnodup. revert nodes' Hl Hall.
    induction IH as [|n rest Hn _ IHrest]; intros [|n' rest']; cbn [all2 all1];
      try tauto.
    intros [Hsame Hrest] [Hwn Hall]. split; [exact (Hn _ Hsame Hwn)|].
    apply IHrest; assumption.
Qed.

(** X17: the uploader trusts the metadata.  After a successful first
    upload of a tree (with distinct names in each directory), uploading
    with the returned id as [previous] any tree of the same shape whose
    nodes have the same type, name, size, mode, modification time and
    owner returns that id and leaves the object manager as it was: files
    whose bytes have changed are not read, and nothing is written. *)
Theorem same_metadata_returns_previous u n n' path (m0 : M) :
  isCancelled u = false ->
  well_named n ->
  same_metadata n n' ->
  snd (fst (UploadDir u n path ""%string m0)) = None ->
  UploadDir u n' path (fst (fst (UploadDir u n path ""%string m0)))
    (snd (UploadDir u n path ""%string m0))
  = ((fst (fst (UploadDir u n path ""%string m0)), None),
     snd (UploadDir u n path ""%string m0)).
Proof.
  intros Hc Hwn Hsame Hok.
  destruct (UploadDir u n path "" m0) as [[R e] m1] eqn:Hrun. cbn [fst snd] in *.
  subst e. apply second_run; [exact Hc | | ].
  - exact (same_metadata_well_named _ _ Hsame Hwn).
  - apply (same_metadata_stored _ _ _ _ Hsame).
    exact (proj1 (first_run u n path m0 R m1 Hrun)).
Qed.

(** X18: the id that comes with an error.  When [UploadDir] returns an
    error, then either the uploader was cancelled, and the result is
    [previous] with [ErrUploadCancelled] and an untouched object manager;
    or the returned id is the null id; or id and error are those the
    writer of the directory object gave, which [UploadDir] returns as
    they are.  After [Cancel] every upload is of the first kind; an
    uploader made by [NewUploader] is not cancelled. *)
Theorem failed_upload_id u n path (previous : content.ObjectID) m
    (oid : content.ObjectID) (err : error) :
  fst (UploadDir u n path previous m) = (oid, Some err) ->
  (if isCancelled u
   then UploadDir u n path previous m = ((previous, Some ErrUploadCancelled), m)
   else oid = content.NullObjectID
        \/ exists m0 es,
             WriteObject m0 ("DIR:" +:+ path) "D" (WriteDir {| Entries := es |}) true
             = ((oid, Some err), snd (UploadDir u n path previous m)))
  /\ UploadDir (Cancel u) n path previous m = ((previous, Some ErrUploadCancelled), m)
  /\ isCancelled (fst NewUploader) = false.
Proof.
  intros Hres. split; [|split; [destruct n as [? ? ? [?|?]]; reflexivity | reflexivity]].
  destruct n as [kind md src listing].
  destruct (isCancelled u) eqn:Hc; [cbn [UploadDir]; rewrite Hc; reflexivity|].
  destruct listing as [nodes|e].
  - rewrite (UploadDir_unfold u kind md src nodes path previous m Hc) in Hres |- *.
    destruct (uploadEntries _ _ _ _ _ _) as [[e|] st] eqn:Hloop; cbn [fst] in Hres.
    + left. congruence.
    + destruct (directoryMatchesCache st && bool_decide (previous <> ""%string));
        cbn [fst] in Hres; [discriminate|].
      right. exists (manager st), (uploaded st).
      destruct (WriteObject _ _ _ _ _) as [res mgr']. cbn [fst snd] in *.
      rewrite Hres. reflexivity.
  - cbn [UploadDir] in Hres. rewrite Hc in Hres. cbn [fst] in Hres. left. congruence.
Qed.

(** The loop never sets [directoryMatchesCache], and records one entry
    per node. *)
Lemma loop_keeps_mismatch u path (cached : Listing) nodes :
  forall st st',
    uploadEntries (UploadDir u) u path cached nodes st = (None, st') ->
    (directoryMatchesCache st = false -> directoryMatchesCache st' = false)
    /\ map Name (uploaded st')
       = map Name (uploaded st) ++ map (fun n => Name (entry_of n)) nodes.
Proof.
  induction nodes as [|n rest IH]; intros st st'; cbn [uploadEntries].
  - intros [= <-]. rewrite app_nil_r. auto.
  - assert (Hstep : forall (matches' : bool) oid mgr',
              (directoryMatchesCache st = false -> matches' = false) ->
              uploadEntries (UploadDir u) u path cached rest
                {| directoryMatchesCache := matches';
                   uploaded := uploaded st ++ [with_ObjectID (entry_of n) oid];
                   manager := mgr' |} = (None, st') ->
              (directoryMatchesCache st = false -> directoryMatchesCache st' = false)
              /\ map Name (uploaded st')
                 = map Name (uploaded st)
                     ++ Name (entry_of n) :: map (fun n => Name (entry_of n)) rest).
    { intros matches' oid mgr' Hm Hloop. apply IH in Hloop.
      cbn [directoryMatchesCache uploaded] in Hloop. destruct Hloop as [Hkeep Hnames].
      split; [intros Hf; apply Hkeep, Hm, Hf|].
      rewrite Hnames, map_app, <- app_assoc. reflexivity. }
    assert (Hand : forall b : bool,
              directoryMatchesCache st = false -> directoryMatchesCache st && b = false)
      by (intros b ->; reflexivity).
    destruct (bool_decide (Type_ (entry_of n) = EntryTypeDirectory)).
    + destruct (UploadDir u n _ _ (manager st)) as [[oid [err|]] mgr']; [discriminate|].
      apply Hstep.
      intros Hf. destruct (FindEntryName cached (Name (entry_of n))) as [c|];
        [destruct (bool_decide (oid <> ObjectID c)); [reflexivity|]|]; apply Hand, Hf.
    + destruct (metadataEquals _ _) eqn:Hmeta.
      * apply Hstep. apply Hand.
      * destruct (UploadFile u _ _ (manager st)) as [[oid [err|]] mgr']; [discriminate|].
        apply Hstep. apply Hand.
Qed.

(** X27: an added or a removed entry is noticed.  When the directory
    lists another number of entries than the cached listing holds, a
    successful [UploadDir] does not return [previous] unread: it writes a
    directory object, and the object behind the id it returns lists the
    names of the current entries, in the lister's order. *)
Theorem changed_entry_count_writes_listing u kind md src nodes path
    (previous : content.ObjectID) m :
  length (Entries (readCached m previous)) <> length nodes ->
  snd (fst (UploadDir u (MkNode kind md src (Ok nodes)) path previous m)) = None ->
  exists es m0,
    WriteObject m0 ("DIR:" +:+ path) "D" (WriteDir {| Entries := es |}) true
    = ((fst (fst (UploadDir u (MkNode kind md src (Ok nodes)) path previous m)), None),
       snd (UploadDir u (MkNode kind md src (Ok nodes)) path previous m))
    /\ Open (snd (UploadDir u (MkNode kind md src (Ok nodes)) path previous m))
         (fst (fst (UploadDir u (MkNode kind md src (Ok nodes)) path previous m)))
       = Ok (DirObject {| Entries := es |})
    /\ map Name es = map (fun n => Name (entry_of n)) nodes.
Proof.
  intros Hcount Hok.
  destruct (UploadDir u (MkNode kind md src (Ok nodes)) path previous m)
    as [[R e] m'] eqn:Hrun. cbn [fst snd] in *. subst e.
  destruct (UploadDir_succeeds_on_listing _ _ _ _ _ _ _ Hrun) as [Hc _].
  rewrite (UploadDir_unfold u kind md src nodes path previous m Hc) in Hrun.
  destruct (uploadEntries _ _ _ _ _ _) as [[err|] st] eqn:Hloop; [discriminate|].
  apply loop_keeps_mismatch in Hloop. destruct Hloop as [Hkeep Hnames].
  rewrite Hkeep in Hrun
    by (cbn [loop_start directoryMatchesCache]; apply bool_decide_eq_false_2, Hcount).
  cbn [andb] in Hrun.
  destruct (WriteObject (manager st) _ _ _ _) as [[oid [e|]] mgr'] eqn:Hw;
    try discriminate.
  injection Hrun as <- <-.
  exists (uploaded st), (manager st). split; [exact Hw|]. split.
  - exact (written_opens _ _ _ _ _ _ _ Hw).
  - exact Hnames.
Qed.

End UploaderStore.

Section UploadCacheExamples.
Import dir upload_spec dir_cancel upload_cache_spec.

(** The root object of the first upload lists the three entries with
    their ids. *)
Lemma first_upload_stores_tree_witness :
  stored (snd (UploadDir example_uploader example_tree "/src" "" empty_manager))
    example_tree
    (fst (fst (UploadDir example_uploader example_tree "/src" "" empty_manager))).
Proof.
  apply (first_upload_stores_tree example_uploader example_tree "/src" empty_manager).
  vm_compute. reflexivity.
Defined.

(** The root object of the first upload can still be opened after the
    upload of the touched tree. *)
Lemma UploadDir_keeps_objects_witness :
  exists o,
    Open (snd (UploadDir example_uploader example_tree "/src" "" empty_manager))
      (fst (fst (UploadDir example_uploader example_tree "/src" "" empty_manager)))
    = Ok o
    /\ Open (snd (UploadDir example_uploader touched_tree "/src"
                    (fst (fst (UploadDir example_uploader example_tree "/src" ""
                                 empty_manager)))
                    (snd (UploadDir example_uploader example_tree "/src" ""
                            empty_manager))))
         (fst (fst (UploadDir example_uploader example_tree "/src" "" empty_manager)))
       = Ok o.
Proof.
  eexists. split; [vm_compute; reflexivity|].
  apply (UploadDir_keeps_objects example_uploader touched_tree "/src"
           (fst (fst (UploadDir example_uploader example_tree "/src" "" empty_manager)))
           (snd (UploadDir example_uploader example_tree "/src" "" empty_manager))).
  vm_compute. reflexivity.
Defined.

(** "file1" now holds "HELLO"; the second run returns the id of the tree
    that held "hello". *)
Lemma same_metadata_returns_previous_witness :
  UploadDir example_uploader rewritten_tree "/src"
    (fst (fst (UploadDir example_uploader example_tree "/src" "" empty_manager)))
    (snd (UploadDir example_uploader example_tree "/src" "" empty_manager))
  = ((fst (fst (UploadDir example_uploader example_tree "/src" "" empty_manager)), None),
     snd (UploadDir example_uploader example_tree "/src" "" empty_manager)).
Proof.
  apply (same_metadata_returns_previous example_uploader example_tree rewritten_tree
           "/src" empty_manager).
  - reflexivity.
  - exact example_tree_well_named.
  - cbn. repeat split.
  - vm_compute. reflexivity.
Defined.

(** "file2" has been deleted: the root is written again, with two
    entries. *)
Lemma changed_entry_count_writes_listing_witness :
  exists es,
    Open (snd (UploadDir example_uploader shrunk_tree "/src"
                 (fst (fst (UploadDir example_uploader example_tree "/src" ""
                              empty_manager)))
                 (snd (UploadDir example_uploader example_tree "/src" ""
                         empty_manager))))
      (fst (fst (UploadDir example_uploader shrunk_tree "/src"
                   (fst (fst (UploadDir example_uploader example_tree "/src" ""
                                empty_manager)))
                   (snd (UploadDir example_uploader example_tree "/src" ""
                           empty_manager)))))
    = Ok (DirObject {| Entries := es |})
    /\ map Name es = ["file1"; "sub"]%string.
Proof.
  destruct (changed_entry_count_writes_listing example_uploader EntryTypeDirectory
              {| md_name := "root"; md_size := 0; md_mode := 493; md_mtime := 5;
                 md_owner := (1000, 1000) |}
              {| open_error := None; file_bytes := [];
                 failure := Some (0%nat, ErrExternal "is a directory") |}
              [ file_node "file1" 5 1 "hello";
                dir_node "sub" 4 [ file_node "inner" 3 2 "abc" ] ]
              "/src"
              (fst (fst (UploadDir example_uploader example_tree "/src" "" empty_manager)))
              (snd (UploadDir example_uploader example_tree "/src" "" empty_manager)))
    as (es & m0 & _ & Hopen & Hnames).
  - vm_compute. lia.
  - vm_compute. reflexivity.
  - exists es. split; [exact Hopen | exact Hnames].
Defined.

(** The directory "sub" cannot be listed: the id is the null id.  Under
    a manager that refuses directories, the id of the failed upload of
    "sub" is the one its writer gave. *)
Lemma failed_upload_id_witness :
  fst (UploadDir example_uploader broken_tree "/src" "Dprevious" empty_manager)
  = (content.NullObjectID, Some (ErrExternal "permission denied"))
  /\ exists m0 es,
       WriteObject (ObjectManager := files_only) m0 "DIR:/src/sub" "D"
         (WriteDir {| Entries := es |}) true
       = (("Dbb72e917df1096157dde38154777ab857724129946df83f4799c00c87549e366"%string,
           Some (ErrExternal "no space left on device")),
          snd (UploadDir (H := files_only) example_uploader
                 (dir_node "sub" 4 [ file_node "inner" 3 2 "abc" ]) "/src/sub" ""
                 empty_manager)).
Proof.
  split.
  - destruct (failed_upload_id example_uploader broken_tree "/src" "Dprevious"
                empty_manager
                (fst (fst (UploadDir example_uploader broken_tree "/src" "Dprevious"
                             empty_manager)))
                (ErrExternal "permission denied")) as (_ & _ & _);
      vm_compute; reflexivity.
  - destruct (failed_upload_id (H := files_only) example_uploader
                (dir_node "sub" 4 [ file_node "inner" 3 2 "abc" ]) "/src/sub" ""
                empty_manager
                "Dbb72e917df1096157dde38154777ab857724129946df83f4799c00c87549e366"
                (ErrExternal "no space left on device")) as ([Hnull|Hw] & _ & _).
    + vm_compute. reflexivity.
    + discriminate Hnull.
    + exact Hw.
Defined.

End UploadCacheExamples.

(** * The verifier *)

Section EntryInduction.
Import cli.
Variable P : Entry -> Prop.
Hypothesis step : forall name isDir fileSize objectID entries err,
    Forall P entries -> P (MkEntry name isDir fileSize objectID entries err).

Fixpoint Entry_nested_ind (e : Entry) : P e :=
  match e with
  | MkEntry name isDir fileSize objectID entries err =>
      step name isDir fileSize objectID entries err
        ((fix each (l : list Entry) : Forall P l :=
            match l with
            | [] => Forall_nil_2 P
            | e' :: l' => Forall_cons_2 P e' l' (Entry_nested_ind e') (each l')
            end) entries)
  end.
End EntryInduction.

Section Verifier.
Import cli verify_spec.
Context (flags : Flags) (VerifyObject : string -> Z * option error).
Implicit Types (v : verifier) (d e : Entry) (path oid : string).

Lemma verified_app (a b : list line) : verified (a ++ b) = verified a ++ verified b.
Proof. apply flat_map_app. Qed.

Lemma listed_app (a b : list line) : listed (a ++ b) = listed a ++ listed b.
Proof. apply flat_map_app. Qed.

(** What a call of [verifyObject] does, by cases: nothing for a visited
    id; otherwise it marks the id, writes lines among which one
    "verifying object" line, and returns an error exactly when the object
    does not verify or has another length than expected. *)
Lemma verifyObject_cases v oid path (n : Z) :
  (oid ∈ visited v /\ verifyObject VerifyObject v oid path n = (None, v))
  \/ (oid ∉ visited v
      /\ exists lines,
          snd (verifyObject VerifyObject v oid path n)
          = {| visited := {[ oid ]} ∪ visited v; errors := errors v;
               output := output v ++ lines |}
          /\ verified lines = [oid] /\ listed lines = []
          /\ existsb is_error lines = false
          /\ (fst (verifyObject VerifyObject v oid path n) = None
              <-> snd (VerifyObject oid) = None
                  /\ (n <> -1 -> fst (VerifyObject oid) = n))).
Proof.
  unfold verifyObject. destruct (decide (oid ∈ visited v)) as [Hin|Hout].
  - left. rewrite (bool_decide_eq_true_2 _ Hin). auto.
  - right. rewrite (bool_decide_eq_false_2 _ Hout). split; [exact Hout|].
    unfold log, visit. cbn [visited errors output].
    destruct (VerifyObject oid) as [length [err|]]; cbn [fst snd].
    + destruct (n <? 0); eexists; (split; [reflexivity|]); cbn [fst];
        repeat split; try reflexivity; try discriminate; intros [? _]; discriminate.
    + destruct (n =? -1) eqn:Hminus.
      * apply Z.eqb_eq in Hminus. subst n. cbn [Z.ltb Z.compare snd fst].
        exists [LogVerifyingObject oid; LogObjectLength length].
        cbn [visited errors output]. rewrite <- app_assoc.
        repeat split; try reflexivity. intros Hne. contradiction.
      * apply Z.eqb_neq in Hminus.
        destruct (length =? n) eqn:Hlen; cbn [negb].
        -- apply Z.eqb_eq in Hlen. subst n.
           destruct (length <? 0); eexists; (split; [reflexivity|]); cbn [fst];
             repeat split; reflexivity.
        -- apply Z.eqb_neq in Hlen.
           destruct (n <? 0); eexists; (split; [reflexivity|]); cbn [fst];
             repeat split; try reflexivity; try discriminate;
             intros [_ Hn]; exfalso; apply Hlen, Hn, Hminus.
Qed.

(** A property of the verifier's state that every step keeps is kept by
    the walk. *)
Section StateInvariant.
Variable I : verifier -> Prop.
Hypothesis I_report : forall v path err, I v -> I (snd (reportError flags v path err)).
Hypothesis I_object : forall v oid path n,
    I v -> I (snd (verifyObject VerifyObject v oid path n)).
Hypothesis I_enter : forall v oid path,
    oid ∉ visited v -> I v -> I (log (visit v oid) (LogVerifyingDirectory path oid)).

Lemma verifyEntries_keeps
    (vd : Entry -> verifier -> string -> option failure * verifier)
    (entries : list Entry) path :
  Forall (fun e => forall v path, I v -> I (snd (vd e v path))) entries ->
  forall v, I v -> I (snd (verifyEntries flags VerifyObject vd v path entries)).
Proof.
  induction 1 as [|e rest He _ IH]; intros v Hv; cbn [verifyEntries]; [exact Hv|].
  assert (Hfirst :
    exists r1 v1,
      (if IsDir e && verifyCommandRecursive flags
       then match vd e v (path +:+ "/" +:+ Name e) with
            | (Some err, v) =>
                let '(full, v) := reportError flags v (path +:+ "/" +:+ Name e) err in
                (if full then Some err else None, v)
            | (None, v) => (None, v)
            end
       else (None, v)) = (r1, v1) /\ I v1).
  { destruct (IsDir e && verifyCommandRecursive flags); [|eauto].
    pose proof (He v (path +:+ "/" +:+ Name e) Hv) as Hv1.
    destruct (vd e v _) as [[err|] v1]; cbn [snd] in Hv1; [|eauto].
    pose proof (I_report v1 (path +:+ "/" +:+ Name e) err Hv1) as Hv2.
    destruct (reportError flags v1 _ err) as [full v2]. eauto. }
  destruct Hfirst as (r1 & v1 & -> & Hv1).
  destruct r1 as [err|]; [exact Hv1|].
  pose proof (I_object v1 (ObjectID e) (path +:+ "/" +:+ Name e) (FileSize e) Hv1) as Hv2.
  destruct (verifyObject VerifyObject v1 _ _ _) as [[err|] v2]; cbn [snd] in Hv2;
    [|apply IH, Hv2].
  pose proof (I_report v2 (path +:+ "/" +:+ Name e) err Hv2) as Hv3.
  destruct (reportError flags v2 _ err) as [[|] v3]; cbn [snd] in Hv3;
    [exact Hv3 | apply IH, Hv3].
Qed.

Lemma verifyDirectory_keeps d :
  forall v path, I v -> I (snd (verifyDirectory flags VerifyObject d v path)).
Proof.
  induction d as [name isDir size oid entries err IH] using Entry_nested_ind.
  intros v path Hv. cbn [verifyDirectory].
  destruct (decide (oid ∈ visited v)) as [Hin|Hout];
    [rewrite (bool_decide_eq_true_2 _ Hin); exact Hv|].
  rewrite (bool_decide_eq_false_2 _ Hout).
  pose proof (I_enter v oid path Hout Hv) as Hv1.
  set (v1 := log (visit v oid) (LogVerifyingDirectory path oid)) in *.
  destruct err as [err|]; [|apply verifyEntries_keeps; assumption].
  pose proof (I_report v1 path (ErrReadingDirectory path oid err) Hv1) as Hv2.
  destruct (reportError flags v1 path _) as [[|] v2]; cbn [snd] in Hv2;
    [exact Hv2 | apply verifyEntries_keeps; assumption].
Qed.
End StateInvariant.

Lemma tidy_report v path err : tidy v -> tidy (snd (reportError flags v path err)).
Proof.
  unfold tidy. cbn [reportError snd log output visited].
  rewrite verified_app, listed_app. cbn [verified listed flat_map].
  rewrite !app_nil_r. exact id.
Qed.

Lemma tidy_object v oid path n :
  tidy v -> tidy (snd (verifyObject VerifyObject v oid path n)).
Proof.
  intros [Hnodup Hvis].
  destruct (verifyObject_cases v oid path n)
    as [[_ ->]|(Hout & lines & -> & Hver & Hlist & _)]; [split; assumption|].
  unfold tidy. cbn [output visited]. rewrite verified_app, listed_app, Hver, Hlist, app_nil_r.
  split.
  - rewrite <- app_assoc. cbn [app].
    apply NoDup_app in Hnodup. destruct Hnodup as (Hv & Hdisj & Hl).
    apply NoDup_app. split; [exact Hv|]. split.
    + intros x Hx. rewrite elem_of_cons. intros [->|Hx'].
      * apply Hout, Hvis, elem_of_app. left. exact Hx.
      * exact (Hdisj x Hx Hx').
    + apply NoDup_cons. split; [|exact Hl].
      intros Hx. apply Hout, Hvis, elem_of_app. right. exact Hx.
  - intros x. rewrite !elem_of_app, list_elem_of_singleton, elem_of_union, elem_of_singleton.
    intros [[Hx| ->]|Hx]; [right; apply Hvis, elem_of_app; left; exact Hx | left; reflexivity
                          | right; apply Hvis, elem_of_app; right; exact Hx].
Qed.

Lemma tidy_enter v oid path :
  oid ∉ visited v -> tidy v -> tidy (log (visit v oid) (LogVerifyingDirectory path oid)).
Proof.
  intros Hout [Hnodup Hvis]. unfold tidy. cbn [log visit output visited].
  rewrite verified_app, listed_app. cbn [verified listed flat_map]. rewrite !app_nil_r.
  split.
  - rewrite app_assoc. apply NoDup_app. split; [exact Hnodup|]. split.
    + intros x Hx. rewrite list_elem_of_singleton. intros ->. apply Hout, Hvis, Hx.
    + apply NoDup_singleton.
  - intros x. rewrite app_assoc, elem_of_app, list_elem_of_singleton, elem_of_union,
      elem_of_singleton.
    intros [Hx| ->]; [right; apply Hvis, Hx | left; reflexivity].
Qed.

(** X20: whatever the flags, the repository and the outcome, no object
    is verified twice and no directory is read twice in one run of the
    command: every object id has at most one "verifying" line in the log,
    be it as an object or as a directory. *)
Theorem verified_at_most_once (parsed : error + Entry) :
  NoDup (verified (output (snd (runVerifyCommand flags VerifyObject parsed)))
         ++ listed (output (snd (runVerifyCommand flags VerifyObject parsed)))).
Proof.
  assert (Hstart : tidy {| visited := ∅; errors := []; output := [] |}).
  { split; [apply NoDup_nil_2|]. intros x Hx. inversion Hx. }
  assert (Hend : tidy (snd (runVerifyCommand flags VerifyObject parsed))).
  { unfold runVerifyCommand. destruct parsed as [err|root]; [exact Hstart|].
    set (v1 := if verifyCommandRecursive flags then _ else _).
    assert (Hv1 : tidy v1).
    { unfold v1. destruct (verifyCommandRecursive flags); [|exact Hstart].
      apply (verifyDirectory_keeps tidy tidy_report tidy_object tidy_enter). exact Hstart. }
    pose proof (tidy_object v1 (ObjectID root) (ObjectID root) (-1) Hv1) as Hv2.
    destruct (errors _) as [|e1 [|e2 rest]]; exact Hv2. }
  exact (proj1 Hend).
Qed.

(** X19: without the flag [--recursive] the command cannot fail once
    the path has been parsed: the error [verifyObject] returns for the one
    object it verifies is dropped, nothing is recorded, and the command
    returns nil, whether or not the object verifies. *)
Theorem flat_verification_never_fails (root : Entry) :
  verifyCommandRecursive flags = false ->
  fst (runVerifyCommand flags VerifyObject (inr root)) = None
  /\ verified (output (snd (runVerifyCommand flags VerifyObject (inr root))))
     = [ObjectID root]
  /\ listed (output (snd (runVerifyCommand flags VerifyObject (inr root)))) = [].
Proof.
  intros Hflat. unfold runVerifyCommand. rewrite Hflat.
  destruct (verifyObject_cases {| visited := ∅; errors := []; output := [] |}
              (ObjectID root) (ObjectID root) (-1))
    as [[Hin _]|(_ & lines & -> & Hver & Hlist & _)].
  - cbn [visited] in Hin. apply not_elem_of_empty in Hin. contradiction.
  - cbn [errors fst snd output app]. auto.
Qed.

Lemma visited_grows d v path (S : gset string) :
  S ⊆ visited v -> S ⊆ visited (snd (verifyDirectory flags VerifyObject d v path)).
Proof.
  apply (verifyDirectory_keeps (fun v => S ⊆ visited v)).
  - intros v0 p err Hs. exact Hs.
  - intros v0 oid p n Hs.
    destruct (verifyObject_cases v0 oid p n) as [[_ ->]|(_ & lines & -> & _)];
      [exact Hs|]. cbn [visited]. set_solver.
  - intros v0 oid p _ Hs. cbn [log visit visited]. set_solver.
Qed.

Lemma verifyDirectory_visits d v path :
  ObjectID d ∈ visited (snd (verifyDirectory flags VerifyObject d v path)).
Proof.
  destruct d as [name isDir size oid entries err]. cbn [verifyDirectory ObjectID].
  destruct (decide (oid ∈ visited v)) as [Hin|Hout];
    [rewrite (bool_decide_eq_true_2 _ Hin); exact Hin|].
  rewrite (bool_decide_eq_false_2 _ Hout).
  set (v1 := log (visit v oid) (LogVerifyingDirectory path oid)).
  assert (Hv1 : oid ∈ visited v1)
    by (cbn [v1 log visit visited]; apply elem_of_union; left; apply elem_of_singleton;
        reflexivity).
  assert (Hloop : forall v2, oid ∈ visited v2 ->
            oid ∈ visited (snd (verifyEntries flags VerifyObject
                                  (verifyDirectory flags VerifyObject) v2 path entries))).
  { intros v2 Hv2.
    apply (verifyEntries_keeps (fun v => oid ∈ visited v)); try assumption.
    - intros v0 p e Hs. exact Hs.
    - intros v0 oid' p n Hs.
      destruct (verifyObject_cases v0 oid' p n) as [[_ ->]|(_ & lines & -> & _)];
        [exact Hs|]. cbn [visited]. apply elem_of_union. right. exact Hs.
    - apply Forall_forall. intros e _ v0 p Hs.
      apply singleton_subseteq_l, visited_grows, singleton_subseteq_l, Hs. }
  destruct err as [err|]; [|apply Hloop, Hv1].
  assert (Hv2 : oid ∈ visited (snd (reportError flags v1 path
                                      (ErrReadingDirectory path oid err))))
    by exact Hv1.
  destruct (reportError flags v1 path _) as [[|] v2]; cbn [snd] in Hv2;
    [exact Hv2 | apply Hloop, Hv2].
Qed.

Lemma file_ids_unfold name isDir size oid entries err (x : string) :
  x ∈ file_ids (MkEntry name isDir size oid entries err)
  <-> exists e, e ∈ entries /\ ((IsDir e = false /\ x = ObjectID e) \/ x ∈ file_ids e).
Proof.
  unfold file_ids. cbn [below].
  induction entries as [|e rest IH]; cbn [flat_map app List.filter].
  - split; [intros Hx; inversion Hx | intros (e & He & _); inversion He].
  - rewrite List.filter_app.
    assert (Hrest : (exists e', e' ∈ e :: rest
                       /\ ((IsDir e' = false /\ x = ObjectID e')
                           \/ x ∈ map ObjectID (List.filter (fun e => negb (IsDir e))
                                                  (below e'))))
                    <-> ((IsDir e = false /\ x = ObjectID e)
                         \/ x ∈ map ObjectID (List.filter (fun e => negb (IsDir e)) (below e)))
                        \/ exists e', e' ∈ rest
                              /\ ((IsDir e' = false /\ x = ObjectID e')
                                  \/ x ∈ map ObjectID (List.filter (fun e => negb (IsDir e))
                                                         (below e')))).
    { split.
      - intros (e' & He' & Hx). apply elem_of_cons in He'. destruct He' as [->|He'];
          [left; exact Hx | right; exists e'; auto].
      - intros [Hx|(e' & He' & Hx)]; [exists e; split; [left|exact Hx]
                                     | exists e'; split; [right; exact He'|exact Hx]]. }
    rewrite Hrest, <- IH. clear Hrest IH.
    destruct (IsDir e); cbn [negb map]; rewrite map_app;
      rewrite ?elem_of_cons, elem_of_app; split.
    + tauto.
    + intros [[[Hf _]|Hx]|Hx]; [discriminate | auto | auto].
    + intros [->|[Hx|Hx]]; auto.
    + intros [[[_ ->]|Hx]|Hx]; auto.
Qed.

Lemma reportError_effect v path err :
  snd (reportError flags v path err)
  = {| visited := visited v; errors := errors v ++ [ErrValidating path err];
       output := output v ++ [LogError (ErrValidating path err)] |}.
Proof. reflexivity. Qed.

Lemma sound_unfold name isDir size oid entries err :
  sound VerifyObject (MkEntry name isDir size oid entries err)
  <-> err = None /\ sound_entries VerifyObject entries.
Proof. reflexivity. Qed.

Lemma below_ids name isDir size oid entries err :
  map ObjectID (below (MkEntry name isDir size oid entries err))
  = flat_map all_ids entries.
Proof.
  cbn [below]. induction entries as [|e rest IH]; cbn [flat_map]; [reflexivity|].
  rewrite map_app, IH. reflexivity.
Qed.

Lemma advance_refl v : advance v v [] True.
Proof. split; [auto|]. exists []. rewrite app_nil_r. auto. Qed.

Lemma advance_trans v v1 v2 ids1 ids2 (S1 S2 : Prop) :
  advance v v1 ids1 S1 -> advance v1 v2 ids2 S2 ->
  advance v v2 (ids1 ++ ids2) (S1 /\ S2).
Proof.
  intros [Hvis1 (x1 & He1 & Hs1)] [Hvis2 (x2 & He2 & Hs2)]. split.
  - intros x Hx. rewrite elem_of_app.
    destruct (Hvis2 x Hx) as [Hx1|?]; [|auto]. destruct (Hvis1 x Hx1); auto.
  - exists (x1 ++ x2). rewrite He2, He1, <- app_assoc. split; [reflexivity|].
    intros Hnil. apply app_eq_nil in Hnil. destruct Hnil. auto.
Qed.

Lemma advance_weaken v v' ids ids' (S S' : Prop) :
  advance v v' ids S -> (forall x, x ∈ ids -> x ∈ ids') -> (S -> S') ->
  advance v v' ids' S'.
Proof.
  intros [Hvis (extra & He & Hs)] Hids Himp. split.
  - intros x Hx. destruct (Hvis x Hx); auto.
  - exists extra. auto.
Qed.

Lemma advance_report v path err (S : Prop) :
  advance v (snd (reportError flags v path err)) [] S.
Proof.
  rewrite reportError_effect. split; [auto|].
  exists [ErrValidating path err]. split; [reflexivity | discriminate].
Qed.

Section Recursive.
Hypothesis Hrec : verifyCommandRecursive flags = true.

(** In recursive mode the loop verifies the files of the directory and
    what the walk of its directories verifies. *)
Lemma verifyEntries_files path (entries : list Entry) :
  Forall (fun e => forall v path x,
            x ∈ verified (output (snd (verifyDirectory flags VerifyObject e v path))) ->
            x ∈ verified (output v) \/ x ∈ file_ids e) entries ->
  forall v x,
    x ∈ verified (output (snd (verifyEntries flags VerifyObject
                                 (verifyDirectory flags VerifyObject) v path entries))) ->
    x ∈ verified (output v)
    \/ exists e, e ∈ entries /\ ((IsDir e = false /\ x = ObjectID e) \/ x ∈ file_ids e).
Proof.
  induction 1 as [|e rest He _ IH]; intros v x; cbn [verifyEntries]; [auto|].
  rewrite Hrec, andb_true_r.
  assert (Hlater : forall v1,
            (x ∈ verified (output v1) ->
             x ∈ verified (output v) \/ (IsDir e = false /\ x = ObjectID e)
             \/ x ∈ file_ids e) ->
            x ∈ verified (output (snd (verifyEntries flags VerifyObject
                                         (verifyDirectory flags VerifyObject) v1 path rest))) ->
            x ∈ verified (output v)
            \/ exists e', e' ∈ e :: rest
                          /\ ((IsDir e' = false /\ x = ObjectID e') \/ x ∈ file_ids e')).
  { intros v1 Hv1 Hx. destruct (IH v1 x Hx) as [Hx1|(e' & He' & Hx1)].
    - destruct (Hv1 Hx1) as [?|?]; [auto|]. right. exists e. split; [left|assumption].
    - right. exists e'. split; [right; exact He'|exact Hx1]. }
  assert (Hreport : forall v1 err,
            verified (output (snd (reportError flags v1 (path +:+ "/" +:+ Name e) err)))
            = verified (output v1)).
  { intros v1 err. rewrite reportError_effect. cbn [output].
    rewrite verified_app. apply app_nil_r. }
  destruct (IsDir e) eqn:Hdir.
  - (* a directory: walked, then skipped by [verifyObject] *)
    pose proof (He v (path +:+ "/" +:+ Name e) x) as Hchild.
    pose proof (verifyDirectory_visits e v (path +:+ "/" +:+ Name e)) as Hvis.
    destruct (verifyDirectory flags VerifyObject e v _) as [[err|] v1]; cbn [snd] in *.
    + pose proof (Hreport v1 err) as Hrep.
      destruct (reportError flags v1 _ err) as [[|] v2] eqn:Erep; cbn [snd] in Hrep |- *.
      * rewrite Hrep. intros Hx. destruct (Hchild Hx) as [?|?]; [auto|].
        right. exists e. split; [left|auto].
      * assert (Hvis2 : ObjectID e ∈ visited v2).
        { replace v2 with (snd (reportError flags v1 (path +:+ "/" +:+ Name e) err))
            by (rewrite Erep; reflexivity). exact Hvis. }
        destruct (verifyObject_cases v2 (ObjectID e) (path +:+ "/" +:+ Name e)
                    (FileSize e)) as [[_ ->]|[Hout _]]; [|contradiction].
        apply Hlater. rewrite Hrep. intros Hx.
        destruct (Hchild Hx); auto.
    + destruct (verifyObject_cases v1 (ObjectID e) (path +:+ "/" +:+ Name e)
                  (FileSize e)) as [[_ ->]|[Hout _]]; [|contradiction].
      apply Hlater. intros Hx. destruct (Hchild Hx); auto.
  - (* a file *)
    destruct (verifyObject_cases v (ObjectID e) (path +:+ "/" +:+ Name e) (FileSize e))
      as [[_ ->]|(_ & lines & Hv1 & Hver & _)].
    + apply Hlater. auto.
    + destruct (verifyObject VerifyObject v _ _ _) as [[err|] v1]; cbn [snd] in Hv1;
        subst v1.
      * pose proof (Hreport {| visited := {[ObjectID e]} ∪ visited v; errors := errors v;
                              output := output v ++ lines |} err) as Hrep.
        destruct (reportError flags _ _ err) as [[|] v2]; cbn [snd] in Hrep |- *.
        -- rewrite Hrep. cbn [output]. rewrite verified_app, Hver, elem_of_app,
             list_elem_of_singleton.
           intros [?| ->]; [auto|]. right. exists e. split; [left|auto].
        -- apply Hlater. rewrite Hrep. cbn [output].
           rewrite verified_app, Hver, elem_of_app, list_elem_of_singleton.
           intros [?| ->]; auto.
      * apply Hlater. cbn [output].
        rewrite verified_app, Hver, elem_of_app, list_elem_of_singleton.
        intros [?| ->]; auto.
Qed.

Lemma verifyDirectory_files d :
  forall v path x,
    x ∈ verified (output (snd (verifyDirectory flags VerifyObject d v path))) ->
    x ∈ verified (output v) \/ x ∈ file_ids d.
Proof.
  induction d as [name isDir size oid entries err IH] using Entry_nested_ind.
  intros v path x. cbn [verifyDirectory].
  destruct (bool_decide (oid ∈ visited v)); [auto|].
  set (v1 := log (visit v oid) (LogVerifyingDirectory path oid)).
  assert (Hv1 : verified (output v1) = verified (output v)).
  { cbn [v1 log visit output]. rewrite verified_app. apply app_nil_r. }
  assert (Hloop : forall v2, verified (output v2) = verified (output v) ->
            x ∈ verified (output (snd (verifyEntries flags VerifyObject
                                         (verifyDirectory flags VerifyObject) v2 path entries))) ->
            x ∈ verified (output v)
            \/ x ∈ file_ids (MkEntry name isDir size oid entries err)).
  { intros v2 Hv2 Hx.
    destruct (verifyEntries_files path entries IH v2 x Hx) as [Hx2|Hx2].
    - left. rewrite <- Hv2. exact Hx2.
    - right. apply file_ids_unfold. exact Hx2. }
  destruct err as [err|]; [|apply Hloop, Hv1].
  assert (Hv2 : verified (output (snd (reportError flags v1 path
                                         (ErrReadingDirectory path oid err))))
                = verified (output v)).
  { rewrite reportError_effect. cbn [output]. rewrite verified_app, Hv1. apply app_nil_r. }
  destruct (reportError flags v1 path _) as [[|] v2]; cbn [snd] in Hv2 |- *.
  - rewrite Hv2. auto.
  - apply Hloop, Hv2.
Qed.

(** X21: with [--recursive] only files are verified.  Every object the
    command hands to [om.VerifyObject] is the object of an entry below the
    root that is not a directory: the objects of the directories, the
    root's among them, are read as directories and then skipped by
    [verifyObject], since reading them has marked them as visited. *)
Theorem recursive_verifies_files_only (root : Entry) :
  verified (output (snd (runVerifyCommand flags VerifyObject (inr root))))
  ⊆ file_ids root.
Proof.
  intros x. unfold runVerifyCommand. rewrite Hrec.
  set (v0 := {| visited := ∅; errors := []; output := [] |}).
  pose proof (verifyDirectory_visits root v0 (ObjectID root)) as Hvis.
  pose proof (verifyDirectory_files root v0 (ObjectID root) x) as Hfiles.
  destruct (verifyObject_cases (snd (verifyDirectory flags VerifyObject root v0 (ObjectID root)))
              (ObjectID root) (ObjectID root) (-1)) as [[_ ->]|[Hout _]];
    [|contradiction].
  cbn [snd]. intros Hx.
  assert (Hx' : x ∈ verified (output (snd (verifyDirectory flags VerifyObject root v0
                                             (ObjectID root)))))
    by (destruct (errors _) as [|e1 [|e2 l]]; exact Hx).
  destruct (Hfiles Hx') as [Hnil|Hgood]; [inversion Hnil | exact Hgood].
Qed.

Lemma verifyObject_skips_directory e v path :
  verifyObject VerifyObject
    (snd (verifyDirectory flags VerifyObject e v path)) (ObjectID e) path (FileSize e)
  = (None, snd (verifyDirectory flags VerifyObject e v path)).
Proof.
  destruct (verifyObject_cases (snd (verifyDirectory flags VerifyObject e v path))
              (ObjectID e) path (FileSize e)) as [[_ ->]|[Hout _]]; [reflexivity|].
  destruct (Hout (verifyDirectory_visits e v path)).
Qed.

(** A sound tree is walked without an error. *)
Lemma verifyEntries_complete path (entries : list Entry) :
  Forall (fun e => sound VerifyObject e ->
            forall v path,
              fst (verifyDirectory flags VerifyObject e v path) = None
              /\ errors (snd (verifyDirectory flags VerifyObject e v path)) = errors v)
    entries ->
  sound_entries VerifyObject entries ->
  forall v,
    fst (verifyEntries flags VerifyObject (verifyDirectory flags VerifyObject)
           v path entries) = None
    /\ errors (snd (verifyEntries flags VerifyObject (verifyDirectory flags VerifyObject)
                      v path entries)) = errors v.
Proof.
  induction 1 as [|e rest He _ IH]; cbn [sound_entries fold_right verifyEntries];
    [auto|].
  intros [Hsound Hrest] v. rewrite Hrec, andb_true_r.
  destruct (IsDir e) eqn:Hdir.
  - destruct (He Hsound v (path +:+ "/" +:+ Name e)) as [Hnone Herr].
    pose proof (verifyObject_skips_directory e v (path +:+ "/" +:+ Name e)) as Hskip.
    destruct (verifyDirectory flags VerifyObject e v _) as [r v1]. cbn [fst snd] in *.
    subst r. rewrite Hskip. destruct (IH Hrest v1) as [Hn He1].
    split; [exact Hn | congruence].
  - destruct (verifyObject_cases v (ObjectID e) (path +:+ "/" +:+ Name e) (FileSize e))
      as [[_ ->]|(_ & lines & Hv1 & _ & _ & _ & Hnone)]; [apply IH, Hrest|].
    pose proof (proj2 Hnone Hsound) as Hr.
    destruct (verifyObject VerifyObject v _ _ _) as [r v1]. cbn [fst snd] in *.
    subst r v1. destruct (IH Hrest {| visited := {[ObjectID e]} ∪ visited v;
                                      errors := errors v;
                                      output := output v ++ lines |}) as [Hn He1].
    split; [exact Hn | exact He1].
Qed.

Lemma verifyDirectory_complete d :
  sound VerifyObject d ->
  forall v path,
    fst (verifyDirectory flags VerifyObject d v path) = None
    /\ errors (snd (verifyDirectory flags VerifyObject d v path)) = errors v.
Proof.
  induction d as [name isDir size oid entries err IH] using Entry_nested_ind.
  rewrite sound_unfold. intros [-> Hentries] v path. cbn [verifyDirectory].
  destruct (bool_decide (oid ∈ visited v)); [auto|].
  destruct (verifyEntries_complete path entries IH Hentries
              (log (visit v oid) (LogVerifyingDirectory path oid))) as [Hn He].
  split; [exact Hn | exact He].
Qed.

(** On a tree without repeated ids, a walk that records no error has
    found the tree sound. *)
Lemma verifyEntries_sound path (entries : list Entry) :
  Forall (fun e => forall v path,
            NoDup (all_ids e) ->
            (forall x, x ∈ all_ids e -> x ∉ visited v) ->
            advance v (snd (verifyDirectory flags VerifyObject e v path))
              (all_ids e) (sound VerifyObject e)) entries ->
  forall v,
    NoDup (flat_map all_ids entries) ->
    (forall x, x ∈ flat_map all_ids entries -> x ∉ visited v) ->
    advance v (snd (verifyEntries flags VerifyObject (verifyDirectory flags VerifyObject)
                      v path entries))
      (flat_map all_ids entries) (sound_entries VerifyObject entries).
Proof.
  induction 1 as [|e rest He _ IH]; intros v Hnodup Hfresh;
    cbn [verifyEntries flat_map sound_entries fold_right].
  { apply advance_refl. }
  apply NoDup_app in Hnodup. destruct Hnodup as (Hnodup_e & Hdisjoint & Hnodup_rest).
  assert (Hfresh_e : forall x, x ∈ all_ids e -> x ∉ visited v)
    by (intros x Hx; apply Hfresh, elem_of_app; left; exact Hx).
  (* the rest of the loop, from a state reached within the ids of [e] *)
  assert (Hrest : forall v1 (S : Prop),
            advance v v1 (all_ids e) S ->
            advance v (snd (verifyEntries flags VerifyObject
                              (verifyDirectory flags VerifyObject) v1 path rest))
              (all_ids e ++ flat_map all_ids rest)
              (S /\ sound_entries VerifyObject rest)).
  { intros v1 S Hadv. apply (advance_trans v v1 _ _ _ _ _ Hadv).
    apply IH; [exact Hnodup_rest|].
    intros x Hx Hvis. destruct (proj1 Hadv x Hvis) as [Hv|He1].
    - apply (Hfresh x); [apply elem_of_app; right; exact Hx | exact Hv].
    - exact (Hdisjoint x He1 Hx). }
  rewrite Hrec, andb_true_r. destruct (IsDir e) eqn:Hdir.
  - pose proof (He v (path +:+ "/" +:+ Name e) Hnodup_e Hfresh_e) as Hchild.
    pose proof (verifyObject_skips_directory e v (path +:+ "/" +:+ Name e)) as Hskip.
    pose proof (verifyDirectory_visits e v (path +:+ "/" +:+ Name e)) as Hvis.
    destruct (verifyDirectory flags VerifyObject e v _) as [[err|] v1];
      cbn [fst snd] in *.
    + (* the child's error is reported: not sound whatever follows *)
      pose proof (advance_trans _ _ _ _ _ _ _ Hchild
                    (advance_report v1 (path +:+ "/" +:+ Name e) err False)) as Hrep.
      rewrite app_nil_r in Hrep.
      assert (Hskip' : verifyObject VerifyObject
                         (snd (reportError flags v1 (path +:+ "/" +:+ Name e) err))
                         (ObjectID e) (path +:+ "/" +:+ Name e) (FileSize e)
                       = (None, snd (reportError flags v1 (path +:+ "/" +:+ Name e) err))).
      { destruct (verifyObject_cases
                    (snd (reportError flags v1 (path +:+ "/" +:+ Name e) err))
                    (ObjectID e) (path +:+ "/" +:+ Name e) (FileSize e))
          as [[_ ->]|[Hout _]]; [reflexivity|].
        destruct (Hout Hvis). }
      destruct (reportError flags v1 _ err) as [[|] v2]; cbn [fst snd] in *.
      * apply (advance_weaken _ _ _ _ _ _ Hrep);
          [intros x Hx; apply elem_of_app; left; exact Hx | tauto].
      * rewrite Hskip'.
        apply (advance_weaken _ _ _ _ _ _ (Hrest v2 _ Hrep)); [auto | tauto].
    + rewrite Hskip.
      apply (advance_weaken _ _ _ _ _ _ (Hrest v1 _ Hchild)); [auto|].
      intros [Hs1 Hs2]. split; assumption.
  - assert (Hout : ObjectID e ∉ visited v) by (apply Hfresh_e; left).
    destruct (verifyObject_cases v (ObjectID e) (path +:+ "/" +:+ Name e) (FileSize e))
      as [[Hin _]|(_ & lines & Hv1 & _ & _ & _ & Hnone)]; [contradiction|].
    assert (Hobject : advance v
              (snd (verifyObject VerifyObject v (ObjectID e) (path +:+ "/" +:+ Name e)
                      (FileSize e))) (all_ids e) True).
    { rewrite Hv1. split.
      - intros x. cbn [visited]. rewrite elem_of_union, elem_of_singleton.
        intros [->|?]; [right; left | auto].
      - exists []. rewrite app_nil_r. auto. }
    destruct (verifyObject VerifyObject v _ _ _) as [[err|] v1]; cbn [fst snd] in *.
    + pose proof (advance_trans _ _ _ _ _ _ _ Hobject
                    (advance_report v1 (path +:+ "/" +:+ Name e) err False)) as Hrep.
      rewrite app_nil_r in Hrep.
      destruct (reportError flags v1 _ err) as [[|] v2]; cbn [fst snd] in *.
      * apply (advance_weaken _ _ _ _ _ _ Hrep);
          [intros x Hx; apply elem_of_app; left; exact Hx | tauto].
      * apply (advance_weaken _ _ _ _ _ _ (Hrest v2 _ Hrep)); [auto | tauto].
    + apply (advance_weaken _ _ _ _ _ _ (Hrest v1 _ Hobject)); [auto|].
      intros [_ Hs]. split; [|exact Hs].
      apply Hnone. reflexivity.
Qed.

Lemma verifyDirectory_sound d :
  forall v path,
    NoDup (all_ids d) ->
    (forall x, x ∈ all_ids d -> x ∉ visited v) ->
    advance v (snd (verifyDirectory flags VerifyObject d v path))
      (all_ids d) (sound VerifyObject d).
Proof.
  induction d as [name isDir size oid entries err IH] using Entry_nested_ind.
  intros v path. unfold all_ids at 1 2. rewrite below_ids. cbn [ObjectID].
  intros Hnodup Hfresh. apply NoDup_cons in Hnodup. destruct Hnodup as [Hown Hnodup].
  cbn [verifyDirectory].
  rewrite bool_decide_eq_false_2 by (apply Hfresh; left).
  set (v1 := log (visit v oid) (LogVerifyingDirectory path oid)).
  assert (Hv1 : advance v v1 [oid] True).
  { split.
    - intros x. cbn [v1 log visit visited]. rewrite elem_of_union, elem_of_singleton.
      intros [->|?]; [right; left | auto].
    - exists []. rewrite app_nil_r. auto. }
  assert (Hloop : forall v2 (S : Prop),
            advance v v2 [oid] S ->
            advance v (snd (verifyEntries flags VerifyObject
                              (verifyDirectory flags VerifyObject) v2 path entries))
              ([oid] ++ flat_map all_ids entries)
              (S /\ sound_entries VerifyObject entries)).
  { intros v2 S Hadv. apply (advance_trans v v2 _ _ _ _ _ Hadv).
    apply verifyEntries_sound; [exact IH | exact Hnodup|].
    intros x Hx Hvis. destruct (proj1 Hadv x Hvis) as [Hv|Ho].
    - apply (Hfresh x); [right; exact Hx | exact Hv].
    - apply list_elem_of_singleton in Ho. subst x. exact (Hown Hx). }
  assert (Hids : forall x, x ∈ [oid] ++ flat_map all_ids entries ->
            x ∈ all_ids (MkEntry name isDir size oid entries err)).
  { intros x Hx. unfold all_ids. rewrite below_ids. exact Hx. }
  destruct err as [err|].
  - pose proof (advance_trans _ _ _ _ _ _ _ Hv1
                  (advance_report v1 path (ErrReadingDirectory path oid err) False))
      as Hrep.
    destruct (reportError flags v1 path _) as [[|] v2]; cbn [fst snd] in *.
    + apply (advance_weaken _ _ _ _ _ _ Hrep); [|tauto].
      intros x Hx. apply Hids. rewrite app_nil_r in Hx.
      apply elem_of_app. left. exact Hx.
    + rewrite app_nil_r in Hrep.
      apply (advance_weaken _ _ _ _ _ _ (Hloop v2 _ Hrep)); [exact Hids | tauto].
  - apply (advance_weaken _ _ _ _ _ _ (Hloop v1 _ Hv1)); [exact Hids|].
    intros [_ Hs]. apply sound_unfold. split; [reflexivity | exact Hs].
Qed.

(** X23: what a recursive verification without error stands for.  A
    tree in which every directory can be read and every file's object
    verifies with the recorded length is verified without error; and on a
    tree in which no object id occurs twice the converse holds: when the
    command returns nil, every directory below the root was read and
    every file's object verified with the recorded length. *)
Theorem recursive_verification_sound (root : Entry) :
  (sound VerifyObject root ->
   fst (runVerifyCommand flags VerifyObject (inr root)) = None)
  /\ (NoDup (all_ids root) ->
      fst (runVerifyCommand flags VerifyObject (inr root)) = None ->
      sound VerifyObject root).
Proof.
  unfold runVerifyCommand. rewrite Hrec.
  set (v0 := {| visited := ∅; errors := []; output := [] |}).
  pose proof (verifyObject_skips_directory root v0 (ObjectID root)) as Hskip.
  assert (Hsame : snd (verifyObject VerifyObject
                         (snd (verifyDirectory flags VerifyObject root v0 (ObjectID root)))
                         (ObjectID root) (ObjectID root) (-1))
                  = snd (verifyDirectory flags VerifyObject root v0 (ObjectID root))).
  { destruct (verifyObject_cases
                (snd (verifyDirectory flags VerifyObject root v0 (ObjectID root)))
                (ObjectID root) (ObjectID root) (-1)) as [[_ ->]|[Hout _]];
      [reflexivity|].
    destruct (Hout (verifyDirectory_visits root v0 (ObjectID root))). }
  rewrite Hsame. clear Hskip Hsame. split.
  - intros Hsound.
    destruct (verifyDirectory_complete root Hsound v0 (ObjectID root)) as [_ ->].
    reflexivity.
  - intros Hnodup.
    destruct (verifyDirectory_sound root v0 (ObjectID root) Hnodup)
      as [_ (extra & He & Hs)].
    { intros x _. apply not_elem_of_empty. }
    rewrite He. cbn [v0 errors app].
    destruct extra as [|e1 [|e2 rest]]; cbn [fst]; [auto | discriminate..].
Qed.

End Recursive.

Lemma quiet_app (a b : list line) : quiet a -> quiet b -> quiet (a ++ b).
Proof. unfold quiet. rewrite existsb_app. intros -> ->. reflexivity. Qed.

Lemma stops_after_quiet v v1 r v' (lines : list line) :
  errors v1 = errors v -> output v1 = output v ++ lines -> quiet lines ->
  stops_at_error v1 r v' -> stops_at_error v r v'.
Proof.
  intros He Ho Hq. destruct r as [err|]; cbn [stops_at_error]; rewrite He, Ho.
  - intros (lines' & errs & Hne & Herr & Hout & Hq').
    exists (lines ++ lines'), errs. rewrite Herr, Hout, <- !app_assoc.
    repeat split; [exact Hne | apply quiet_app; assumption].
  - intros (Herr & lines' & Hout & Hq').
    split; [exact Herr|]. exists (lines ++ lines'). rewrite Hout, <- app_assoc.
    split; [reflexivity | apply quiet_app; assumption].
Qed.

Section FirstError.
Hypothesis Hthreshold : verifyCommandErrorThreshold flags <= 1.

Lemma reportError_full v path err : fst (reportError flags v path err) = true.
Proof.
  cbn [reportError fst log errors]. apply Z.leb_le. unfold len.
  rewrite length_app. cbn [length]. lia.
Qed.

(** A report ends the walk: the error recorded and its line come
    last. *)
Lemma report_stops v r v1 path err :
  stops_at_error v r v1 ->
  stops_at_error v (Some err) (snd (reportError flags v1 path err)).
Proof.
  rewrite reportError_effect. cbn [stops_at_error errors output].
  destruct r as [err'|]; cbn [stops_at_error].
  - intros (lines & errs & Hne & -> & -> & Hq).
    exists lines, (errs ++ [ErrValidating path err]).
    rewrite map_app, <- !app_assoc. repeat split; [|exact Hq].
    destruct errs; discriminate.
  - intros (-> & lines & -> & Hq).
    exists lines, [ErrValidating path err]. rewrite <- app_assoc.
    repeat split; [discriminate | exact Hq].
Qed.

Lemma verifyObject_quiet v oid path n :
  stops_at_error v None (snd (verifyObject VerifyObject v oid path n)).
Proof.
  destruct (verifyObject_cases v oid path n)
    as [[_ ->]|(_ & lines & -> & _ & _ & Hq & _)]; cbn [stops_at_error snd errors output].
  - split; [reflexivity|]. exists []. rewrite app_nil_r. split; reflexivity.
  - split; [reflexivity|]. exists lines. split; [reflexivity | exact Hq].
Qed.

Lemma verifyEntries_stops
    (vd : Entry -> verifier -> string -> option failure * verifier)
    path (entries : list Entry) :
  Forall (fun e => forall v path,
            stops_at_error v (fst (vd e v path)) (snd (vd e v path))) entries ->
  forall v,
    stops_at_error v (fst (verifyEntries flags VerifyObject vd v path entries))
      (snd (verifyEntries flags VerifyObject vd v path entries)).
Proof.
  induction 1 as [|e rest He _ IH]; intros v; cbn [verifyEntries].
  - cbn. split; [reflexivity|]. exists []. rewrite app_nil_r. split; reflexivity.
  - assert (Hobject : forall v1,
              stops_at_error v None v1 ->
              stops_at_error v
                (fst match verifyObject VerifyObject v1 (ObjectID e)
                             (path +:+ "/" +:+ Name e) (FileSize e) with
                     | (Some err, v2) =>
                         let '(full, v3) :=
                           reportError flags v2 (path +:+ "/" +:+ Name e) err in
                         if full then (Some err, v3)
                         else verifyEntries flags VerifyObject vd v3 path rest
                     | (None, v2) => verifyEntries flags VerifyObject vd v2 path rest
                     end)
                (snd match verifyObject VerifyObject v1 (ObjectID e)
                             (path +:+ "/" +:+ Name e) (FileSize e) with
                     | (Some err, v2) =>
                         let '(full, v3) :=
                           reportError flags v2 (path +:+ "/" +:+ Name e) err in
                         if full then (Some err, v3)
                         else verifyEntries flags VerifyObject vd v3 path rest
                     | (None, v2) => verifyEntries flags VerifyObject vd v2 path rest
                     end)).
    { intros v1 (Herr1 & lines1 & Hout1 & Hq1).
      pose proof (verifyObject_quiet v1 (ObjectID e) (path +:+ "/" +:+ Name e)
                    (FileSize e)) as (Herr2 & lines2 & Hout2 & Hq2).
      destruct (verifyObject VerifyObject v1 _ _ _) as [[err|] v2]; cbn [snd] in *.
      - pose proof (reportError_full v2 (path +:+ "/" +:+ Name e) err) as Hfull.
        pose proof (report_stops v None v2 (path +:+ "/" +:+ Name e) err) as Hstop.
        destruct (reportError flags v2 _ err) as [full v3]. cbn [fst snd] in *.
        subst full. cbn [fst snd]. apply Hstop. split; [congruence|].
        exists (lines1 ++ lines2). rewrite Hout2, Hout1, <- app_assoc.
        split; [reflexivity | apply quiet_app; assumption].
      - apply (stops_after_quiet v v2 _ _ (lines1 ++ lines2)); [congruence | |
          apply quiet_app; assumption | apply IH].
        rewrite Hout2, Hout1, <- app_assoc. reflexivity. }
    assert (Hrefl : stops_at_error v None v).
    { split; [reflexivity|]. exists []. rewrite app_nil_r. split; reflexivity. }
    destruct (IsDir e && verifyCommandRecursive flags); [|apply Hobject, Hrefl].
    pose proof (He v (path +:+ "/" +:+ Name e)) as Hchild.
    destruct (vd e v _) as [[err|] v1]; cbn [fst snd] in Hchild;
      [|apply Hobject, Hchild].
    pose proof (reportError_full v1 (path +:+ "/" +:+ Name e) err) as Hfull.
    pose proof (report_stops v (Some err) v1 (path +:+ "/" +:+ Name e) err Hchild)
      as Hstop.
    destruct (reportError flags v1 _ err) as [full v2]. cbn [fst snd] in *.
    subst full. exact Hstop.
Qed.

Lemma verifyDirectory_stops d :
  forall v path,
    stops_at_error v (fst (verifyDirectory flags VerifyObject d v path))
      (snd (verifyDirectory flags VerifyObject d v path)).
Proof.
  induction d as [name isDir size oid entries err IH] using Entry_nested_ind.
  intros v path. cbn [verifyDirectory].
  destruct (bool_decide (oid ∈ visited v)).
  { cbn. split; [reflexivity|]. exists []. rewrite app_nil_r. split; reflexivity. }
  set (v1 := log (visit v oid) (LogVerifyingDirectory path oid)).
  assert (Hv1 : stops_at_error v None v1).
  { split; [reflexivity|]. exists [LogVerifyingDirectory path oid].
    split; reflexivity. }
  destruct err as [err|].
  - pose proof (reportError_full v1 path (ErrReadingDirectory path oid err)) as Hfull.
    pose proof (report_stops v None v1 path (ErrReadingDirectory path oid err) Hv1)
      as Hstop.
    destruct (reportError flags v1 path _) as [full v2]. cbn [fst snd] in *.
    subst full. exact Hstop.
  - destruct Hv1 as (Herr & lines & Hout & Hq).
    apply (stops_after_quiet v v1 _ _ lines Herr Hout Hq).
    apply verifyEntries_stops, IH.
Qed.

(** X22: with [--max-errors] 0 (the default) or 1 the first error ends
    the run.  In the log every line that reports an error comes after
    every line of another kind, so nothing is verified or read once an
    error has been reported, and the lines that report errors are those of
    the recorded errors, in order. *)
Theorem first_error_stops_the_walk (parsed : error + Entry) :
  exists lines,
    output (snd (runVerifyCommand flags VerifyObject parsed))
    = lines ++ map LogError (errors (snd (runVerifyCommand flags VerifyObject parsed)))
    /\ quiet lines.
Proof.
  unfold runVerifyCommand. destruct parsed as [err|root].
  { exists []. split; reflexivity. }
  set (v0 := {| visited := ∅; errors := []; output := [] |}).
  assert (Hend : exists lines v',
            snd (verifyObject VerifyObject
                   (if verifyCommandRecursive flags
                    then snd (verifyDirectory flags VerifyObject root v0 (ObjectID root))
                    else v0) (ObjectID root) (ObjectID root) (-1)) = v'
            /\ output v' = lines ++ map LogError (errors v') /\ quiet lines).
  { destruct (verifyCommandRecursive flags).
    - pose proof (verifyDirectory_visits root v0 (ObjectID root)) as Hvis.
      pose proof (verifyDirectory_stops root v0 (ObjectID root)) as Hstop.
      destruct (verifyObject_cases
                  (snd (verifyDirectory flags VerifyObject root v0 (ObjectID root)))
                  (ObjectID root) (ObjectID root) (-1)) as [[_ ->]|[Hout _]];
        [|contradiction].
      cbn [snd].
      destruct (verifyDirectory flags VerifyObject root v0 (ObjectID root))
        as [[err|] v1]; cbn [fst snd stops_at_error] in *.
      + destruct Hstop as (lines & errs & _ & Herr & Hout & Hq).
        exists lines, v1. rewrite Hout, Herr. auto.
      + destruct Hstop as (Herr & lines & Hout & Hq).
        exists lines, v1. rewrite Hout, Herr. cbn [map]. rewrite app_nil_r. auto.
    - pose proof (verifyObject_quiet v0 (ObjectID root) (ObjectID root) (-1))
        as (Herr & lines & Hout & Hq).
      exists lines. eexists. split; [reflexivity|]. rewrite Hout, Herr.
      cbn [v0 output errors map app]. rewrite app_nil_r. auto. }
  destruct Hend as (lines & v' & -> & Hout & Hq).
  exists lines. destruct (errors v') as [|e1 [|e2 rest]] eqn:He; cbn [snd];
    rewrite Hout, He; auto.
Qed.

End FirstError.

End Verifier.

Section VerifierExamples.
Import cli verify_spec.

(** No object of the repository can be read; the command returns nil. *)
Lemma flat_verification_never_fails_witness :
  fst (runVerifyCommand (flat 0) no_objects (inr example_root)) = None
  /\ verified (output (snd (runVerifyCommand (flat 0) no_objects (inr example_root))))
     = ["Droot"%string].
Proof.
  destruct (flat_verification_never_fails (flat 0) no_objects example_root)
    as (Hnil & Hverified & _).
  - reflexivity.
  - split; [exact Hnil | exact Hverified].
Defined.

(** The objects "Droot" and "Dsub" are not handed to [om.VerifyObject]. *)
Lemma recursive_verifies_files_only_witness :
  Forall (fun x => x ∈ ["Fa"; "Fb"; "Fc"; "Fd"]%string)
    (verified (output (snd (runVerifyCommand (recursive 0) good_objects
                              (inr example_root))))).
Proof.
  apply Forall_forall.
  exact (recursive_verifies_files_only (recursive 0) good_objects eq_refl example_root).
Defined.

(** The object of "b" is too short: the walk ends there, "c" and "d" are
    not verified. *)
Lemma first_error_stops_the_walk_witness :
  exists lines,
    output (snd (runVerifyCommand (recursive 0) short_object (inr example_root)))
    = lines ++ map LogError
                 (errors (snd (runVerifyCommand (recursive 0) short_object
                                 (inr example_root))))
    /\ quiet lines.
Proof.
  apply (first_error_stops_the_walk (recursive 0) short_object).
  cbn. lia.
Defined.

Lemma recursive_verification_sound_witness :
  fst (runVerifyCommand (recursive 0) good_objects (inr example_root)) = None.
Proof.
  apply (proj1 (recursive_verification_sound (recursive 0) good_objects eq_refl
                  example_root)).
  cbn. unfold sound_file. cbn. repeat split; intros _; reflexivity.
Defined.

(** The walk of the second witness: "a" and "b" are verified, the error
    for "b" is recorded in "sub" and once more at the root, and the command
    returns the count of the two. *)
Example short_object_is_reported_twice :
  fst (runVerifyCommand (recursive 0) short_object (inr example_root))
  = Some (ErrEncountered 2)
  /\ verified (output (snd (runVerifyCommand (recursive 0) short_object
                             (inr example_root))))
     = ["Fa"; "Fb"]%string
  /\ errors (snd (runVerifyCommand (recursive 0) short_object (inr example_root)))
     = [ ErrValidating "Droot/sub/b" (ErrInvalidLength "Fb" 2 3);
         ErrValidating "Droot/sub" (ErrInvalidLength "Fb" 2 3) ].
Proof. vm_compute. repeat split; reflexivity. Qed.

End VerifierExamples.
